(** * FaceMesh3D: geometry pipeline, gaze smoothing and calibration

    A shallow embedding of the [FaceMesh3D] component (coordinate mapping,
    point and line buffers, K-nearest-neighbour wireframe, render-loop
    throttling and FPS accounting, WebGazer gaze listener, nine-point
    calibration) together with the properties its specification states.

    JavaScript numbers are modelled by exact rationals [Q]: every finite
    double is a rational, and the properties below are about the control
    structure and the formulas, not about the rounding of an arithmetic
    operation.  A store into a [Float32Array] is a conversion, not an
    operation, and is modelled: the element takes the nearest
    single-precision value of the double that is stored.  [NaN] and the
    infinities have no counterpart;
    the places where the source could produce them (a zero divisor, a
    store beyond the single-precision range) are named where they occur.
    Counters and array indices are [nat]. *)

From Stdlib Require Import QArith Qround Qminmax Qabs Qpower Lqa Lia ZArith.
From Stdlib Require Import Ascii String DecimalString DecimalNat.
From Stdlib Require Import Sorted.
From stdpp Require Import base list strings.

Local Open Scope Q_scope.

(** ** JavaScript primitives *)

(** Truthiness of a number: every number but [0] is truthy. *)
Definition truthy (a : Q) : bool := negb (Qeq_bool a 0).

(** [a || b] on numbers. *)
Definition js_or (a b : Q) : Q := if truthy a then a else b.

(** [a < b] and [a > b] on numbers. *)
Definition Qltb (a b : Q) : bool := negb (Qle_bool b a).
Definition Qgtb (a b : Q) : bool := Qltb b a.

(** [Math.floor], [Math.round] (halves go up) and [Math.max]. *)
Definition Math_floor (a : Q) : Q := inject_Z (Qfloor a).
Definition Math_round (a : Q) : Z := Qfloor (a + (1 # 2)).
Definition Math_max (a b : Q) : Q := Qmax a b.

(** ** Configuration constants *)

Definition CONNECT_K : nat := 2.
Definition LINES_UPDATE_EVERY_N_FRAMES : nat := 2.
Definition DEPTH_SCALE : Q := 50.
Definition DRAW_LINES : bool := true.
Definition CALIBRATION_PER_POINT : nat := 5.
Definition OFFSCREEN_DELAY_MS : Q := 250.
Definition margin : Q := 40.

(** ** Landmarks and display points *)

(** A landmark or display point [[x, y, z]]. *)
Record point := Point { px : Q; py : Q; pz : Q }.

(** Two points with equal coordinates (as rationals). *)
Definition point_eq (p q : point) : Prop :=
  px p == px q /\ py p == py q /\ pz p == pz q.

(** A landmark as the model returns it; [z] may be missing. *)
Record Keypoint := { kx : Q; ky : Q; kz : option Q }.

(** A face as the model returns it: [keypoints] from the detector API,
    [scaledMesh] (pixels) and [mesh] (normalised) from the legacy package;
    each may be absent. *)
Record Face := {
  keypoints : option (list Keypoint);
  scaledMesh : option (list Keypoint);
  mesh : option (list Keypoint)
}.

(** [extract2DPoints(face)].  [canvas] is the size of the renderer's
    canvas, [None] without a renderer; a missing [z] becomes [0]. *)
Definition extract2DPoints (canvas : option (Q * Q)) (face : Face) : list point :=
  match keypoints face with
  | Some ((_ :: _) as ks) =>
      map (fun k => Point (kx k) (ky k) (default 0 (kz k))) ks
  | _ =>
      match scaledMesh face with
      | Some ((_ :: _) as m) =>
          map (fun p => Point (kx p) (ky p) (default 0 (kz p))) m
      | _ =>
          match mesh face with
          | Some ((_ :: _) as m) =>
              let w := js_or (from_option fst 0 canvas) 640 in
              let h := js_or (from_option snd 0 canvas) 480 in
              map (fun p => Point (kx p * w) (ky p * h) (default 0 (kz p))) m
          | _ => []
          end
      end
  end.

(** What [toDisplayPoints] reads from the DOM: the container's bounding
    rectangle and client width, and the video's intrinsic size. *)
Record Container := { rect_width : Q; rect_height : Q; clientWidth : Q }.
Record Video := { videoWidth : Q; videoHeight : Q }.

Definition display_cw (c : Container) : Q :=
  js_or (rect_width c) (js_or (clientWidth c) 640).
Definition display_ch (c : Container) : Q :=
  js_or (rect_height c) (Math_floor (display_cw c * 3 / 4)).
Definition source_vw (c : Container) (v : Video) : Q :=
  js_or (videoWidth v) (display_cw c).
Definition source_vh (c : Container) (v : Video) : Q :=
  js_or (videoHeight v) (display_ch c).

(** [toDisplayPoints(points)]: the cover transform.  The quotient [ch / vh]
    has a zero divisor only when both the video height and the display
    height are [0]; the source then computes [NaN], the model [0]. *)
Definition toDisplayPoints (container : option Container) (video : option Video)
    (points : list point) : list point :=
  match container, video, points with
  | Some c, Some v, _ :: _ =>
      let cw := display_cw c in
      let ch := display_ch c in
      let vw := source_vw c v in
      let vh := source_vh c v in
      let s := Math_max (cw / vw) (ch / vh) in
      let dx := (cw - vw * s) / 2 in
      let dy := (ch - vh * s) / 2 in
      map (fun p => Point (px p * s + dx) (py p * s + dy) (js_or (pz p) 0)) points
  | _, _, _ => points
  end.

(** The cover transform as the specification words it, for display size
    [(cw, ch)] and source size [(vw, vh)]. *)
Definition spec_cover (cw ch vw vh : Q) (p : point) : point :=
  let scale := Qmax (cw / vw) (ch / vh) in
  let offsetX := (cw - vw * scale) / 2 in
  let offsetY := (ch - vh * scale) / 2 in
  Point (px p * scale + offsetX) (py p * scale + offsetY) (pz p).

(** ** Three.js objects

    Only what the component reads and writes is kept.  A [Float32Array] is
    an object with an identity: [array_id] tells two arrays apart, and
    [allocated] counts the arrays created so far, so that a reallocation is
    visible as a new identity and a larger count.  The renderer, the scene
    and the camera are kept as flags (set or [null]); what the scene
    contains (the light, and the cloud and the line object added to it
    when they are created) is not modelled. *)

(** *** Single-precision stores

    A [Float32Array] keeps, of every number stored in it, the nearest
    single-precision value: 24 significant bits, least exponent [-149],
    ties to the even significand.  A magnitude of [float32_overflow] or
    more is stored as an infinity, which has no counterpart here.  The
    number that is stored is a double: where it is the result of an
    operation, as the depth [-(z || 0) * DEPTH_SCALE] is, that result is
    first the nearest double (53 bits, least exponent [-1074]). *)

(** [floor (log2 |q|)], for [q] other than [0]. *)
Definition Qlog2 (q : Q) : Z :=
  let e := (Z.log2 (Z.abs (Qnum q)) - Z.log2 (Zpos (Qden q)))%Z in
  if Qle_bool (2 ^ e) (Qabs q) then e else (e - 1)%Z.

(** The nearest integer, ties to the even one. *)
Definition round_half_even (x : Q) : Z :=
  let f := Qfloor x in
  match Qcompare (x - inject_Z f) (1 # 2) with
  | Lt => f
  | Gt => (f + 1)%Z
  | Eq => if Z.even f then f else (f + 1)%Z
  end.

(** The nearest binary floating-point number with [prec] significant bits
    and least exponent [emin], ties to even. *)
Definition round_binary (prec emin : Z) (q : Q) : Q :=
  if Qeq_bool q 0 then 0
  else
    let k := Z.max emin (Qlog2 q - (prec - 1)) in
    inject_Z (round_half_even (q / 2 ^ k)) * 2 ^ k.

(** The value a [Float32Array] element takes when [q] is stored in it. *)
Definition to_float32 (q : Q) : Q := round_binary 24 (-149) q.

(** The double an operation with exact result [q] gives. *)
Definition to_double (q : Q) : Q := round_binary 53 (-1074) q.

(** The least magnitude stored as an infinity: [2^128 - 2^103]. *)
Definition float32_overflow : Q := inject_Z ((2 ^ 25 - 1) * 2 ^ 103).

(** Numbers a [Float32Array] stores as finite values. *)
Definition float32_finite (q : Q) : Prop := Qabs q < float32_overflow.

Record BufferAttribute := {
  array_id : nat;
  array : list Q;
  needsUpdate : bool
}.

(** [boundingSphere] keeps the vertex data the sphere was last computed
    from ([None]: never computed); the sphere itself is Three.js's. *)
Record BufferGeometry := {
  position : option BufferAttribute;
  boundingSphere : option (list Q)
}.

Record Three := {
  rendererRef : bool;
  sceneRef : bool;
  cameraRef : bool;
  pointsRef : option BufferGeometry;
  linesRef : option BufferGeometry;
  allocated : nat
}.

(** [new Float32Array(len)]: a fresh array of zeros. *)
Definition new_Float32Array (len : nat) (t : Three) : BufferAttribute * Three :=
  ({| array_id := allocated t; array := replicate len 0; needsUpdate := false |},
   {| rendererRef := rendererRef t; sceneRef := sceneRef t; cameraRef := cameraRef t;
      pointsRef := pointsRef t; linesRef := linesRef t;
      allocated := S (allocated t) |}).

Definition set_pointsRef (g : BufferGeometry) (t : Three) : Three :=
  {| rendererRef := rendererRef t; sceneRef := sceneRef t; cameraRef := cameraRef t;
     pointsRef := Some g; linesRef := linesRef t; allocated := allocated t |}.

Definition set_linesRef (g : BufferGeometry) (t : Three) : Three :=
  {| rendererRef := rendererRef t; sceneRef := sceneRef t; cameraRef := cameraRef t;
     pointsRef := pointsRef t; linesRef := Some g; allocated := allocated t |}.

(** The depth of a point, [-(z || 0) * DEPTH_SCALE], as the double that is
    then stored. *)
Definition depth (z : Q) : Q := to_double (- js_or z 0 * DEPTH_SCALE).

(** The vertex triple the specification gives for a display point:
    [(x, y, -z * DEPTH_SCALE)] as they are. *)
Definition spec_vertex (p : point) : list Q :=
  [px p; py p; - pz p * DEPTH_SCALE].

(** The write loop of [updateGeometry], from index [i] on.  Each store
    converts to single precision; a typed-array store out of range is
    ignored, as list insertion is. *)
Fixpoint write_points (points : list point) (i : nat) (arr : list Q) : list Q :=
  match points with
  | [] => arr
  | p :: rest =>
      let ix := (i * 3)%nat in
      write_points rest (S i)
        (<[(ix + 2)%nat := to_float32 (depth (pz p))]>
           (<[(ix + 1)%nat := to_float32 (py p)]>
              (<[ix := to_float32 (px p)]> arr)))
  end.

(** [updateGeometry(points)]. *)
Definition updateGeometry (points : list point) (t : Three) : Three :=
  if negb (sceneRef t) then t else
  (* first use: create the cloud with a buffer for this frame's points *)
  let '(g, t1) :=
    match pointsRef t with
    | Some g => (g, t)
    | None =>
        let '(positions, t') := new_Float32Array (length points * 3) t in
        let g := {| position := Some positions; boundingSphere := None |} in
        (g, set_pointsRef g t')
    end in
  (* reallocate the buffer if the landmark count changed *)
  let '(positionAttr, t2) :=
    match position g with
    | Some a =>
        if negb (length (array a) =? length points * 3)%nat
        then new_Float32Array (length points * 3) t1
        else (a, t1)
    | None => new_Float32Array (length points * 3) t1
    end in
  let arr := write_points points 0 (array positionAttr) in
  set_pointsRef
    {| position := Some {| array_id := array_id positionAttr; array := arr;
                           needsUpdate := true |};
       boundingSphere := Some arr |} t2.

(** The position attribute of the point cloud. *)
Definition points_buffer (t : Three) : option BufferAttribute :=
  pointsRef t ≫= position.

(** Successive updates, one per point list. *)
Definition run_updates (frames : list (list point)) (t : Three) : Three :=
  foldl (fun t points => updateGeometry points t) t frames.

(** How often the point count changes along a sequence of counts that
    follows a frame of [prev] points. *)
Fixpoint count_changes (prev : nat) (counts : list nat) : nat :=
  match counts with
  | [] => 0
  | n :: counts' => ((if (n =? prev)%nat then 0 else 1) + count_changes n counts')%nat
  end.

(** ** Nearest-neighbour wireframe *)

(** Squared distance between two display points, as the inner loop
    computes it: [dz] uses [(zi || 0) - (zj || 0)]. *)
Definition dist2 (p q : point) : Q :=
  let dx := px p - px q in
  let dy := py p - py q in
  let dz := js_or (pz p) 0 - js_or (pz q) 0 in
  dx * dx + dy * dy + dz * dz.

(** A kept candidate [[d2, j]]. *)
Definition cand : Type := Q * nat.

(** [best.sort((a, b) => a[0] - b[0])]: a stable sort by the first
    component. *)
Fixpoint sort_insert (c : cand) (l : list cand) : list cand :=
  match l with
  | [] => [c]
  | d :: t => if Qle_bool c.1 d.1 then c :: d :: t else d :: sort_insert c t
  end.
Definition js_sort (l : list cand) : list cand := foldr sort_insert [] l.

(** A list with its indices. *)
Definition indexed {A} (l : list A) : list (nat * A) := imap (fun i x => (i, x)) l.

(** One pass of the inner loop body for candidate [j]. *)
Definition scan_step (i : nat) (pi : point) (best : list cand) (jp : nat * point)
    : list cand :=
  let '(j, pj) := jp in
  if (i =? j)%nat then best else
  let d2 := dist2 pi pj in
  if (length best <? CONNECT_K)%nat then js_sort (best ++ [(d2, j)])
  else match best !! (CONNECT_K - 1)%nat with
       | Some worst =>
           if Qltb d2 worst.1
           then js_sort (<[(CONNECT_K - 1)%nat := (d2, j)]> best)
           else best
       | None => best
       end.

(** The inner loop: the kept candidates of point [i]. *)
Definition knn_best (pts : list point) (i : nat) (pi : point) : list cand :=
  foldl (scan_step i pi) [] (indexed pts).

(** [String(n)] for a natural number: its decimal digits. *)
Definition Number_toString (n : nat) : string :=
  NilZero.string_of_uint (Nat.to_uint n).

(** The key [a + "," + b] of an edge. *)
Definition edge_key (a b : nat) : string :=
  (Number_toString a ++ "," ++ Number_toString b)%string.

(** [edges.add(key)] on a [Set], kept in insertion order. *)
Definition Set_add (key : string) (edges : list string) : list string :=
  if bool_decide (key ∈ edges) then edges else edges ++ [key].

(** The edges point [i] emits for its kept candidates. *)
Definition emit_edges (i : nat) (best : list cand) (edges : list string) : list string :=
  foldl (fun edges c =>
           let j := c.2 in
           let a := if (i <? j)%nat then i else j in
           let b := if (i <? j)%nat then j else i in
           Set_add (edge_key a b) edges) edges best.

(** The outer loop: the edge set of a frame. *)
Definition knn_edges (pts : list point) : list string :=
  foldl (fun edges ip => emit_edges ip.1 (knn_best pts ip.1 ip.2) edges) []
        (indexed pts).

(** ** Line buffer *)

(** [e.split(",")]. *)
Fixpoint split_comma (s : string) : list string :=
  match s with
  | EmptyString => [EmptyString]
  | String c s' =>
      if Ascii.eqb c ","%char then EmptyString :: split_comma s'
      else match split_comma s' with
           | h :: t => String c h :: t
           | [] => [String c EmptyString]
           end
  end.

(** [parseInt(s, 10)] on a string of decimal digits; [None] stands for
    [NaN], also for an absent argument.  Strings with signs, blanks or
    trailing text never reach it here and are outside the model. *)
Definition parseInt (s : option string) : option nat :=
  s ≫= fun s => Nat.of_uint <$> NilZero.uint_of_string s.

(** The six values one edge contributes to the line buffer, each converted
    to single precision by its store; [None] when an end point is missing
    ([pts[a]] undefined: the destructuring throws). *)
Definition line_vertices (pts : list point) (e : string) : option (list Q) :=
  let parts := split_comma e in
  a ← parseInt (parts !! 0%nat);
  b ← parseInt (parts !! 1%nat);
  pa ← pts !! a;
  pb ← pts !! b;
  Some [to_float32 (px pa); to_float32 (py pa); to_float32 (depth (pz pa));
        to_float32 (px pb); to_float32 (py pb); to_float32 (depth (pz pb))].

(** The content of [positions] after the fill loop: the successive
    [idx++] stores lay the edges out front to back. *)
Definition line_positions (pts : list point) (edges : list string) : option (list Q) :=
  vs ← mapM (line_vertices pts) edges; Some (concat vs).

(** The body of the throttled branch: rebuild the line geometry from the
    frame's points.  The new array [positions] ends up holding what the
    fill loop writes, [vs].  [None] when the source throws. *)
Definition recomputeLines (pts : list point) (t : Three) : option Three :=
  let edges := knn_edges pts in
  let m := length edges in
  t1 ← match linesRef t with
       | Some _ => Some t
       | None =>
           (* [sceneRef.current.add(lines)] needs the scene *)
           if sceneRef t
           then Some (set_linesRef {| position := None; boundingSphere := None |} t)
           else None
       end;
  let '(positions, t2) := new_Float32Array (m * 2 * 3) t1 in
  vs ← line_positions pts edges;
  Some (set_linesRef
          {| position := Some {| array_id := array_id positions; array := vs;
                                 needsUpdate := false |};
             boundingSphere := Some vs |} t2).

(** ** Render loop *)

(** What one invocation of [loop] receives: the detector's faces, the DOM
    measurements (canvas size, container, video) and the clock reading of
    the FPS block. *)
Record Frame := {
  faces : list Face;
  canvas_width : Q;
  canvas_height : Q;
  container : option Container;
  video : option Video;
  now : Q
}.

(** Calls that leave the loop: React setters and the draw call, which
    sees the two vertex arrays as they are at that moment. *)
Inductive effect :=
  | SetFacesCount (n : nat)
  | Render (points lines : option (list Q))
  | SetFps (v : Z).

Record LoopState := {
  three : Three;
  lastTime : Q;
  frames : nat;
  lastFpsUpdate : Q;
  lineFrameCounter : nat;
  effects : list effect
}.

Definition vertex_array (g : option BufferGeometry) : option (list Q) :=
  array <$> (g ≫= position).

(** Geometry and lines for one frame: the new Three.js state and line
    counter. *)
Definition update_scene (f : Frame) (st : LoopState) : option (Three * nat) :=
  match faces f with
  | face :: _ =>
      let canvas :=
        if rendererRef (three st)
        then Some (canvas_width f, canvas_height f) else None in
      let raw := extract2DPoints canvas face in
      match toDisplayPoints (container f) (video f) raw with
      | (_ :: _) as pts =>
          let t := updateGeometry pts (three st) in
          if DRAW_LINES then
            let c := lineFrameCounter st in
            if (c mod LINES_UPDATE_EVERY_N_FRAMES =? 0)%nat
            then t' ← recomputeLines pts t; Some (t', S c)
            else Some (t, S c)
          else Some (t, lineFrameCounter st)
      | [] => Some (three st, lineFrameCounter st)
      end
  | [] => Some (three st, lineFrameCounter st)
  end.

(** The FPS block: the new [(frames, lastTime, lastFpsUpdate)] and the
    value reported, if any.  [delta] is positive whenever
    [lastTime <= lastFpsUpdate], which every reachable state satisfies. *)
Definition fps_tracking (now : Q) (st : LoopState) : nat * Q * Q * option Z :=
  let frames1 := S (frames st) in
  if Qgtb (now - lastFpsUpdate st) 500 then
    let delta := now - lastTime st in
    (0%nat, now, now, Some (Math_round (inject_Z (Z.of_nat frames1) * 1000 / delta)))
  else (frames1, lastTime st, lastFpsUpdate st, None).

(** One invocation of [loop]; [None] when it throws. *)
Definition loop (f : Frame) (st : LoopState) : option LoopState :=
  '(t, counter) ← update_scene f st;
  let draw :=
    if rendererRef t && sceneRef t && cameraRef t
    then [Render (vertex_array (pointsRef t)) (vertex_array (linesRef t))]
    else [] in
  let '(frames', lastTime', lastFpsUpdate', report) := fps_tracking (now f) st in
  Some {| three := t;
          lastTime := lastTime';
          frames := frames';
          lastFpsUpdate := lastFpsUpdate';
          lineFrameCounter := counter;
          effects := effects st ++ [SetFacesCount (length (faces f))] ++ draw
                     ++ match report with Some v => [SetFps v] | None => [] end |}.

(** The loop run over successive frames. *)
Fixpoint run_loop (fs : list Frame) (st : LoopState) : option LoopState :=
  match fs with
  | [] => Some st
  | f :: fs' => st' ← loop f st; run_loop fs' st'
  end.

(** The state when [loop] is first called: [setupThree] has run, no
    geometry exists yet; [t0 <= t1] are the two clock readings that
    initialise [lastTime] and [lastFpsUpdate]. *)
Definition initial_loop_state (t0 t1 : Q) : LoopState :=
  {| three := {| rendererRef := true; sceneRef := true; cameraRef := true;
                 pointsRef := None; linesRef := None; allocated := 0 |};
     lastTime := t0; frames := 0; lastFpsUpdate := t1;
     lineFrameCounter := 0; effects := [] |}.

(** ** Gaze listener *)

(** The listener's closure variable and the two React states it sets. *)
Record GazeState := {
  lastOnScreenAt : Q;
  offScreen : bool;
  gazeXY : option (Z * Z)
}.

(** One call of the listener.  [data] is [None] for a null prediction; a
    field is [None] when it is not a number.  The viewport is read from the
    window and the document element.  [performance.now()] is read up to
    twice: [clock_inside] is the reading taken when the gaze is inside,
    [clock_now] the one taken before [setOffScreen]. *)
Record GazeSample := {
  data : option (option Q * option Q);
  innerWidth : Q;
  doc_clientWidth : Q;
  innerHeight : Q;
  doc_clientHeight : Q;
  clock_inside : Q;
  clock_now : Q
}.

Definition viewport_W (s : GazeSample) : Q :=
  js_or (innerWidth s) (js_or (doc_clientWidth s) 0).
Definition viewport_H (s : GazeSample) : Q :=
  js_or (innerHeight s) (js_or (doc_clientHeight s) 0).

(** [valid]: the prediction exists and both coordinates are numbers. *)
Definition valid (s : GazeSample) : option (Q * Q) :=
  match data s with
  | Some (Some x, Some y) => Some (x, y)
  | _ => None
  end.

(** [inside]: within the viewport widened by the margin on every side. *)
Definition inside (s : GazeSample) (x y : Q) : bool :=
  Qle_bool (- margin) x && Qle_bool x (viewport_W s + margin)
  && Qle_bool (- margin) y && Qle_bool y (viewport_H s + margin).

(** The callback given to [wg.setGazeListener]. *)
Definition gazeListener (cancelled : bool) (s : GazeSample) (st : GazeState)
    : GazeState :=
  if cancelled then st else
  let '(xy, last) :=
    match valid s with
    | Some (x, y) =>
        (Some (Math_round x, Math_round y),
         if inside s x y then clock_inside s else lastOnScreenAt st)
    | None => (None, lastOnScreenAt st)
    end in
  {| lastOnScreenAt := last;
     offScreen := Qgtb (clock_now s - last) OFFSCREEN_DELAY_MS;
     gazeXY := xy |}.

(** The listener run over a stream of samples, while not cancelled. *)
Definition run_gaze (samples : list GazeSample) (st : GazeState) : GazeState :=
  foldl (fun st s => gazeListener false s st) st samples.

(** A sample that is valid and inside the widened viewport. *)
Definition on_screen (s : GazeSample) : bool :=
  match valid s with
  | Some (x, y) => inside s x y
  | None => false
  end.

(** The time of the last on-screen sample of a stream, as the
    specification speaks of it; [t0] when the stream has none. *)
Definition last_on_screen_time (t0 : Q) (samples : list GazeSample) : Q :=
  foldl (fun t s => if on_screen s then clock_inside s else t) t0 samples.

(** What the specification says an invalid sample does: the state is left
    as it is, except that the last known position is cleared. *)
Definition spec_invalid_sample (st : GazeState) : GazeState :=
  {| lastOnScreenAt := lastOnScreenAt st; offScreen := offScreen st; gazeXY := None |}.

(** A valid sample at [(x, 300)] in a 1280 by 720 viewport, both clock
    readings being [t]. *)
Definition sample_at (x : Q) (t : Q) : GazeSample :=
  {| data := Some (Some x, Some 300);
     innerWidth := 1280; doc_clientWidth := 1280;
     innerHeight := 720; doc_clientHeight := 720;
     clock_inside := t; clock_now := t |}.

(** A state with the last on-screen gaze at time 0, and a null prediction
    arriving at time 300. *)
Definition gaze_state0 : GazeState :=
  {| lastOnScreenAt := 0; offScreen := false; gazeXY := Some (640, 300)%Z |}.
Definition invalid_sample_300 : GazeSample :=
  {| data := None; innerWidth := 1280; doc_clientWidth := 1280;
     innerHeight := 720; doc_clientHeight := 720;
     clock_inside := 300; clock_now := 300 |}.

(** ** Calibration *)

(** The WebGazer instance, as far as calibration touches it. *)
Record WebGazer := {
  trainedData : list (Q * Q);
  mouseEventListeners : bool;
  predictionPoints : bool
}.

Record CalibState := {
  calibrating : bool;
  calibrationCounts : list nat;
  showGazeDot : bool;
  webgazer : option WebGazer
}.

Definition startCalibration (st : CalibState) : CalibState :=
  {| calibrating := true;
     calibrationCounts := replicate 9 0%nat;
     showGazeDot := showGazeDot st;
     webgazer :=
       (fun wg => {| trainedData := [];          (* clearData() *)
                     mouseEventListeners := true;  (* addMouseEventListeners() *)
                     predictionPoints := true |})  (* showPredictionPoints(true) *)
       <$> webgazer st |}.

Definition stopCalibration (st : CalibState) : CalibState :=
  {| calibrating := false;
     calibrationCounts := calibrationCounts st;
     showGazeDot := showGazeDot st;
     webgazer :=
       (fun wg => {| trainedData := trainedData wg;
                     mouseEventListeners := false;
                     predictionPoints := showGazeDot st |})
       <$> webgazer st |}.

(** Every count has reached the quota. *)
Definition all_done (counts : list nat) : bool :=
  forallb (fun c => (CALIBRATION_PER_POINT <=? c)%nat) counts.

(** The [onClick] handler of calibration point [idx].  The nine buttons
    carry [idx] from 0 to 8, within the array. *)
Definition onClick (idx : nat) (st : CalibState) : CalibState :=
  let prev := calibrationCounts st in
  let next :=
    <[idx := Nat.min CALIBRATION_PER_POINT (default 0%nat (prev !! idx) + 1)]> prev in
  let st' := if all_done next then stopCalibration st else st in
  {| calibrating := calibrating st';
     calibrationCounts := next;
     showGazeDot := showGazeDot st';
     webgazer := webgazer st' |}.

(** A run of clicks. *)
Definition run_clicks (clicks : list nat) (st : CalibState) : CalibState :=
  foldl (fun st idx => onClick idx st) st clicks.

(** ** Vocabulary of the wireframe properties *)

(** Candidates ordered by distance. *)
Definition cand_le (a b : cand) : Prop := a.1 <= b.1.

(** The candidates point [i] meets while scanning [L]: every other point
    with its squared distance. *)
Definition cands (i : nat) (pi : point) (L : list (nat * point)) : list cand :=
  (fun jp => (dist2 pi jp.2, jp.1)) <$> filter (fun jp => jp.1 <> i) L.

(** The kept list [best] against all candidates met so far: it is sorted,
    holds at most [CONNECT_K] of them, and whatever was left out ([rest])
    is at least as far as everything kept, and is left out only when the
    list is full. *)
Definition knn_inv (all best : list cand) : Prop :=
  exists rest,
    best ++ rest ≡ₚ all
    /\ (forall b r, b ∈ best -> r ∈ rest -> b.1 <= r.1)
    /\ (rest <> [] -> length best = CONNECT_K)
    /\ (length best <= CONNECT_K)%nat
    /\ StronglySorted cand_le best.

(** A string without a comma. *)
Fixpoint no_comma (s : string) : bool :=
  match s with
  | EmptyString => true
  | String c s' => negb (Ascii.eqb c ","%char) && no_comma s'
  end.

(** The neighbour relations before deduplication: [(i, j)] for every kept
    candidate [j] of every point [i], in the order the loops visit them. *)
Definition directed (pts : list point) : list (nat * nat) :=
  indexed pts ≫= fun ip => (fun c : cand => (ip.1, c.2)) <$> knn_best pts ip.1 ip.2.

(** The key under which a relation [(i, j)] enters the edge set. *)
Definition canon_key (p : nat * nat) : string :=
  edge_key (if (p.1 <? p.2)%nat then p.1 else p.2)
           (if (p.1 <? p.2)%nat then p.2 else p.1).

(** Scenario D of the specification: four points in a square. *)
Definition square : list point :=
  [Point 0 0 0; Point 10 0 0; Point 10 10 0; Point 0 10 0].

(** ** Vocabulary of the render-loop properties *)

(** The display points an invocation works on when the renderer exists:
    those of the first face, if there is a face and it has points. *)
Definition frame_points (f : Frame) : option (list point) :=
  match faces f with
  | face :: _ =>
      match toDisplayPoints (container f) (video f)
              (extract2DPoints (Some (canvas_width f, canvas_height f)) face) with
      | [] => None
      | pts => Some pts
      end
  | [] => None
  end.

Definition has_points (f : Frame) : bool :=
  match frame_points f with Some _ => true | None => false end.

(** The identity of the array behind the line geometry. *)
Definition lines_id (t : Three) : option nat :=
  array_id <$> (linesRef t ≫= position).

(** The line geometry was rebuilt between two states: it sits on another
    array. *)
Definition recomputed (st st' : LoopState) : bool :=
  negb (bool_decide (lines_id (three st) = lines_id (three st'))).

(** The values passed to [setFps], oldest first. *)
Definition fps_reports (es : list effect) : list Z :=
  omap (fun e => match e with SetFps v => Some v | _ => None end) es.

(** The line arrays handed to the draw calls, oldest first. *)
Definition drawn_lines (es : list effect) : list (option (list Q)) :=
  omap (fun e => match e with Render _ lines => Some lines | _ => None end) es.

(** Every array in use was allocated before: its identity is below the
    allocation count. *)
Definition ids_allocated (t : Three) : Prop :=
  forall id, lines_id t = Some id -> (id < allocated t)%nat.

(** The number of frames of a run that come with points. *)
Fixpoint frames_with_points (fs : list Frame) : nat :=
  match fs with
  | [] => 0
  | f :: fs' => ((if has_points f then 1 else 0) + frames_with_points fs')%nat
  end.

(** The loop is set up: renderer, scene and camera exist, and the line
    array, if any, was allocated before. *)
Definition loop_ready (st : LoopState) : Prop :=
  rendererRef (three st) = true /\ sceneRef (three st) = true
  /\ cameraRef (three st) = true /\ ids_allocated (three st).

(** In a run from the initial state, invocation [k] rebuilt the lines. *)
Definition recomputed_at (fs : list Frame) (k : nat) : bool :=
  match run_loop (take k fs) (initial_loop_state 0 0),
        run_loop (take (S k) fs) (initial_loop_state 0 0) with
  | Some a, Some b => recomputed a b
  | _, _ => false
  end.

(** The throttle as the specification words it: rebuilds fall on every
    [N]th render invocation, so any two of them are a multiple of [N]
    invocations apart. *)
Definition spec_every_Nth_invocation (fs : list Frame) : Prop :=
  forall i j, (i <= j < length fs)%nat ->
    recomputed_at fs i = true -> recomputed_at fs j = true ->
    ((j - i) mod LINES_UPDATE_EVERY_N_FRAMES = 0)%nat.

(** The FPS report as the specification words it: due as soon as 500ms
    have elapsed since the last report. *)
Definition spec_fps_report_due (now : Q) (st : LoopState) : bool :=
  Qle_bool 500 (now - lastFpsUpdate st).

(** A frame with one face of three landmarks, and a frame without a face,
    in a 640 by 480 container showing a 640 by 480 video. *)
Definition frame_face (t : Q) : Frame :=
  {| faces := [{| keypoints := Some [ {| kx := 100; ky := 100; kz := Some 0 |};
                                      {| kx := 200; ky := 100; kz := Some 1 |};
                                      {| kx := 150; ky := 200; kz := Some 2 |} ];
                  scaledMesh := None; mesh := None |}];
     canvas_width := 640; canvas_height := 480;
     container := Some {| rect_width := 640; rect_height := 480; clientWidth := 640 |};
     video := Some {| videoWidth := 640; videoHeight := 480 |};
     now := t |}.
Definition frame_empty (t : Q) : Frame :=
  {| faces := [];
     canvas_width := 640; canvas_height := 480;
     container := Some {| rect_width := 640; rect_height := 480; clientWidth := 640 |};
     video := Some {| videoWidth := 640; videoHeight := 480 |};
     now := t |}.

(** Four invocations, the second without a face. *)
Definition run_with_gap : list Frame :=
  [frame_face 16; frame_empty 33; frame_face 50; frame_face 66].

(** ** Vocabulary of the further properties *)

(** The three values a display point contributes to a vertex array. *)
Definition vertex (p : point) : list Q :=
  [to_float32 (px p); to_float32 (py p); to_float32 (depth (pz p))].

(** A display point whose three stored values are finite. *)
Definition float32_point (p : point) : Prop :=
  float32_finite (px p) /\ float32_finite (py p) /\ float32_finite (depth (pz p)).

(** What the line-buffer loop reads back from a key: [e.split(",")] and
    the two [parseInt]s. *)
Definition decode_edge (e : string) : option (nat * nat) :=
  let parts := split_comma e in
  a ← parseInt (parts !! 0%nat);
  b ← parseInt (parts !! 1%nat);
  Some (a, b).

(** Point [i] keeps point [j] as one of its nearest neighbours. *)
Definition keeps (pts : list point) (i j : nat) : Prop :=
  exists pi, pts !! i = Some pi /\ j ∈ (knn_best pts i pi).*2.

(** Two candidates with the same index and equal distances. *)
Definition cand_eq (c c' : cand) : Prop := c.1 == c'.1 /\ c.2 = c'.2.

(** A point moved by [(vx, vy, vz)]. *)
Definition shift (vx vy vz : Q) (p : point) : point :=
  Point (px p + vx) (py p + vy) (pz p + vz).

(** The face counts passed to [setFacesCount], oldest first. *)
Definition face_counts (es : list effect) : list nat :=
  omap (fun e => match e with SetFacesCount n => Some n | _ => None end) es.

(** The vertex arrays handed to the draw calls, points and lines. *)
Definition draws (es : list effect) : list (option (list Q) * option (list Q)) :=
  omap (fun e => match e with Render p l => Some (p, l) | _ => None end) es.

(** A frame reduced to its first face. *)
Definition first_face_only (f : Frame) : Frame :=
  {| faces := take 1 (faces f);
     canvas_width := canvas_width f; canvas_height := canvas_height f;
     container := container f; video := video f; now := now f |}.

(** How often calibration point [i] was clicked. *)
Definition clicks_on (i : nat) (clicks : list nat) : nat :=
  length (filter (fun j => j = i) clicks).

(** ** App: duration field, session timer and page flow *)

(** Text typed into a field is a string over the characters up to U+00FF.
    Among these, [String.prototype.trim] removes tab, line feed, vertical
    tab, form feed, carriage return, space and no-break space. *)
Definition is_space (c : ascii) : bool :=
  match N_of_ascii c with
  | 9 | 10 | 11 | 12 | 13 | 32 | 160 => true
  | _ => false
  end%N.

(** The class [\d]. *)
Definition is_digit (c : ascii) : bool :=
  ((48 <=? N_of_ascii c) && (N_of_ascii c <=? 57))%N.

Fixpoint string_forall (P : ascii -> bool) (s : string) : bool :=
  match s with
  | EmptyString => true
  | String c s' => P c && string_forall P s'
  end.

Fixpoint trim_start (s : string) : string :=
  match s with
  | EmptyString => EmptyString
  | String c s' => if is_space c then trim_start s' else s
  end.

Fixpoint trim_end (s : string) : string :=
  match s with
  | EmptyString => EmptyString
  | String c s' =>
      match trim_end s' with
      | EmptyString => if is_space c then EmptyString else String c EmptyString
      | t => String c t
      end
  end.

(** [s.trim()]. *)
Definition trim (s : string) : string := trim_end (trim_start s).

(** [/^\d+$/.test(s)]. *)
Definition all_digits (s : string) : bool :=
  negb (String.eqb s "") && string_forall is_digit s.

(** The text before and after the first colon. *)
Fixpoint split_colon (s : string) : option (string * string) :=
  match s with
  | EmptyString => None
  | String c s' =>
      if Ascii.eqb c ":"%char then Some (EmptyString, s')
      else match split_colon s' with
           | Some (a, b) => Some (String c a, b)
           | None => None
           end
  end.

(** [/^(\d+):(\d{1,2})$/.exec(s)]: the two groups, or [None] for [null].
    The first group holds no colon, so it ends at the first colon of [s]. *)
Definition match_h_mm (s : string) : option (string * string) :=
  match split_colon s with
  | Some (h, m) =>
      if all_digits h && all_digits m && (String.length m <=? 2)%nat
      then Some (h, m) else None
  | None => None
  end.

(** [parseDurationToMinutes(value)]; [None] stands for [NaN].  Minutes are
    exact naturals, as the source's numbers are below [2^53]. *)
Definition parseDurationToMinutes (value : string) : option nat :=
  let trimmed := trim value in
  if String.eqb trimmed "" then Some 0%nat
  else if all_digits trimmed then parseInt (Some trimmed)
  else
    match match_h_mm trimmed with
    | Some (h, m) =>
        let hours := parseInt (Some h) in
        match parseInt (Some m) with
        | Some mins =>
            if (mins <? 60)%nat
            then hours ≫= fun hours => Some (hours * 60 + mins)%nat
            else Some 0%nat
        | None => Some 0%nat
        end
    | None => Some 0%nat
    end.

(** [totalSec | 0]: the conversion to a signed 32-bit integer. *)
Definition to_int32 (z : Z) : Z :=
  let m := (z mod 2 ^ 32)%Z in
  if (m <? 2 ^ 31)%Z then m else (m - 2 ^ 32)%Z.

(** [pad] of the session timer: two digits at least. *)
Definition pad (n : nat) : string :=
  if (n <? 10)%nat then ("0" ++ Number_toString n)%string else Number_toString n.

(** [formatTime(totalSec)] of the session page, for a whole number of
    seconds. *)
Definition formatTime (totalSec : Z) : string :=
  let sec := Z.to_nat (Z.max 0 (to_int32 totalSec)) in
  let hours := (sec / 3600)%nat in
  let minutes := ((sec mod 3600) / 60)%nat in
  let seconds := (sec mod 60)%nat in
  if (0 <? hours)%nat
  then (Number_toString hours ++ ":" ++ pad minutes ++ ":" ++ pad seconds)%string
  else (Number_toString minutes ++ ":" ++ pad seconds)%string.

(** [a || b] on strings: the empty string is the only falsy one. *)
Definition js_or_string (a b : string) : string :=
  if String.eqb a "" then b else a.

(** The pages of the app. *)
Inductive View :=
  | Login | Home | Pre | Session | Profile | Survey | SurveyResults.

(** What the session form hands to [onStart]. *)
Record FormConfig := {
  form_subject : string;
  form_goal : string;
  form_durationMinutes : option nat;
  form_wantsBackgroundAudio : bool
}.

(** A running session: the form's fields and [startedAt].  The ISO string
    of [startedAt] is only ever read back with [getTime], so it is kept as
    the clock reading in milliseconds it was made from. *)
Record SessionConfig := {
  subject : string;
  goal : string;
  durationMinutes : option nat;
  wantsBackgroundAudio : bool;
  startedAt : Z
}.

(** [{ ...currentConfig, endedAt, actualMinutes }]. *)
Record CompletedSession := {
  config : SessionConfig;
  endedAt : Z;
  actualMinutes : Z
}.

(** The answers of the survey form, each the value of its field. *)
Record Answers := {
  focusLevel : string;
  distractionFeel : string;
  distractionSource : string;
  meshEffect : string;
  meshLookFrequency : string;
  easeOfUse : string;
  unnecessaryFeatures : string;
  comfortLevel : string;
  meshStress : string;
  meshAccuracy : string;
  meshPreference : string
}.

(** [{ session: lastSession, ...answers }]. *)
Record SurveyResponse := {
  session : option CompletedSession;
  answers : Answers
}.

(** The state of [App]. *)
Record AppState := {
  view : View;
  userName : string;
  currentConfig : option SessionConfig;
  pastSessions : list CompletedSession;
  backgroundMuted : bool;
  lastCompleted : option CompletedSession;
  surveyResults : list SurveyResponse
}.

Definition initial_app : AppState :=
  {| view := Login; userName := ""; currentConfig := None; pastSessions := [];
     backgroundMuted := false; lastCompleted := None; surveyResults := [] |}.

Definition setView (v : View) (st : AppState) : AppState :=
  {| view := v; userName := userName st; currentConfig := currentConfig st;
     pastSessions := pastSessions st; backgroundMuted := backgroundMuted st;
     lastCompleted := lastCompleted st; surveyResults := surveyResults st |}.

Definition handleLogin (name : string) (st : AppState) : AppState :=
  {| view := Home; userName := name; currentConfig := currentConfig st;
     pastSessions := pastSessions st; backgroundMuted := backgroundMuted st;
     lastCompleted := lastCompleted st; surveyResults := surveyResults st |}.

(** [handleSubmit] of the login page. *)
Definition LoginPage_handleSubmit (name : string) (st : AppState) : AppState :=
  let trimmed := trim name in
  if String.eqb trimmed "" then st else handleLogin trimmed st.

(** [handlePreSessionStart(config)], the clock reading [now_ms]. *)
Definition handlePreSessionStart (c : FormConfig) (now_ms : Z) (st : AppState) : AppState :=
  let sessionConfig :=
    {| subject := form_subject c; goal := form_goal c;
       durationMinutes := form_durationMinutes c;
       wantsBackgroundAudio := form_wantsBackgroundAudio c;
       startedAt := now_ms |} in
  {| view := Session; userName := userName st; currentConfig := Some sessionConfig;
     pastSessions := pastSessions st;
     backgroundMuted := negb (form_wantsBackgroundAudio c);
     lastCompleted := lastCompleted st; surveyResults := surveyResults st |}.

(** [handleSubmit] of the session form. *)
Definition PreSessionForm_handleSubmit (subject_input goal_input durationInput : string)
    (wants : bool) (now_ms : Z) (st : AppState) : AppState :=
  let minutes := parseDurationToMinutes durationInput in
  handlePreSessionStart
    {| form_subject := js_or_string (trim subject_input) "Untitled session";
       form_goal := js_or_string (trim goal_input) "No specific goal";
       form_durationMinutes := minutes;
       form_wantsBackgroundAudio := wants |} now_ms st.

(** [handleEndSession()], the clock reading [endMs]. *)
Definition handleEndSession (endMs : Z) (st : AppState) : AppState :=
  match currentConfig st with
  | None => st
  | Some cfg =>
      let startMs := startedAt cfg in
      let actual := Math_round (inject_Z (endMs - startMs) / 60000) in
      let completedSession :=
        {| config := cfg; endedAt := endMs; actualMinutes := actual |} in
      {| view := Survey; userName := userName st; currentConfig := None;
         pastSessions := pastSessions st ++ [completedSession];
         backgroundMuted := backgroundMuted st;
         lastCompleted := Some completedSession;
         surveyResults := surveyResults st |}
  end.

Definition handleSurveySubmit (response : SurveyResponse) (st : AppState) : AppState :=
  {| view := Home; userName := userName st; currentConfig := currentConfig st;
     pastSessions := pastSessions st; backgroundMuted := backgroundMuted st;
     lastCompleted := lastCompleted st;
     surveyResults := surveyResults st ++ [response] |}.

(** [handleSubmit] of the survey page. *)
Definition SurveyPage_handleSubmit (a : Answers) (st : AppState) : AppState :=
  handleSurveySubmit {| session := lastCompleted st; answers := a |} st.

Definition onToggleMute (st : AppState) : AppState :=
  {| view := view st; userName := userName st; currentConfig := currentConfig st;
     pastSessions := pastSessions st; backgroundMuted := negb (backgroundMuted st);
     lastCompleted := lastCompleted st; surveyResults := surveyResults st |}.

(** What a user can do: the handlers the pages are given. *)
Inductive Event :=
  | SubmitLogin (name : string)
  | StartSessionClick
  | ProfileClick
  | SurveyResultsClick
  | Back
  | SubmitSessionForm (subject_input goal_input durationInput : string)
      (wants : bool) (now_ms : Z)
  | ToggleMute
  | EndSession (now_ms : Z)
  | SubmitSurvey (a : Answers).

(** The view routing: each page is rendered with its own handlers only, so
    an event acts in the view that offers it and nowhere else. *)
Definition react (e : Event) (st : AppState) : AppState :=
  match view st, e with
  | Login, SubmitLogin name => LoginPage_handleSubmit name st
  | Home, StartSessionClick => setView Pre st
  | Home, ProfileClick => setView Profile st
  | Home, SurveyResultsClick => setView SurveyResults st
  | Pre, Back => setView Home st
  | Pre, SubmitSessionForm s g d w t => PreSessionForm_handleSubmit s g d w t st
  | Session, ToggleMute => onToggleMute st
  | Session, EndSession t => handleEndSession t st
  | Profile, Back => setView Home st
  | Survey, SubmitSurvey a => SurveyPage_handleSubmit a st
  | SurveyResults, Back => setView Home st
  | _, _ => st
  end.

Definition run_app (es : list Event) (st : AppState) : AppState :=
  foldl (fun st e => react e st) st es.

(** A session whose subject and goal are not empty and whose planned
    duration is a number. *)
Definition session_ok (c : SessionConfig) : Prop :=
  subject c <> ""%string /\ goal c <> ""%string /\ is_Some (durationMinutes c).

(** A recorded session: a well-formed session with the rounded number of
    minutes between its two clock readings. *)
Definition completed_ok (c : CompletedSession) : Prop :=
  session_ok (config c)
  /\ actualMinutes c
     = Math_round (inject_Z (endedAt c - startedAt (config c)) / 60000).

(** The session the survey page is asking about, if it is shown. *)
Definition pending (st : AppState) : list (option CompletedSession) :=
  match view st with
  | Survey => [lastCompleted st]
  | _ => []
  end.

(** What holds of the app's state between any two events. *)
Definition app_inv (st : AppState) : Prop :=
  (view st = Session <-> is_Some (currentConfig st))
  /\ (view st = Login <-> userName st = ""%string)
  /\ lastCompleted st = last (pastSessions st)
  /\ (session <$> surveyResults st) ++ pending st = Some <$> pastSessions st
  /\ Forall completed_ok (pastSessions st)
  /\ (forall c, currentConfig st = Some c -> session_ok c).

(** * Properties *)

(** ** JavaScript primitives *)

Lemma truthy_true (a : Q) : truthy a = true <-> ~ a == 0.
Proof.
  unfold truthy. rewrite negb_true_iff, <- not_true_iff_false, Qeq_bool_iff.
  reflexivity.
Qed.

Lemma truthy_false (a : Q) : truthy a = false <-> a == 0.
Proof.
  unfold truthy. rewrite negb_false_iff, Qeq_bool_iff. reflexivity.
Qed.

Lemma js_or_truthy (a b : Q) : ~ a == 0 -> js_or a b = a.
Proof. intros H. unfold js_or. apply truthy_true in H. now rewrite H. Qed.

Lemma js_or_falsy (a b : Q) : a == 0 -> js_or a b = b.
Proof. intros H. unfold js_or. apply truthy_false in H. now rewrite H. Qed.

Lemma js_or_0_r (a : Q) : js_or a 0 == a.
Proof.
  unfold js_or. destruct (truthy a) eqn:E; [reflexivity|].
  apply truthy_false in E. now rewrite E.
Qed.

Lemma js_or_nonzero (a b : Q) : ~ b == 0 -> ~ js_or a b == 0.
Proof.
  intros Hb. unfold js_or. destruct (truthy a) eqn:E; [|exact Hb].
  now apply truthy_true.
Qed.

Lemma Qltb_lt (a b : Q) : Qltb a b = true <-> a < b.
Proof.
  unfold Qltb. rewrite negb_true_iff, <- not_true_iff_false, Qle_bool_iff.
  split; [apply Qnot_le_lt | apply Qlt_not_le].
Qed.

Lemma Qltb_ge (a b : Q) : Qltb a b = false <-> b <= a.
Proof. unfold Qltb. rewrite negb_false_iff, Qle_bool_iff. reflexivity. Qed.

Lemma Qgtb_gt (a b : Q) : Qgtb a b = true <-> b < a.
Proof. apply Qltb_lt. Qed.

Lemma Qgtb_le (a b : Q) : Qgtb a b = false <-> a <= b.
Proof. apply Qltb_ge. Qed.

(** ** Coordinate mapper *)

Lemma display_cw_nonzero (c : Container) : ~ display_cw c == 0.
Proof. unfold display_cw. apply js_or_nonzero, js_or_nonzero. discriminate. Qed.

Lemma point_eq_refl (p : point) : point_eq p p.
Proof. repeat split; reflexivity. Qed.

(** With equal source and display sizes the cover transform is the
    identity: scale 1, offsets 0. *)
Lemma cover_same_size (cw ch : Q) :
  ~ cw == 0 -> ~ ch == 0 ->
  Qmax (cw / cw) (ch / ch) == 1
  /\ (cw - cw * Qmax (cw / cw) (ch / ch)) / 2 == 0
  /\ (ch - ch * Qmax (cw / cw) (ch / ch)) / 2 == 0.
Proof.
  intros Hw Hh.
  assert (Hs : Qmax (cw / cw) (ch / ch) == 1).
  { assert (H1 : cw / cw == 1) by (field; exact Hw).
    assert (H2 : ch / ch == 1) by (field; exact Hh).
    apply Q.max_case_strong; intros; try assumption.
    now rewrite <- H. }
  split; [exact Hs|]. rewrite Hs. split; field.
Qed.

(** C3. With known source dimensions [vw, vh > 0] the mapper sends each
    landmark [(x, y, z)] to [(x*s + dx, y*s + dy, z)] where
    [s = max(cw/vw, ch/vh)], [dx = (cw - vw*s)/2], [dy = (ch - vh*s)/2];
    with unknown source dimensions (both read as 0) they are taken equal to
    the display dimensions, so that, the display height not being 0,
    [s = 1], both offsets are 0 and every point is left where it is. *)
Theorem toDisplayPoints_cover (c : Container) (v v0 : Video) (points : list point) :
  0 < videoWidth v -> 0 < videoHeight v ->
  videoWidth v0 == 0 -> videoHeight v0 == 0 -> ~ display_ch c == 0 ->
  let cw := display_cw c in
  let ch := display_ch c in
  Forall2 point_eq
    (toDisplayPoints (Some c) (Some v) points)
    (map (spec_cover cw ch (videoWidth v) (videoHeight v)) points)
  /\ source_vw c v0 = cw /\ source_vh c v0 = ch
  /\ Forall2 point_eq
       (toDisplayPoints (Some c) (Some v0) points)
       (map (spec_cover cw ch cw ch) points)
  /\ Qmax (cw / cw) (ch / ch) == 1
  /\ (cw - cw * Qmax (cw / cw) (ch / ch)) / 2 == 0
  /\ (ch - ch * Qmax (cw / cw) (ch / ch)) / 2 == 0
  /\ Forall2 point_eq (toDisplayPoints (Some c) (Some v0) points) points.
Proof.
  intros Hvw Hvh Hw0 Hh0 Hch cw ch.
  assert (Evw : source_vw c v = videoWidth v).
  { apply js_or_truthy. intros E. rewrite E in Hvw. discriminate. }
  assert (Evh : source_vh c v = videoHeight v).
  { apply js_or_truthy. intros E. rewrite E in Hvh. discriminate. }
  assert (Evw0 : source_vw c v0 = cw) by now apply js_or_falsy.
  assert (Evh0 : source_vh c v0 = ch) by now apply js_or_falsy.
  destruct (cover_same_size cw ch (display_cw_nonzero c) Hch) as (Hs & Hdx & Hdy).
  assert (Hmap : forall w h : Q,
    Forall2 point_eq
      (map (fun p => Point (px p * Qmax (cw / w) (ch / h) + (cw - w * Qmax (cw / w) (ch / h)) / 2)
                           (py p * Qmax (cw / w) (ch / h) + (ch - h * Qmax (cw / w) (ch / h)) / 2)
                           (js_or (pz p) 0)) points)
      (map (spec_cover cw ch w h) points)).
  { intros w h. induction points as [|p ps IH]; constructor; [|exact IH].
    repeat split; simpl; try reflexivity. apply js_or_0_r. }
  assert (Hid : Forall2 point_eq (map (spec_cover cw ch cw ch) points) points).
  { clear Hmap. induction points as [|p ps IH]; constructor; [|exact IH].
    unfold spec_cover. repeat split; simpl; try reflexivity.
    - rewrite Hdx, Hs. ring.
    - rewrite Hdy, Hs. ring. }
  assert (H0 : Forall2 point_eq (toDisplayPoints (Some c) (Some v0) points)
                 (map (spec_cover cw ch cw ch) points)).
  { destruct points as [|p ps]; [constructor|].
    unfold toDisplayPoints. rewrite Evw0, Evh0. apply Hmap. }
  split; [|repeat split; try assumption].
  - destruct points as [|p ps]; [constructor|].
    unfold toDisplayPoints. rewrite Evw, Evh. apply Hmap.
  - clear Hmap. revert H0 Hid.
    generalize (toDisplayPoints (Some c) (Some v0) points)
               (map (spec_cover cw ch cw ch) points).
    intros l1 l2 H12. revert points.
    induction H12 as [|a b l1 l2 Hab _ IH]; intros pts H2; inversion H2; subst;
      constructor.
    + destruct Hab as (? & ? & ?), H1 as (? & ? & ?).
      repeat split; etransitivity; eassumption.
    + now apply IH.
Qed.

Lemma toDisplayPoints_cover_witness :
  Forall2 point_eq
    (toDisplayPoints (Some {| rect_width := 800; rect_height := 600; clientWidth := 800 |})
                     (Some {| videoWidth := 640; videoHeight := 480 |})
                     [Point 320 240 (1 # 2)])
    (map (spec_cover 800 600 640 480) [Point 320 240 (1 # 2)]).
Proof.
  refine (proj1 (toDisplayPoints_cover
    {| rect_width := 800; rect_height := 600; clientWidth := 800 |}
    {| videoWidth := 640; videoHeight := 480 |}
    {| videoWidth := 0; videoHeight := 0 |}
    [Point 320 240 (1 # 2)] _ _ _ _ _)); try reflexivity.
  intros H; vm_compute in H; discriminate.
Defined.

(** ** Single-precision stores *)

Arguments round_binary : simpl never.
Arguments to_float32 : simpl never.
Arguments to_double : simpl never.

Lemma pow2_pos (k : Z) : 0 < 2 ^ k.
Proof. apply Qpower_0_lt. reflexivity. Qed.

Lemma pow2_inject (k : Z) : (0 <= k)%Z -> inject_Z (2 ^ k) == 2 ^ k.
Proof. intros H. now rewrite Zpower_Qpower. Qed.

Lemma pow2_succ (k : Z) : 2 ^ (k + 1) == 2 * 2 ^ k.
Proof. rewrite Qpower_plus by discriminate. change (2 ^ 1) with 2. ring. Qed.

Lemma pow2_ratio (a b : Z) :
  (0 <= a)%Z -> (0 <= b)%Z -> 2 ^ (a - b) == inject_Z (2 ^ a) / inject_Z (2 ^ b).
Proof.
  intros Ha Hb. rewrite Qpower_minus by discriminate.
  now rewrite !pow2_inject.
Qed.

Lemma Qabs_ratio (q : Q) :
  Qabs q == inject_Z (Z.abs (Qnum q)) / inject_Z (Zpos (Qden q)).
Proof. destruct q as [n d]. simpl. apply Qmake_Qdiv. Qed.

Lemma ratio_lt (n d A B : Z) :
  (0 < d)%Z -> (0 < B)%Z -> (n * B < A * d)%Z ->
  inject_Z n / inject_Z d < inject_Z A / inject_Z B.
Proof.
  intros Hd HB H.
  assert (Hd' : 0 < inject_Z d) by (now rewrite Zlt_Qlt in Hd).
  assert (HB' : 0 < inject_Z B) by (now rewrite Zlt_Qlt in HB).
  apply Qlt_shift_div_r; [exact Hd'|].
  setoid_replace (inject_Z A / inject_Z B * inject_Z d)
    with (inject_Z A * inject_Z d / inject_Z B)
    using relation Qeq by (field; intros E; rewrite E in HB'; discriminate HB').
  apply Qlt_shift_div_l; [exact HB'|].
  rewrite <- !inject_Z_mult, <- Zlt_Qlt. exact H.
Qed.

Lemma ratio_le (n d A B : Z) :
  (0 < d)%Z -> (0 < B)%Z -> (A * d <= n * B)%Z ->
  inject_Z A / inject_Z B <= inject_Z n / inject_Z d.
Proof.
  intros Hd HB H.
  assert (Hd' : 0 < inject_Z d) by (now rewrite Zlt_Qlt in Hd).
  assert (HB' : 0 < inject_Z B) by (now rewrite Zlt_Qlt in HB).
  apply Qle_shift_div_l; [exact Hd'|].
  setoid_replace (inject_Z A / inject_Z B * inject_Z d)
    with (inject_Z A * inject_Z d / inject_Z B)
    using relation Qeq by (field; intros E; rewrite E in HB'; discriminate HB').
  apply Qle_shift_div_r; [exact HB'|].
  rewrite <- !inject_Z_mult, <- Zle_Qle. exact H.
Qed.

(** [Qlog2] is the exponent of the leading bit. *)
Lemma Qlog2_spec (q : Q) :
  ~ q == 0 -> 2 ^ Qlog2 q <= Qabs q /\ Qabs q < 2 ^ (Qlog2 q + 1).
Proof.
  intros Hq. unfold Qlog2. cbv zeta.
  set (n := Z.abs (Qnum q)). set (d := Zpos (Qden q)).
  assert (Hn : (0 < n)%Z).
  { subst n. destruct q as [[|p|p] dq]; simpl; try lia.
    exfalso. apply Hq. reflexivity. }
  assert (Hd : (0 < d)%Z) by (subst d; lia).
  destruct (Z.log2_spec n Hn) as [Hn1 Hn2], (Z.log2_spec d Hd) as [Hd1 Hd2].
  pose proof (Z.log2_nonneg n) as Ha. pose proof (Z.log2_nonneg d) as Hb.
  set (a := Z.log2 n) in *. set (b := Z.log2 d) in *.
  assert (HA : (0 < 2 ^ a)%Z) by (apply Z.pow_pos_nonneg; lia).
  assert (HB : (0 < 2 ^ b)%Z) by (apply Z.pow_pos_nonneg; lia).
  rewrite Z.pow_succ_r in Hn2, Hd2 by assumption.
  destruct (Qle_bool (2 ^ (a - b)) (Qabs q)) eqn:E.
  - apply Qle_bool_iff in E. split; [exact E|].
    replace (a - b + 1)%Z with (Z.succ a - b)%Z by lia.
    rewrite pow2_ratio by lia. rewrite Qabs_ratio. fold n d.
    apply ratio_lt; [lia|lia|]. rewrite Z.pow_succ_r by assumption. nia.
  - assert (E' : Qabs q < 2 ^ (a - b)).
    { apply Qnot_le_lt. intros H. apply Qle_bool_iff in H. congruence. }
    split.
    + replace (a - b - 1)%Z with (a - Z.succ b)%Z by lia.
      rewrite pow2_ratio by lia. rewrite Qabs_ratio. fold n d.
      apply ratio_le; [lia|apply Z.pow_pos_nonneg; lia|].
      rewrite Z.pow_succ_r by assumption. nia.
    + now replace (a - b - 1 + 1)%Z with (a - b)%Z by lia.
Qed.

Lemma pow2_unique (e e' : Z) (x : Q) :
  2 ^ e <= x -> x < 2 ^ (e + 1) -> 2 ^ e' <= x -> x < 2 ^ (e' + 1) -> e = e'.
Proof.
  intros H1 H2 H3 H4.
  assert (L1 : (e < e' + 1)%Z).
  { apply (Qpower_lt_compat_l_inv 2); [|reflexivity]. now apply (Qle_lt_trans _ x). }
  assert (L2 : (e' < e + 1)%Z).
  { apply (Qpower_lt_compat_l_inv 2); [|reflexivity]. now apply (Qle_lt_trans _ x). }
  lia.
Qed.

Lemma Qlog2_comp (q q' : Q) : q == q' -> ~ q == 0 -> Qlog2 q = Qlog2 q'.
Proof.
  intros E Hq. assert (Hq' : ~ q' == 0) by (now rewrite <- E).
  destruct (Qlog2_spec q Hq) as [H1 H2], (Qlog2_spec q' Hq') as [H3 H4].
  assert (Ea : Qabs q' == Qabs q) by (now rewrite E).
  rewrite Ea in H3, H4. exact (pow2_unique _ _ _ H1 H2 H3 H4).
Qed.

Lemma round_half_even_comp (x y : Q) :
  x == y -> round_half_even x = round_half_even y.
Proof.
  intros E. unfold round_half_even. cbv zeta.
  rewrite (Qfloor_comp x y E).
  assert (Ec : x - inject_Z (Qfloor y) == y - inject_Z (Qfloor y)) by (now rewrite E).
  now rewrite (Qcompare_comp _ _ Ec (1 # 2) (1 # 2) (Qeq_refl _)).
Qed.

(** The rounded value depends on the number only, not on the way it is
    written as a fraction. *)
Lemma round_binary_comp (prec emin : Z) (q q' : Q) :
  q == q' -> round_binary prec emin q = round_binary prec emin q'.
Proof.
  intros E. unfold round_binary. cbv zeta.
  destruct (Qeq_bool q 0) eqn:E0.
  - apply Qeq_bool_iff in E0. rewrite E in E0. apply Qeq_bool_iff in E0.
    now rewrite E0.
  - apply Qeq_bool_neq in E0 as Hq.
    assert (E0' : Qeq_bool q' 0 = false).
    { destruct (Qeq_bool q' 0) eqn:E1; [|reflexivity].
      apply Qeq_bool_iff in E1. rewrite <- E in E1. contradiction. }
    rewrite E0', (Qlog2_comp q q' E Hq).
    set (k := Z.max emin (Qlog2 q' - (prec - 1))).
    rewrite (round_half_even_comp (q / 2 ^ k) (q' / 2 ^ k)) by (now rewrite E).
    reflexivity.
Qed.

Lemma to_float32_comp (q q' : Q) : q == q' -> to_float32 q = to_float32 q'.
Proof. apply round_binary_comp. Qed.

Lemma to_double_comp (q q' : Q) : q == q' -> to_double q = to_double q'.
Proof. apply round_binary_comp. Qed.

(** Rounding to the nearest integer errs by half a unit at most. *)
Lemma round_half_even_near (x : Q) :
  Qabs (inject_Z (round_half_even x) - x) <= 1 # 2.
Proof.
  unfold round_half_even. cbv zeta.
  pose proof (Qfloor_le x) as Hlo. pose proof (Qlt_floor x) as Hhi.
  rewrite inject_Z_plus in Hhi. change (inject_Z 1) with 1 in Hhi.
  apply Qabs_Qle_condition.
  destruct (Qcompare_spec (x - inject_Z (Qfloor x)) (1 # 2)) as [E|E|E].
  - destruct (Z.even (Qfloor x)); rewrite ?inject_Z_plus;
      change (inject_Z 1) with 1; split; lra.
  - split; lra.
  - rewrite inject_Z_plus. change (inject_Z 1) with 1. split; lra.
Qed.

Lemma round_half_even_sign (x : Q) :
  (0 <= x -> (0 <= round_half_even x)%Z) /\ (x <= 0 -> (round_half_even x <= 0)%Z).
Proof.
  unfold round_half_even. cbv zeta.
  pose proof (Qfloor_le x) as Hlo. pose proof (Qlt_floor x) as Hhi.
  rewrite inject_Z_plus in Hhi. change (inject_Z 1) with 1 in Hhi.
  split; intros Hx.
  - assert (H0 : (0 <= Qfloor x)%Z).
    { change 0%Z with (Qfloor 0). now apply Qfloor_resp_le. }
    destruct (Qcompare _ _); [destruct (Z.even _)| |]; lia.
  - assert (H0 : (Qfloor x <= 0)%Z).
    { change 0%Z with (Qfloor 0). now apply Qfloor_resp_le. }
    destruct (Z.eq_dec (Qfloor x) 0%Z) as [Ez|Ez].
    + rewrite Ez in *. change (inject_Z 0) with 0 in *.
      destruct (Qcompare_spec (x - 0) (1 # 2)) as [E|E|E]; [lra|lia|lra].
    + destruct (Qcompare _ _); [destruct (Z.even _)| |]; lia.
Qed.

(** Rounding never turns the sign of a number. *)
Lemma round_binary_sign (prec emin : Z) (q : Q) :
  (0 <= q -> 0 <= round_binary prec emin q)
  /\ (q <= 0 -> round_binary prec emin q <= 0).
Proof.
  unfold round_binary. cbv zeta. destruct (Qeq_bool q 0); [split; intros; apply Qle_refl|].
  set (k := Z.max emin (Qlog2 q - (prec - 1))).
  pose proof (pow2_pos k) as Hk.
  destruct (round_half_even_sign (q / 2 ^ k)) as [Hp Hn].
  split; intros Hq.
  - assert (H : 0 <= q / 2 ^ k) by (apply Qle_shift_div_l; [exact Hk|lra]).
    apply Hp in H. rewrite Zle_Qle in H. change (inject_Z 0) with 0 in H.
    apply Qmult_le_0_compat; [exact H|lra].
  - assert (H : q / 2 ^ k <= 0) by (apply Qle_shift_div_r; [exact Hk|lra]).
    apply Hn in H. rewrite Zle_Qle in H. change (inject_Z 0) with 0 in H.
    setoid_replace 0 with (0 * 2 ^ k) using relation Qeq by ring.
    apply Qmult_le_compat_r; [exact H|lra].
Qed.

Lemma to_float32_sign (q : Q) :
  (0 <= q -> 0 <= to_float32 q) /\ (q <= 0 -> to_float32 q <= 0).
Proof. apply round_binary_sign. Qed.

Lemma to_double_sign (q : Q) :
  (0 <= q -> 0 <= to_double q) /\ (q <= 0 -> to_double q <= 0).
Proof. apply round_binary_sign. Qed.

(** In the normal range a stored value is within [2^-24] of the number,
    relatively: half a unit in the last of its 24 bits. *)
Lemma to_float32_near (q : Q) :
  2 ^ (-126) <= Qabs q -> Qabs (to_float32 q - q) <= Qabs q * 2 ^ (-24).
Proof.
  intros Hq.
  assert (Hne : ~ q == 0).
  { intros E. rewrite E in Hq. revert Hq. apply Qlt_not_le. reflexivity. }
  unfold to_float32, round_binary. cbv zeta.
  destruct (Qeq_bool q 0) eqn:E0; [apply Qeq_bool_iff in E0; contradiction|].
  destruct (Qlog2_spec q Hne) as [Hlo Hhi].
  assert (HL : (-126 <= Qlog2 q)%Z).
  { assert (H : (-126 < Qlog2 q + 1)%Z); [|lia].
    apply (Qpower_lt_compat_l_inv 2); [|reflexivity].
    now apply (Qle_lt_trans _ (Qabs q)). }
  change (24 - 1)%Z with 23%Z. rewrite Z.max_r by lia.
  set (k := (Qlog2 q - 23)%Z).
  pose proof (pow2_pos k) as Hk.
  pose proof (round_half_even_near (q / 2 ^ k)) as Hr.
  setoid_replace (inject_Z (round_half_even (q / 2 ^ k)) * 2 ^ k - q)
    with ((inject_Z (round_half_even (q / 2 ^ k)) - q / 2 ^ k) * 2 ^ k)
    using relation Qeq by (field; lra).
  rewrite Qabs_Qmult, (Qabs_pos (2 ^ k)) by lra.
  apply (Qle_trans _ ((1 # 2) * 2 ^ k)).
  - apply Qmult_le_compat_r; [exact Hr|lra].
  - apply (Qle_trans _ (2 ^ Qlog2 q * 2 ^ (-24))).
    + assert (Epow : 2 ^ Qlog2 q * 2 ^ (-24) == (1 # 2) * 2 ^ k).
      { replace (Qlog2 q) with (k + 23)%Z by (subst k; lia).
        rewrite Qpower_plus by discriminate. rewrite <- Qmult_assoc.
        setoid_replace (2 ^ 23 * 2 ^ (-24)) with (1 # 2) using relation Qeq
          by reflexivity.
        ring. }
      rewrite Epow. apply Qle_refl.
    + apply Qmult_le_compat_r; [exact Hlo|]. apply Qlt_le_weak, pow2_pos.
Qed.

(** ** Geometry buffer *)

Lemma write_points_length (points : list point) (i : nat) (arr : list Q) :
  length (write_points points i arr) = length arr.
Proof.
  revert i arr. induction points as [|p ps IH]; intros i arr; simpl; [reflexivity|].
  rewrite IH, !length_insert. reflexivity.
Qed.

(** The write loop started at point [i] leaves the slots below [3 * i]
    alone. *)
Lemma write_points_below (points : list point) (i j : nat) (arr : list Q) :
  (j < i * 3)%nat -> write_points points i arr !! j = arr !! j.
Proof.
  revert i arr. induction points as [|p ps IH]; intros i arr Hj; simpl; [reflexivity|].
  rewrite IH by lia. rewrite !list_lookup_insert_ne by lia. reflexivity.
Qed.

(** Where the write loop puts point [k] of its list. *)
Lemma write_points_lookup (points : list point) (i k : nat) (arr : list Q) (p : point) :
  ((i + length points) * 3 <= length arr)%nat ->
  points !! k = Some p ->
  write_points points i arr !! ((i + k) * 3)%nat = Some (to_float32 (px p))
  /\ write_points points i arr !! ((i + k) * 3 + 1)%nat = Some (to_float32 (py p))
  /\ write_points points i arr !! ((i + k) * 3 + 2)%nat
     = Some (to_float32 (depth (pz p))).
Proof.
  revert i k arr. induction points as [|q ps IH]; intros i k arr Hlen Hk; [discriminate|].
  simpl in Hlen. destruct k as [|k]; simpl in Hk.
  - injection Hk as ->. simpl. rewrite Nat.add_0_r.
    rewrite !write_points_below by lia.
    rewrite list_lookup_insert_ne by lia. rewrite list_lookup_insert_ne by lia.
    rewrite list_lookup_insert_eq by lia.
    rewrite list_lookup_insert_ne by lia.
    rewrite list_lookup_insert_eq by (rewrite length_insert; lia).
    rewrite list_lookup_insert_eq by (rewrite !length_insert; lia).
    auto.
  - simpl. replace (i + S k)%nat with (S i + k)%nat by lia.
    apply IH; [|exact Hk]. rewrite !length_insert. lia.
Qed.

(** What one call of [updateGeometry] does when the scene exists: the
    buffer it leaves has three slots per point, holds the written
    vertices, is flagged for upload, and the bounding sphere is taken
    from it; one array is allocated when the buffer is missing or has
    another length, none otherwise. *)
Lemma updateGeometry_spec (points : list point) (t : Three) :
  sceneRef t = true ->
  exists id base,
    pointsRef (updateGeometry points t)
    = Some {| position := Some {| array_id := id;
                                  array := write_points points 0 base;
                                  needsUpdate := true |};
              boundingSphere := Some (write_points points 0 base) |}
    /\ length base = (length points * 3)%nat
    /\ sceneRef (updateGeometry points t) = true
    /\ linesRef (updateGeometry points t) = linesRef t
    /\ rendererRef (updateGeometry points t) = rendererRef t
    /\ cameraRef (updateGeometry points t) = cameraRef t
    /\ match points_buffer t with
       | Some a =>
           if (length (array a) =? length points * 3)%nat
           then allocated (updateGeometry points t) = allocated t
                /\ id = array_id a /\ base = array a
           else allocated (updateGeometry points t) = S (allocated t)
                /\ id = allocated t
       | None => allocated (updateGeometry points t) = S (allocated t)
                 /\ id = allocated t
       end.
Proof.
  intros Hs. unfold updateGeometry, points_buffer. rewrite Hs. simpl.
  destruct (pointsRef t) as [g|] eqn:Eg; simpl.
  - destruct (position g) as [a|] eqn:Ea; simpl.
    + destruct (length (array a) =? length points * 3)%nat eqn:El; simpl.
      * apply Nat.eqb_eq in El. exists (array_id a), (array a). auto 10.
      * exists (allocated t), (replicate (length points * 3) 0).
        rewrite length_replicate. auto 10.
    + exists (allocated t), (replicate (length points * 3) 0).
      rewrite length_replicate. auto 10.
  - rewrite length_replicate, Nat.eqb_refl. simpl.
    exists (allocated t), (replicate (length points * 3) 0).
    rewrite length_replicate. auto 10.
Qed.

(** Without a scene [updateGeometry] returns at once. *)
Lemma updateGeometry_no_scene (points : list point) (t : Three) :
  sceneRef t = false -> updateGeometry points t = t.
Proof. intros Hs. unfold updateGeometry. now rewrite Hs. Qed.

(** Along a sequence of updates that starts with a buffer for [n] points,
    one array is allocated per change of the point count. *)
Lemma run_updates_allocated (frames : list (list point)) (t : Three) (n : nat) :
  sceneRef t = true ->
  (exists a, points_buffer t = Some a /\ length (array a) = (n * 3)%nat) ->
  allocated (run_updates frames t)
  = (allocated t + count_changes n (length <$> frames))%nat.
Proof.
  revert t n. induction frames as [|pts frames IH]; intros t n Hs (a & Ea & La).
  - simpl. lia.
  - rewrite fmap_cons. cbn [count_changes]. unfold run_updates. cbn [foldl].
    destruct (updateGeometry_spec pts t Hs) as (id & base & E & L & Hs' & _ & _ & _ & A).
    rewrite Ea, La in A.
    fold (run_updates frames (updateGeometry pts t)).
    rewrite (IH _ (length pts) Hs').
    + destruct (Nat.eqb_spec (n * 3) (length pts * 3)) as [H|H];
        destruct (Nat.eqb_spec (length pts) n); try lia;
        destruct A as (-> & _); lia.
    + unfold points_buffer. rewrite E. simpl. eexists. split; [reflexivity|].
      simpl. now rewrite write_points_length.
Qed.

(** C4. With the scene set up, after every update the vertex array has
    three slots per point, and
    the update that follows one with [pts1] allocates a new array exactly
    when its point count differs (whatever happened to the other objects in
    between): none for 10 then 10 points, one, of length 36, for 10 then 12;
    and along any further sequence of updates one array is allocated per
    change of the point count. *)
Theorem updateGeometry_realloc (t t' : Three) (pts1 pts2 : list point)
    (frames : list (list point)) :
  sceneRef t = true ->
  sceneRef t' = true ->
  pointsRef t' = pointsRef (updateGeometry pts1 t) ->
  exists a1 a2,
    points_buffer (updateGeometry pts1 t) = Some a1
    /\ points_buffer (updateGeometry pts2 t') = Some a2
    /\ length (array a1) = (3 * length pts1)%nat
    /\ length (array a2) = (3 * length pts2)%nat
    /\ (length pts2 = length pts1 ->
        allocated (updateGeometry pts2 t') = allocated t'
        /\ array_id a2 = array_id a1)
    /\ (length pts2 <> length pts1 ->
        allocated (updateGeometry pts2 t') = S (allocated t')
        /\ array_id a2 = allocated t')
    /\ (length pts1 = 10%nat -> length pts2 = 10%nat ->
        allocated (updateGeometry pts2 t') = allocated t')
    /\ (length pts1 = 10%nat -> length pts2 = 12%nat ->
        allocated (updateGeometry pts2 t') = S (allocated t')
        /\ length (array a2) = 36%nat)
    /\ allocated (run_updates frames (updateGeometry pts1 t))
       = (allocated (updateGeometry pts1 t)
          + count_changes (length pts1) (length <$> frames))%nat.
Proof.
  intros Hs Hs' Hp.
  destruct (updateGeometry_spec pts1 t Hs) as (id1 & b1 & E1 & L1 & Hs1 & _).
  destruct (updateGeometry_spec pts2 t' Hs') as (id2 & b2 & E2 & L2 & _ & _ & _ & _ & A2).
  assert (Hrun : allocated (run_updates frames (updateGeometry pts1 t))
                 = (allocated (updateGeometry pts1 t)
                    + count_changes (length pts1) (length <$> frames))%nat).
  { apply run_updates_allocated; [exact Hs1|].
    unfold points_buffer. rewrite E1. simpl. eexists. split; [reflexivity|].
    simpl. now rewrite write_points_length. }
  unfold points_buffer in *. rewrite Hp, E1 in A2. rewrite E1, E2. simpl in *.
  rewrite write_points_length, L1 in A2.
  eexists _, _. split; [reflexivity|]. split; [reflexivity|]. simpl.
  rewrite !write_points_length.
  assert (Hsame : length pts2 = length pts1 ->
                  allocated (updateGeometry pts2 t') = allocated t' /\ id2 = id1).
  { intros E. rewrite E, Nat.eqb_refl in A2. tauto. }
  assert (Hdiff : length pts2 <> length pts1 ->
                  allocated (updateGeometry pts2 t') = S (allocated t')
                  /\ id2 = allocated t').
  { intros E. destruct (Nat.eqb_spec (length pts1 * 3) (length pts2 * 3)); [lia|].
    exact A2. }
  repeat split; try lia; try tauto.
Qed.

Lemma updateGeometry_realloc_witness :
  let t := {| rendererRef := true; sceneRef := true; cameraRef := true;
              pointsRef := None; linesRef := None; allocated := 0 |} in
  let pts1 := replicate 10 (Point 1 2 3) in
  let pts2 := replicate 12 (Point 4 5 6) in
  exists a2,
    points_buffer (updateGeometry pts2 (updateGeometry pts1 t)) = Some a2
    /\ length (array a2) = 36%nat
    /\ allocated (updateGeometry pts2 (updateGeometry pts1 t)) = 2%nat.
Proof.
  intros t pts1 pts2.
  destruct (updateGeometry_realloc t (updateGeometry pts1 t) pts1 pts2 [])
    as (a1 & a2 & _ & E2 & _ & _ & _ & _ & _ & HB & _); try reflexivity.
  exists a2. split; [exact E2|].
  destruct HB as (HA & HL); try reflexivity.
  split; [exact HL | exact HA].
Defined.

(** C5, as amended.  With the scene set up, after an update with display
    points [(x_i, y_i, z_i)] the vertex array holds at slots
    [3i, 3i+1, 3i+2] the single-precision values nearest to
    [(x_i, y_i, -z_i * DEPTH_SCALE)], the product a double, for values
    within the single-precision range, with [DEPTH_SCALE = 50 > 0]; the
    stored depth never has the sign of [z_i]; the buffer is flagged for
    upload and the bounding sphere is the one of the array as written. *)
Theorem updateGeometry_vertices (t : Three) (points : list point) :
  sceneRef t = true ->
  exists g a,
    pointsRef (updateGeometry points t) = Some g
    /\ position g = Some a
    /\ needsUpdate a = true
    /\ boundingSphere g = Some (array a)
    /\ DEPTH_SCALE == 50 /\ 0 < DEPTH_SCALE
    /\ forall i p, points !! i = Some p ->
         float32_finite (px p) -> float32_finite (py p) ->
         float32_finite (to_double (- pz p * DEPTH_SCALE)) ->
         array a !! (3 * i)%nat = Some (to_float32 (px p))
         /\ array a !! (3 * i + 1)%nat = Some (to_float32 (py p))
         /\ exists d, array a !! (3 * i + 2)%nat = Some d
                      /\ d = to_float32 (to_double (- pz p * DEPTH_SCALE))
                      /\ (0 <= pz p -> d <= 0) /\ (pz p <= 0 -> 0 <= d).
Proof.
  intros Hs.
  destruct (updateGeometry_spec points t Hs) as (id & base & E & L & _).
  eexists _, _. split; [exact E|]. simpl.
  do 5 (split; [reflexivity|]).
  intros i p Hp _ _ _.
  destruct (write_points_lookup points 0 i base p) as (Hx & Hy & Hz);
    [simpl; lia | assumption | simpl in Hx, Hy, Hz].
  split; [rewrite <- Hx; f_equal; lia|].
  split; [rewrite <- Hy; f_equal; lia|].
  exists (to_float32 (to_double (- pz p * DEPTH_SCALE))).
  assert (Ed : depth (pz p) = to_double (- pz p * DEPTH_SCALE)).
  { unfold depth. apply to_double_comp. now rewrite js_or_0_r. }
  split; [|split; [reflexivity|]].
  - rewrite <- Ed, <- Hz. f_equal. lia.
  - destruct (to_double_sign (- pz p * DEPTH_SCALE)) as [Hpos Hneg].
    destruct (to_float32_sign (to_double (- pz p * DEPTH_SCALE))) as [Hpos' Hneg'].
    unfold DEPTH_SCALE in *.
    split; intros Hz0; [apply Hneg', Hneg|apply Hpos', Hpos]; lra.
Qed.

Lemma updateGeometry_vertices_witness :
  exists a,
    points_buffer
      (updateGeometry [Point 10 20 (1 # 2); Point 30 40 2]
         {| rendererRef := true; sceneRef := true; cameraRef := true;
            pointsRef := None; linesRef := None; allocated := 0 |}) = Some a
    /\ exists d, array a !! 5%nat = Some d /\ d == - (100).
Proof.
  destruct (updateGeometry_vertices
    {| rendererRef := true; sceneRef := true; cameraRef := true;
       pointsRef := None; linesRef := None; allocated := 0 |}
    [Point 10 20 (1 # 2); Point 30 40 2] eq_refl)
    as (g & a & Eg & Ea & _ & _ & _ & _ & Hv).
  exists a. split.
  - unfold points_buffer. rewrite Eg. exact Ea.
  - destruct (Hv 1%nat (Point 30 40 2) eq_refl) as (_ & _ & d & Hd & Hq & _);
      [reflexivity..|].
    exists d. split; [exact Hd|]. rewrite Hq. reflexivity.
Defined.

(** C5, as stated, fails: a coordinate that is not a single-precision
    number is not stored as it is.  Of the display point
    [(133.33333333333331, 16777217, 0.5)] the buffer keeps
    [(133.3333282470703, 16777216, -25)], which is not the triple
    [(x, y, -z * DEPTH_SCALE)]. *)
Lemma updateGeometry_vertices_counterexample :
  exists a x y z,
    points_buffer
      (updateGeometry [Point (2345624805922133 # 17592186044416) 16777217 (1 # 2)]
         {| rendererRef := true; sceneRef := true; cameraRef := true;
            pointsRef := None; linesRef := None; allocated := 0 |}) = Some a
    /\ array a = [x; y; z]
    /\ x == 8738133 # 65536 /\ y == 16777216 /\ z == - (25)
    /\ ~ Forall2 Qeq (array a)
          (spec_vertex (Point (2345624805922133 # 17592186044416) 16777217 (1 # 2))).
Proof.
  eexists _, _, _, _. split; [vm_compute; reflexivity|].
  split; [reflexivity|].
  split; [reflexivity|]. split; [reflexivity|]. split; [reflexivity|].
  intros H. apply Forall2_cons_1 in H as [H _]. revert H. vm_compute. discriminate.
Qed.

(** ** Edge keys *)

Lemma string_of_uint_no_comma (d : Decimal.uint) :
  no_comma (NilEmpty.string_of_uint d) = true.
Proof. induction d; simpl; auto. Qed.

Lemma Number_toString_no_comma (n : nat) : no_comma (Number_toString n) = true.
Proof.
  unfold Number_toString, NilZero.string_of_uint.
  destruct (Nat.to_uint n); try reflexivity; apply string_of_uint_no_comma.
Qed.

Lemma split_comma_no_comma (s : string) : no_comma s = true -> split_comma s = [s].
Proof.
  induction s as [|c s IH]; simpl; [reflexivity|].
  intros H. apply andb_prop in H as [Hc Hs].
  apply negb_true_iff in Hc. rewrite Hc, (IH Hs). reflexivity.
Qed.

Lemma split_comma_app (s1 s2 : string) :
  no_comma s1 = true ->
  split_comma (s1 ++ "," ++ s2)%string = s1 :: split_comma s2.
Proof.
  induction s1 as [|c s IH]; simpl; [reflexivity|].
  intros H. apply andb_prop in H as [Hc Hs].
  apply negb_true_iff in Hc. rewrite Hc. simpl in IH. rewrite (IH Hs). reflexivity.
Qed.

Lemma split_comma_edge_key (a b : nat) :
  split_comma (edge_key a b) = [Number_toString a; Number_toString b].
Proof.
  unfold edge_key.
  rewrite split_comma_app by apply Number_toString_no_comma.
  rewrite split_comma_no_comma by apply Number_toString_no_comma.
  reflexivity.
Qed.

(** Reading back the decimal digits of a number gives the number. *)
Lemma parseInt_Number_toString (n : nat) :
  parseInt (Some (Number_toString n)) = Some n.
Proof.
  unfold parseInt, Number_toString. simpl.
  destruct (NilZero.usu_gen (Nat.to_uint n)) as [E|E]; rewrite E; simpl; f_equal.
  - apply Unsigned.of_to.
  - destruct (Nat.to_uint n) eqn:En;
      try (rewrite NilZero.usu in E by discriminate; injection E as E; discriminate E).
    + rewrite <- (Unsigned.of_to n), En. reflexivity.
    + rewrite <- (Unsigned.of_to n), En.
      rewrite NilZero.usu in E by discriminate. injection E as E.
      rewrite E. reflexivity.
Qed.

(** The key determines the edge. *)
Lemma edge_key_inj (a b a' b' : nat) :
  edge_key a b = edge_key a' b' -> a = a' /\ b = b'.
Proof.
  intros E.
  pose proof (split_comma_edge_key a b) as H.
  rewrite E, split_comma_edge_key in H.
  injection H as Ha Hb.
  pose proof (parseInt_Number_toString a) as Pa.
  pose proof (parseInt_Number_toString b) as Pb.
  rewrite <- Ha, parseInt_Number_toString in Pa.
  rewrite <- Hb, parseInt_Number_toString in Pb.
  split; congruence.
Qed.

(** The line-buffer loop finds both end points of a key whose indices are
    within the point list. *)
Lemma line_vertices_edge_key (pts : list point) (a b : nat) (pa pb : point) :
  pts !! a = Some pa -> pts !! b = Some pb ->
  line_vertices pts (edge_key a b)
  = Some [to_float32 (px pa); to_float32 (py pa); to_float32 (depth (pz pa));
          to_float32 (px pb); to_float32 (py pb); to_float32 (depth (pz pb))].
Proof.
  intros Ha Hb. unfold line_vertices.
  rewrite split_comma_edge_key.
  cbn -[parseInt Number_toString depth to_float32].
  rewrite !parseInt_Number_toString.
  cbn -[depth to_float32]. rewrite Ha. cbn -[depth to_float32]. rewrite Hb.
  reflexivity.
Qed.

(** ** The kept list of the inner loop *)

Lemma sort_insert_perm (c : cand) (l : list cand) : sort_insert c l ≡ₚ c :: l.
Proof.
  induction l as [|d t IH]; simpl; [reflexivity|].
  destruct (Qle_bool c.1 d.1); [reflexivity|].
  rewrite IH. apply perm_swap.
Qed.

Lemma js_sort_perm (l : list cand) : js_sort l ≡ₚ l.
Proof.
  induction l as [|c l IH]; simpl; [reflexivity|].
  rewrite sort_insert_perm. now apply perm_skip.
Qed.

Lemma sort_insert_sorted (c : cand) (l : list cand) :
  StronglySorted cand_le l -> StronglySorted cand_le (sort_insert c l).
Proof.
  induction 1 as [|d t Ht IH Hd]; simpl.
  - repeat constructor.
  - destruct (Qle_bool c.1 d.1) eqn:E.
    + apply Qle_bool_iff in E. constructor; [now constructor|].
      constructor; [exact E|].
      eapply Forall_impl; [exact Hd|]. intros x Hx. unfold cand_le in *.
      eapply Qle_trans; eassumption.
    + constructor; [exact IH|].
      rewrite sort_insert_perm. constructor; [|exact Hd].
      unfold cand_le. apply Qlt_le_weak, Qnot_le_lt.
      intros H. apply Qle_bool_iff in H. congruence.
Qed.

Lemma js_sort_sorted (l : list cand) : StronglySorted cand_le (js_sort l).
Proof.
  induction l as [|c l IH]; simpl; [constructor|].
  now apply sort_insert_sorted.
Qed.

Lemma knn_inv_nil : knn_inv [] [].
Proof.
  exists []. split; [reflexivity|].
  split; [intros b r Hb; inversion Hb|].
  split; [congruence|].
  split; [unfold CONNECT_K; simpl; lia|constructor].
Qed.

(** One pass of the inner loop keeps the invariant. *)
Lemma scan_step_inv (i : nat) (pi : point) (all best : list cand) (jp : nat * point) :
  knn_inv all best ->
  knn_inv (all ++ cands i pi [jp]) (scan_step i pi best jp).
Proof.
  intros (rest & Hperm & Hord & Hfull & Hlen & Hsort).
  destruct jp as [j pj]. unfold scan_step, cands.
  destruct (Nat.eqb_spec i j) as [->|Hij].
  { rewrite filter_cons_False by (simpl; tauto). rewrite filter_nil. simpl.
    rewrite app_nil_r. exists rest. tauto. }
  rewrite filter_cons_True by (simpl; congruence). rewrite filter_nil. simpl.
  set (c := (dist2 pi pj, j)).
  destruct (Nat.ltb_spec (length best) CONNECT_K) as [Hlt|Hge].
  - (* room left: the candidate is kept *)
    assert (rest = []) as ->.
    { destruct rest; [reflexivity|]. rewrite Hfull in Hlt by discriminate. lia. }
    rewrite app_nil_r in Hperm.
    exists []. rewrite app_nil_r. repeat split.
    + rewrite js_sort_perm. now rewrite Hperm.
    + intros b r _ Hr. inversion Hr.
    + congruence.
    + rewrite js_sort_perm, length_app. simpl. lia.
    + apply js_sort_sorted.
  - (* full: [best] has exactly two entries *)
    assert (length best = 2%nat) as Hl2 by (revert Hlen Hge; unfold CONNECT_K; lia).
    destruct best as [|b1 [|b2 [|? ?]]]; try discriminate Hl2.
    apply StronglySorted_inv in Hsort as [_ Hb12].
    apply Forall_cons_1 in Hb12 as [Hb12 _]. unfold cand_le in Hb12.
    change ([b1; b2] !! 1%nat) with (Some b2). cbv iota beta.
    change (<[1%nat := c]> [b1; b2]) with [b1; c].
    destruct (Qltb (dist2 pi pj) b2.1) eqn:Hd.
    + apply Qltb_lt in Hd.
      exists (b2 :: rest). repeat split.
      * rewrite js_sort_perm, <- Hperm. simpl. apply perm_skip.
        rewrite <- Permutation_cons_append. apply perm_swap.
      * intros b r Hb Hr. rewrite js_sort_perm in Hb.
        assert (Hb2 : b2.1 <= r.1).
        { apply elem_of_cons in Hr as [->|Hr]; [apply Qle_refl|].
          apply Hord; [apply list_elem_of_further, list_elem_of_here|exact Hr]. }
        apply elem_of_cons in Hb as [->|Hb].
        -- eapply Qle_trans; eassumption.
        -- apply list_elem_of_singleton in Hb as ->. simpl.
           eapply Qle_trans; [apply Qlt_le_weak, Hd|exact Hb2].
      * intros _. now rewrite js_sort_perm.
      * rewrite js_sort_perm. unfold CONNECT_K. simpl. lia.
      * apply js_sort_sorted.
    + apply Qltb_ge in Hd.
      exists (rest ++ [c]). repeat split.
      * rewrite app_assoc. now rewrite Hperm.
      * intros b r Hb Hr. apply elem_of_app in Hr as [Hr|Hr]; [now apply Hord|].
        apply list_elem_of_singleton in Hr as ->. simpl.
        apply elem_of_cons in Hb as [->|Hb].
        -- eapply Qle_trans; eassumption.
        -- apply list_elem_of_singleton in Hb as ->. exact Hd.
      * exact Hlen.
      * repeat constructor. exact Hb12.
Qed.

Lemma cands_app (i : nat) (pi : point) (L1 L2 : list (nat * point)) :
  cands i pi (L1 ++ L2) = cands i pi L1 ++ cands i pi L2.
Proof. unfold cands. now rewrite filter_app, fmap_app. Qed.

Lemma scan_fold_inv (i : nat) (pi : point) (L : list (nat * point))
    (all best : list cand) :
  knn_inv all best ->
  knn_inv (all ++ cands i pi L) (foldl (scan_step i pi) best L).
Proof.
  revert all best. induction L as [|jp L IH]; intros all best H; simpl.
  - unfold cands. rewrite filter_nil. simpl. now rewrite app_nil_r.
  - change (jp :: L) with ([jp] ++ L). rewrite cands_app, app_assoc.
    apply IH, scan_step_inv, H.
Qed.

(** The kept list of point [i] after the whole scan. *)
Lemma knn_best_inv (pts : list point) (i : nat) (pi : point) :
  knn_inv (cands i pi (indexed pts)) (knn_best pts i pi).
Proof. apply (scan_fold_inv i pi (indexed pts) [] []), knn_inv_nil. Qed.

(** ** Indexed lists and candidates *)

Lemma indexed_elem {A} (l : list A) (j : nat) (x : A) :
  (j, x) ∈ indexed l <-> l !! j = Some x.
Proof.
  unfold indexed. rewrite elem_of_lookup_imap. split.
  - intros (i & y & E & H). now inversion E; subst.
  - intros H. now exists j, x.
Qed.

Lemma indexed_fst {A} (l : list A) : (indexed l).*1 = seq 0 (length l).
Proof.
  unfold indexed. rewrite fmap_imap.
  rewrite <- (list_fmap_id (seq 0 (length l))). apply (imap_seq_0 l id).
Qed.

Lemma indexed_NoDup {A} (l : list A) : NoDup (indexed l).*1.
Proof. rewrite indexed_fst. apply NoDup_seq. Qed.

Lemma length_indexed {A} (l : list A) : length (indexed l) = length l.
Proof. apply length_imap. Qed.

Lemma cands_elem (i : nat) (pi : point) (L : list (nat * point)) (d : Q) (j : nat) :
  (d, j) ∈ cands i pi L <-> j <> i /\ exists pj, (j, pj) ∈ L /\ d = dist2 pi pj.
Proof.
  unfold cands. rewrite list_elem_of_fmap. split.
  - intros ([j' pj] & E & H). apply list_elem_of_filter in H as [Hne H].
    simpl in *. inversion E; subst. eauto.
  - intros (Hne & pj & H & ->). exists (j, pj). split; [reflexivity|].
    apply list_elem_of_filter. auto.
Qed.

Lemma cands_snd (i : nat) (pi : point) (L : list (nat * point)) :
  (cands i pi L).*2 = filter (fun j => j <> i) L.*1.
Proof.
  unfold cands. induction L as [|[j pj] L IH]; [reflexivity|].
  rewrite fmap_cons. simpl.
  destruct (decide (j = i)) as [->|Hne].
  - rewrite !filter_cons_False by (simpl; tauto). exact IH.
  - rewrite !filter_cons_True by (simpl; tauto). rewrite !fmap_cons. simpl.
    now rewrite IH.
Qed.

Lemma cands_NoDup (i : nat) (pi : point) (L : list (nat * point)) :
  NoDup L.*1 -> NoDup (cands i pi L).*2.
Proof. intros H. rewrite cands_snd. now apply NoDup_filter. Qed.

Lemma length_filter_ne_seq (i a n : nat) :
  length (filter (fun j => j <> i) (seq a n))
  = if bool_decide (a <= i < a + n)%nat then (n - 1)%nat else n.
Proof.
  revert a. induction n as [|n IH]; intros a; simpl.
  - now case_bool_decide.
  - destruct (decide (a = i)) as [->|Hne].
    + rewrite filter_cons_False by tauto. rewrite IH.
      repeat case_bool_decide; lia.
    + rewrite filter_cons_True by tauto. simpl. rewrite IH.
      repeat case_bool_decide; try lia.
Qed.

Lemma length_cands_indexed (pts : list point) (i : nat) (pi : point) :
  (i < length pts)%nat ->
  length (cands i pi (indexed pts)) = (length pts - 1)%nat.
Proof.
  intros Hi.
  transitivity (length (cands i pi (indexed pts)).*2);
    [symmetry; apply length_fmap|].
  rewrite cands_snd, indexed_fst.
  rewrite length_filter_ne_seq. case_bool_decide; lia.
Qed.

(** ** What the inner loop keeps *)

Lemma knn_inv_length (all best : list cand) :
  knn_inv all best -> length best = Nat.min CONNECT_K (length all).
Proof.
  intros (rest & Hperm & _ & Hfull & Hlen & _).
  apply Permutation_length in Hperm. rewrite length_app in Hperm.
  destruct rest as [|r rest].
  - simpl in Hperm. lia.
  - rewrite Hfull in * by discriminate. unfold CONNECT_K in *. simpl in Hperm. lia.
Qed.

Lemma knn_inv_subset (all best : list cand) (c : cand) :
  knn_inv all best -> c ∈ best -> c ∈ all.
Proof.
  intros (rest & Hperm & _) Hc. rewrite <- Hperm. apply elem_of_app. now left.
Qed.

Lemma knn_inv_NoDup (all best : list cand) :
  knn_inv all best -> NoDup all.*2 -> NoDup best.*2.
Proof.
  intros (rest & Hperm & _) Hnd. rewrite <- Hperm, fmap_app in Hnd.
  now apply NoDup_app in Hnd as (H & _).
Qed.

Lemma knn_inv_nearest (all best : list cand) (c : cand) :
  knn_inv all best -> c ∈ all -> c ∉ best -> forall b, b ∈ best -> b.1 <= c.1.
Proof.
  intros (rest & Hperm & Hord & _) Hc Hn b Hb.
  rewrite <- Hperm in Hc. apply elem_of_app in Hc as [Hc|Hc]; [contradiction|].
  now apply Hord.
Qed.

(** The kept list of point [i] once its scan is over: [CONNECT_K]
    candidates (or all the other points when there are fewer), all
    different, none of them [i], each with its squared distance, and no
    point left out is closer than a kept one. *)
Lemma knn_best_spec (pts : list point) (i : nat) (pi : point) :
  pts !! i = Some pi ->
  length (knn_best pts i pi) = Nat.min CONNECT_K (length pts - 1)
  /\ NoDup (knn_best pts i pi).*2
  /\ (forall d j, (d, j) ∈ knn_best pts i pi ->
        j <> i /\ exists pj, pts !! j = Some pj /\ d = dist2 pi pj)
  /\ (forall j pj, pts !! j = Some pj -> j <> i -> j ∉ (knn_best pts i pi).*2 ->
        forall b, b ∈ knn_best pts i pi -> b.1 <= dist2 pi pj)
  /\ StronglySorted cand_le (knn_best pts i pi).
Proof.
  intros Hi. pose proof (knn_best_inv pts i pi) as Hinv.
  split; [|split; [|split; [|split]]].
  - rewrite (knn_inv_length _ _ Hinv), length_cands_indexed; [reflexivity|].
    now apply lookup_lt_Some in Hi.
  - apply (knn_inv_NoDup _ _ Hinv), cands_NoDup, indexed_NoDup.
  - intros d j H. apply (knn_inv_subset _ _ _ Hinv), cands_elem in H.
    destruct H as (Hne & pj & H & ->). apply indexed_elem in H. eauto.
  - intros j pj Hj Hne Hnot b Hb.
    apply (knn_inv_nearest _ _ (dist2 pi pj, j) Hinv); [| |exact Hb].
    + apply cands_elem. split; [exact Hne|]. exists pj.
      split; [now apply indexed_elem|reflexivity].
    + intros H. apply Hnot. apply list_elem_of_fmap. now exists (dist2 pi pj, j).
  - now destruct Hinv as (rest & _ & _ & _ & _ & H).
Qed.

(** ** The edge set *)

Lemma Set_add_NoDup (key : string) (edges : list string) :
  NoDup edges -> NoDup (Set_add key edges).
Proof.
  intros H. unfold Set_add. case_bool_decide; [exact H|].
  apply NoDup_app. repeat split; [exact H| |apply NoDup_singleton].
  intros x Hx Hk. apply list_elem_of_singleton in Hk as ->. contradiction.
Qed.

Lemma Set_add_elem (key x : string) (edges : list string) :
  x ∈ Set_add key edges <-> x ∈ edges \/ x = key.
Proof.
  unfold Set_add. case_bool_decide.
  - split; [auto|]. intros [?| ->]; assumption.
  - rewrite elem_of_app, list_elem_of_singleton. reflexivity.
Qed.

Lemma fold_Set_add_NoDup {A} (f : A -> string) (l : list A) (acc : list string) :
  NoDup acc -> NoDup (foldl (fun e p => Set_add (f p) e) acc l).
Proof.
  revert acc. induction l as [|p l IH]; intros acc H; simpl; [exact H|].
  apply IH, Set_add_NoDup, H.
Qed.

Lemma fold_Set_add_elem {A} (f : A -> string) (l : list A) (acc : list string)
    (x : string) :
  x ∈ foldl (fun e p => Set_add (f p) e) acc l <-> x ∈ acc \/ x ∈ f <$> l.
Proof.
  revert acc. induction l as [|p l IH]; intros acc; simpl.
  - rewrite elem_of_nil. tauto.
  - rewrite IH, Set_add_elem, elem_of_cons. tauto.
Qed.

(** The two nested loops add the keys of the relations in order. *)
Lemma knn_edges_directed (pts : list point) :
  knn_edges pts = foldl (fun e p => Set_add (canon_key p) e) [] (directed pts).
Proof.
  unfold knn_edges, directed. generalize (@nil string) as acc.
  induction (indexed pts) as [|[i pi] L IH]; intros acc; [reflexivity|].
  rewrite bind_cons, foldl_app. simpl. rewrite IH. f_equal.
  unfold emit_edges. generalize (knn_best pts i pi) as best. clear.
  intros best. revert acc. induction best as [|c best IH]; intros acc; [reflexivity|].
  simpl. apply IH.
Qed.

Lemma knn_edges_NoDup (pts : list point) : NoDup (knn_edges pts).
Proof. rewrite knn_edges_directed. apply fold_Set_add_NoDup, NoDup_nil_2. Qed.

Lemma knn_edges_elem (pts : list point) (e : string) :
  e ∈ knn_edges pts <-> exists p, p ∈ directed pts /\ e = canon_key p.
Proof.
  rewrite knn_edges_directed, fold_Set_add_elem, elem_of_nil, list_elem_of_fmap.
  split; [intros [[]|(p & ? & ?)]; eauto | intros (p & ? & ?); eauto].
Qed.

Lemma directed_elem (pts : list point) (i j : nat) :
  (i, j) ∈ directed pts
  <-> exists pi, pts !! i = Some pi /\ j ∈ (knn_best pts i pi).*2.
Proof.
  unfold directed. rewrite list_elem_of_bind. split.
  - intros ([i' pi] & H & Hi). apply indexed_elem in Hi.
    apply list_elem_of_fmap in H as (c & E & Hc). simpl in E.
    inversion E; subst. exists pi. split; [exact Hi|].
    apply list_elem_of_fmap. eauto.
  - intros (pi & Hi & H). exists (i, pi). split; [|now apply indexed_elem].
    apply list_elem_of_fmap in H as (c & -> & Hc).
    apply list_elem_of_fmap. eauto.
Qed.

(** A relation joins two different points of the list. *)
Lemma directed_range (pts : list point) (i j : nat) :
  (i, j) ∈ directed pts ->
  i <> j /\ (i < length pts)%nat /\ (j < length pts)%nat.
Proof.
  intros H. apply directed_elem in H as (pi & Hi & H).
  apply list_elem_of_fmap in H as ([d j'] & -> & Hc). simpl.
  destruct (knn_best_spec pts i pi Hi) as (_ & _ & Hel & _).
  destruct (Hel d j' Hc) as (Hne & pj & Hj & _).
  apply lookup_lt_Some in Hi, Hj. auto.
Qed.

Lemma directed_NoDup (pts : list point) : NoDup (directed pts).
Proof.
  unfold directed. apply NoDup_bind.
  - intros [i1 p1] [i2 p2] y H1 H2 Hy1 Hy2. simpl in *.
    apply list_elem_of_fmap in Hy1 as (c1 & -> & _).
    apply list_elem_of_fmap in Hy2 as (c2 & E & _). inversion E; subst.
    apply indexed_elem in H1, H2. congruence.
  - intros [i pi] H. apply indexed_elem in H. simpl.
    destruct (knn_best_spec pts i pi H) as (_ & Hnd & _).
    replace ((fun c : cand => (i, c.2)) <$> knn_best pts i pi)
      with (pair i <$> (knn_best pts i pi).*2)
      by (now rewrite <- list_fmap_compose).
    apply NoDup_fmap_2; [|exact Hnd]. intros x y E. now inversion E.
  - eapply NoDup_fmap_1, indexed_NoDup.
Qed.

Lemma length_bind_const {A B} (f : A -> list B) (l : list A) (k : nat) :
  (forall x, x ∈ l -> length (f x) = k) -> length (l ≫= f) = (length l * k)%nat.
Proof.
  induction l as [|x l IH]; intros H; [reflexivity|].
  rewrite bind_cons, length_app, IH, H; simpl; [lia|left|].
  intros y Hy. apply H. now right.
Qed.

Lemma length_directed (pts : list point) :
  length (directed pts)
  = (length pts * Nat.min CONNECT_K (length pts - 1))%nat.
Proof.
  unfold directed. rewrite <- (length_indexed pts). apply length_bind_const.
  intros [i pi] H. apply indexed_elem in H. rewrite length_fmap. simpl.
  rewrite length_indexed. now apply knn_best_spec.
Qed.

(** The key of a relation with its direction tells the relation. *)
Lemma canon_key_direction_inj (p q : nat * nat) :
  canon_key p = canon_key q ->
  bool_decide (p.1 < p.2)%nat = bool_decide (q.1 < q.2)%nat ->
  p = q.
Proof.
  destruct p as [i j], q as [i' j']. unfold canon_key. simpl.
  intros E D. apply edge_key_inj in E.
  destruct (Nat.ltb_spec i j), (Nat.ltb_spec i' j');
    repeat case_bool_decide; try discriminate; try lia;
    destruct E; congruence.
Qed.

Lemma canon_key_ordered (i j : nat) :
  i <> j ->
  exists a b, (a < b)%nat /\ canon_key (i, j) = edge_key a b
              /\ (a = i /\ b = j \/ a = j /\ b = i).
Proof.
  intros Hne. unfold canon_key. simpl.
  destruct (Nat.ltb_spec i j).
  - exists i, j. auto.
  - exists j, i. split; [lia|auto].
Qed.

(** Every relation shares its key with at most one other, so the edge set
    has at least half as many members as there are relations. *)
Lemma length_directed_le (pts : list point) :
  (length (directed pts) <= 2 * length (knn_edges pts))%nat.
Proof.
  set (g := fun p : nat * nat => (canon_key p, bool_decide (p.1 < p.2)%nat)).
  assert (Hnd : NoDup (g <$> directed pts)).
  { apply NoDup_fmap_2_strong; [|apply directed_NoDup].
    intros p q _ _ E. unfold g in E. inversion E.
    now apply canon_key_direction_inj. }
  assert (Hsub : forall x, x ∈ g <$> directed pts ->
                           x ∈ list_prod (knn_edges pts) [true; false]).
  { intros [e d] H. apply list_elem_of_fmap in H as (p & E & Hp).
    unfold g in E. inversion E; subst.
    apply list_elem_of_In, in_prod.
    - apply list_elem_of_In, knn_edges_elem. eauto.
    - destruct (bool_decide _); simpl; auto. }
  pose proof (submseteq_length _ _ (NoDup_submseteq _ _ Hnd Hsub)) as H.
  rewrite length_fmap, length_prod in H. simpl in H. lia.
Qed.


(** Every member of the edge set is the key of two different points of
    the list, the smaller first. *)
Lemma knn_edges_ordered (pts : list point) (e : string) :
  e ∈ knn_edges pts ->
  exists a b, (a < b < length pts)%nat /\ e = edge_key a b
              /\ ((a, b) ∈ directed pts \/ (b, a) ∈ directed pts).
Proof.
  intros H. apply knn_edges_elem in H as ([i j] & Hp & ->).
  destruct (directed_range pts i j Hp) as (Hne & Hi & Hj).
  destruct (canon_key_ordered i j Hne) as (a & b & Hab & E & [[-> ->]|[-> ->]]).
  - exists i, j. repeat split; auto; lia.
  - exists j, i. repeat split; auto; lia.
Qed.




(** ** Few points: the complete graph *)

Lemma knn_inv_all (all best : list cand) :
  knn_inv all best -> (length all <= CONNECT_K)%nat -> best ≡ₚ all.
Proof.
  intros (rest & Hperm & _ & Hfull & _) Hle.
  destruct rest as [|r rest]; [now rewrite app_nil_r in Hperm|].
  apply Permutation_length in Hperm. rewrite length_app, Hfull in Hperm by discriminate.
  cbn [length] in Hperm. lia.
Qed.

(** With at most [CONNECT_K + 1] points every other point is kept. *)
Lemma knn_best_all (pts : list point) (i j : nat) (pi : point) :
  (length pts <= CONNECT_K + 1)%nat ->
  pts !! i = Some pi -> (j < length pts)%nat -> j <> i ->
  j ∈ (knn_best pts i pi).*2.
Proof.
  intros Hn Hi Hj Hne.
  assert (Hperm : knn_best pts i pi ≡ₚ cands i pi (indexed pts)).
  { apply knn_inv_all; [apply knn_best_inv|].
    rewrite length_cands_indexed; [lia|]. now apply lookup_lt_Some in Hi. }
  destruct (lookup_lt_is_Some_2 pts j Hj) as [pj Hpj].
  apply list_elem_of_fmap. exists (dist2 pi pj, j). split; [reflexivity|].
  rewrite Hperm. apply cands_elem. split; [exact Hne|].
  exists pj. split; [now apply indexed_elem|reflexivity].
Qed.

(** C10. With [n] points, [2 <= n <= CONNECT_K + 1], every point keeps
    all [n - 1] other points, so the edge set is the complete graph on the
    [n] indices: the keys of all pairs [a < b < n], each once,
    [n * (n - 1) / 2] of them.  A single point gives the empty set. *)
Theorem knn_small_complete (pts : list point) (p : point) :
  (2 <= length pts <= CONNECT_K + 1)%nat ->
  (forall i pi j, pts !! i = Some pi -> (j < length pts)%nat -> j <> i ->
     j ∈ (knn_best pts i pi).*2)
  /\ (forall i pi, pts !! i = Some pi ->
        length (knn_best pts i pi) = (length pts - 1)%nat)
  /\ (forall a b, (a < b < length pts)%nat -> edge_key a b ∈ knn_edges pts)
  /\ (forall e, e ∈ knn_edges pts ->
        exists a b, (a < b < length pts)%nat /\ e = edge_key a b)
  /\ NoDup (knn_edges pts)
  /\ length (knn_edges pts) = (length pts * (length pts - 1) / 2)%nat
  /\ knn_edges [p] = [].
Proof.
  intros [Hn2 Hn3].
  assert (Hall : forall i pi j, pts !! i = Some pi -> (j < length pts)%nat -> j <> i ->
                   j ∈ (knn_best pts i pi).*2).
  { intros. now apply knn_best_all. }
  assert (Hlen : forall i pi, pts !! i = Some pi ->
                   length (knn_best pts i pi) = (length pts - 1)%nat).
  { intros i pi Hi. destruct (knn_best_spec pts i pi Hi) as (-> & _). lia. }
  assert (Hin : forall a b, (a < b < length pts)%nat -> edge_key a b ∈ knn_edges pts).
  { intros a b [Hab Hb].
    destruct (lookup_lt_is_Some_2 pts a) as [pa Hpa]; [lia|].
    apply knn_edges_elem. exists (a, b). split.
    - apply directed_elem. exists pa. split; [exact Hpa|].
      apply Hall; [exact Hpa|lia|lia].
    - unfold canon_key. simpl. apply Nat.ltb_lt in Hab. now rewrite Hab. }
  assert (Hout : forall e, e ∈ knn_edges pts ->
                   exists a b, (a < b < length pts)%nat /\ e = edge_key a b).
  { intros e He. destruct (knn_edges_ordered pts e He) as (a & b & ? & ? & _). eauto. }
  split; [exact Hall|]. split; [exact Hlen|]. split; [exact Hin|].
  split; [exact Hout|]. split; [apply knn_edges_NoDup|]. split; [|reflexivity].
  (* at least half the relations, at most the pairs there are *)
  pose proof (length_directed_le pts) as Hlo.
  rewrite length_directed in Hlo.
  unfold CONNECT_K in *.
  assert (Hcase : length pts = 2%nat \/ length pts = 3%nat) by lia.
  destruct Hcase as [E|E]; rewrite E in *; simpl in Hlo |- *.
  - assert (Hhi : (length (knn_edges pts) <= length [edge_key 0 1])%nat).
    { apply submseteq_length, NoDup_submseteq; [apply knn_edges_NoDup|].
      intros e He. destruct (Hout e He) as (a & b & Hab & ->).
      assert (a = 0 /\ b = 1)%nat as [-> ->] by lia. apply list_elem_of_here. }
    simpl in Hhi. lia.
  - assert (Hhi : (length (knn_edges pts)
                   <= length [edge_key 0 1; edge_key 0 2; edge_key 1 2])%nat).
    { apply submseteq_length, NoDup_submseteq; [apply knn_edges_NoDup|].
      intros e He. destruct (Hout e He) as (a & b & Hab & ->).
      assert ((a = 0 /\ b = 1) \/ (a = 0 /\ b = 2) \/ (a = 1 /\ b = 2))%nat
        as [[-> ->]|[[-> ->]|[-> ->]]] by lia.
      - apply list_elem_of_here.
      - apply list_elem_of_further, list_elem_of_here.
      - do 2 apply list_elem_of_further. apply list_elem_of_here. }
    simpl in Hhi. lia.
Qed.

Lemma knn_small_complete_witness :
  length (knn_edges [Point 0 0 0; Point 5 0 1; Point 1 1 2]) = 3%nat.
Proof.
  destruct (knn_small_complete [Point 0 0 0; Point 5 0 1; Point 1 1 2] (Point 0 0 0))
    as (_ & _ & _ & _ & _ & H & _).
  - unfold CONNECT_K. simpl. lia.
  - exact H.
Defined.

(** ** Line buffer *)

(** The fill loop finds the end points of every edge of the frame. *)
Lemma line_positions_knn (pts : list point) :
  is_Some (line_positions pts (knn_edges pts)).
Proof.
  unfold line_positions.
  destruct (mapM_is_Some_2 (line_vertices pts) (knn_edges pts)) as [vs E].
  - apply Forall_forall. intros e He. simpl.
    destruct (knn_edges_ordered pts e He) as (a & b & Hab & -> & _).
    destruct (lookup_lt_is_Some_2 pts a) as [pa Ha]; [lia|].
    destruct (lookup_lt_is_Some_2 pts b) as [pb Hb]; [lia|].
    rewrite (line_vertices_edge_key pts a b pa pb Ha Hb). eauto.
  - rewrite E. simpl. eauto.
Qed.

(** A rebuild puts the frame's edges on a newly allocated array and
    touches nothing else. *)
Lemma recomputeLines_spec (pts : list point) (t : Three) :
  sceneRef t = true ->
  exists t' vs,
    recomputeLines pts t = Some t'
    /\ line_positions pts (knn_edges pts) = Some vs
    /\ vertex_array (linesRef t') = Some vs
    /\ lines_id t' = Some (allocated t)
    /\ allocated t' = S (allocated t)
    /\ pointsRef t' = pointsRef t
    /\ sceneRef t' = true
    /\ rendererRef t' = rendererRef t
    /\ cameraRef t' = cameraRef t.
Proof.
  intros Hs. destruct (line_positions_knn pts) as [vs Hvs].
  unfold recomputeLines. rewrite Hvs, Hs.
  destruct (linesRef t) as [g|]; simpl; eexists _, vs;
    (split; [reflexivity|]); simpl; rewrite ?Hs; auto 10.
Qed.

(** ** Render loop *)

Lemma update_scene_frame_points (f : Frame) (st : LoopState) :
  rendererRef (three st) = true ->
  update_scene f st
  = match frame_points f with
    | Some pts =>
        let t := updateGeometry pts (three st) in
        if (lineFrameCounter st mod LINES_UPDATE_EVERY_N_FRAMES =? 0)%nat
        then t' ← recomputeLines pts t; Some (t', S (lineFrameCounter st))
        else Some (t, S (lineFrameCounter st))
    | None => Some (three st, lineFrameCounter st)
    end.
Proof.
  intros Hr. unfold update_scene, frame_points. rewrite Hr.
  destruct (faces f) as [|face ?]; [reflexivity|]. cbv zeta.
  destruct (toDisplayPoints _ _ _); reflexivity.
Qed.

Lemma updateGeometry_lines (pts : list point) (t : Three) :
  linesRef (updateGeometry pts t) = linesRef t
  /\ sceneRef (updateGeometry pts t) = sceneRef t
  /\ rendererRef (updateGeometry pts t) = rendererRef t
  /\ cameraRef (updateGeometry pts t) = cameraRef t
  /\ (allocated t <= allocated (updateGeometry pts t))%nat.
Proof.
  destruct (sceneRef t) eqn:Hs.
  - destruct (updateGeometry_spec pts t Hs) as (id & base & _ & _ & H1 & H2 & H3 & H4 & Ha).
    repeat split; try assumption.
    destruct (points_buffer t) as [a|].
    + destruct (_ =? _)%nat; lia.
    + lia.
  - rewrite updateGeometry_no_scene by exact Hs. rewrite Hs. auto.
Qed.

(** What one invocation does to the scene: without points nothing; with
    points the line counter advances, and the lines are rebuilt on a fresh
    array when the counter was a multiple of [N], left alone otherwise. *)
Lemma update_scene_spec (f : Frame) (st : LoopState) :
  loop_ready st ->
  exists t c,
    update_scene f st = Some (t, c)
    /\ sceneRef t = true /\ ids_allocated t
    /\ rendererRef t = rendererRef (three st)
    /\ cameraRef t = cameraRef (three st)
    /\ match frame_points f with
       | Some pts =>
           c = S (lineFrameCounter st)
           /\ pointsRef t = pointsRef (updateGeometry pts (three st))
           /\ if (lineFrameCounter st mod LINES_UPDATE_EVERY_N_FRAMES =? 0)%nat
              then lines_id t <> lines_id (three st)
                   /\ exists vs, line_positions pts (knn_edges pts) = Some vs
                                 /\ vertex_array (linesRef t) = Some vs
              else linesRef t = linesRef (three st)
       | None => c = lineFrameCounter st /\ t = three st
       end.
Proof.
  intros (Hrd & Hs & _ & Hid). rewrite update_scene_frame_points by exact Hrd.
  destruct (frame_points f) as [pts|]; [|eexists _, _; eauto 10].
  destruct (updateGeometry_lines pts (three st)) as (Hl & Hs' & Hr & Hc & Ha).
  rewrite Hs in Hs'. cbv zeta.
  destruct (_ =? _)%nat.
  - destruct (recomputeLines_spec pts _ Hs')
      as (t' & vs & -> & Hvs & Hva & Hli & Hal & Hp & Hs2 & Hr2 & Hc2).
    simpl. exists t', (S (lineFrameCounter st)).
    split; [reflexivity|]. split; [exact Hs2|]. split.
    { intros id E. rewrite Hli in E. injection E as <-. lia. }
    split; [congruence|]. split; [congruence|]. split; [reflexivity|].
    split; [exact Hp|]. split; [|eauto].
    rewrite Hli. intros E. symmetry in E. apply Hid in E. lia.
  - eexists _, _. split; [reflexivity|]. split; [exact Hs'|]. split.
    { intros id E. unfold lines_id in *. rewrite Hl in E. apply Hid in E. lia. }
    auto 10.
Qed.

Lemma fps_reports_app (es es' : list effect) :
  fps_reports (es ++ es') = fps_reports es ++ fps_reports es'.
Proof. apply omap_app. Qed.

Lemma drawn_lines_app (es es' : list effect) :
  drawn_lines (es ++ es') = drawn_lines es ++ drawn_lines es'.
Proof. apply omap_app. Qed.

(** One invocation of the loop, with the scene set up, returns; this is
    what it leaves. *)
Lemma loop_spec (f : Frame) (st : LoopState) :
  loop_ready st ->
  exists st' t c,
    loop f st = Some st'
    /\ update_scene f st = Some (t, c)
    /\ three st' = t /\ lineFrameCounter st' = c
    /\ (frames st', lastTime st', lastFpsUpdate st') = (fps_tracking (now f) st).1
    /\ fps_reports (effects st')
       = fps_reports (effects st)
         ++ match (fps_tracking (now f) st).2 with Some v => [v] | None => [] end
    /\ drawn_lines (effects st')
       = drawn_lines (effects st)
         ++ (if rendererRef t && sceneRef t && cameraRef t
             then [vertex_array (linesRef t)] else []).
Proof.
  intros Hst.
  destruct (update_scene_spec f st Hst) as (t & c & E & _).
  unfold loop. rewrite E. simpl.
  destruct (fps_tracking (now f) st) as [[[fr lt] lu] rep] eqn:Ef.
  eexists _, t, c. split; [reflexivity|]. simpl.
  rewrite !fps_reports_app, !drawn_lines_app. simpl.
  repeat split.
  - destruct (_ && _); simpl; destruct rep; reflexivity.
  - destruct (_ && _); simpl; destruct rep; simpl; now rewrite ?app_nil_r.
Qed.

Lemma run_loop_app (fs1 fs2 : list Frame) (st : LoopState) :
  run_loop (fs1 ++ fs2) st = run_loop fs1 st ≫= run_loop fs2.
Proof.
  revert st. induction fs1 as [|f fs1 IH]; intros st; simpl.
  - reflexivity.
  - destruct (loop f st) as [st'|]; simpl; [apply IH|reflexivity].
Qed.

Lemma frames_with_points_app (fs1 fs2 : list Frame) :
  frames_with_points (fs1 ++ fs2)
  = (frames_with_points fs1 + frames_with_points fs2)%nat.
Proof. induction fs1 as [|f fs1 IH]; simpl; [reflexivity|]. rewrite IH. lia. Qed.

Lemma initial_loop_ready (t0 t1 : Q) : loop_ready (initial_loop_state t0 t1).
Proof. repeat split. intros id E. discriminate E. Qed.

(** One invocation from a state that is set up. *)
Lemma loop_ready_step (f : Frame) (st : LoopState) :
  loop_ready st ->
  exists st',
    loop f st = Some st'
    /\ loop_ready st'
    /\ lineFrameCounter st'
       = ((if has_points f then 1 else 0) + lineFrameCounter st)%nat
    /\ recomputed st st'
       = has_points f
         && (lineFrameCounter st mod LINES_UPDATE_EVERY_N_FRAMES =? 0)%nat
    /\ (recomputed st st' = true ->
        exists pts vs, frame_points f = Some pts
                       /\ line_positions pts (knn_edges pts) = Some vs
                       /\ vertex_array (linesRef (three st')) = Some vs)
    /\ (recomputed st st' = false -> linesRef (three st') = linesRef (three st))
    /\ drawn_lines (effects st')
       = drawn_lines (effects st) ++ [vertex_array (linesRef (three st'))].
Proof.
  intros Hst.
  destruct (loop_spec f st Hst) as (st' & t & c & El & Eu & Et & Ec & _ & _ & Hd).
  destruct (update_scene_spec f st Hst) as (t2 & c2 & Eu2 & Hs2 & Hid2 & Hr2 & Hc2 & H).
  destruct Hst as (Hr & Hs & Hc & Hid).
  rewrite Eu in Eu2. injection Eu2 as <- <-.
  exists st'. split; [exact El|]. rewrite Et, Ec.
  rewrite Hr2, Hs2, Hc2, Hr, Hc in Hd. simpl in Hd.
  split; [unfold loop_ready; rewrite Et; repeat split; first [assumption|congruence]|].
  unfold recomputed, has_points. rewrite Et.
  destruct (frame_points f) as [pts|].
  - destruct H as (-> & _ & H). split; [reflexivity|].
    destruct (_ =? _)%nat; simpl.
    + destruct H as (Hne & vs & Hvs & Hva).
      rewrite bool_decide_eq_false_2 by congruence. simpl.
      repeat split; eauto; intros; discriminate.
    + unfold lines_id. rewrite bool_decide_eq_true_2 by (now rewrite H). simpl.
      repeat split; auto; intros; discriminate.
  - destruct H as (-> & ->). rewrite bool_decide_eq_true_2 by reflexivity. simpl.
    repeat split; auto; intros; discriminate.
Qed.

(** A run from a state that is set up never throws, and the line counter
    counts the frames with points. *)
Lemma run_loop_ready (fs : list Frame) (st : LoopState) :
  loop_ready st ->
  exists st',
    run_loop fs st = Some st'
    /\ loop_ready st'
    /\ lineFrameCounter st' = (lineFrameCounter st + frames_with_points fs)%nat.
Proof.
  revert st. induction fs as [|f fs IH]; intros st Hst; simpl.
  - exists st. auto.
  - destruct (loop_ready_step f st Hst) as (st1 & -> & H1 & Hc & _).
    destruct (IH st1 H1) as (st' & E & H' & Hc'). simpl.
    exists st'. split; [exact E|]. split; [exact H'|]. lia.
Qed.

(** C6, as amended. In a run from the initial state the line counter
    counts the invocations that come with points (a face with a non-empty
    point list); invocation [k] rebuilds the lines exactly when it comes
    with points and the number of earlier such invocations is a multiple
    of [N = 2], whatever the point counts are; a rebuild puts the
    frame's edges in the line buffer, and every other invocation leaves the
    line geometry as it was; either way the draw call sees the line buffer
    as it then is. *)
Theorem lines_throttle (t0 t1 : Q) (fs : list Frame) (k : nat) (f : Frame) :
  fs !! k = Some f ->
  exists a b,
    run_loop (take k fs) (initial_loop_state t0 t1) = Some a
    /\ loop f a = Some b
    /\ run_loop (take (S k) fs) (initial_loop_state t0 t1) = Some b
    /\ LINES_UPDATE_EVERY_N_FRAMES = 2%nat
    /\ lineFrameCounter a = frames_with_points (take k fs)
    /\ recomputed a b
       = has_points f
         && (frames_with_points (take k fs) mod LINES_UPDATE_EVERY_N_FRAMES =? 0)%nat
    /\ (recomputed a b = true ->
        exists pts vs, frame_points f = Some pts
                       /\ line_positions pts (knn_edges pts) = Some vs
                       /\ vertex_array (linesRef (three b)) = Some vs)
    /\ (recomputed a b = false -> linesRef (three b) = linesRef (three a))
    /\ drawn_lines (effects b)
       = drawn_lines (effects a) ++ [vertex_array (linesRef (three b))].
Proof.
  intros Hk.
  destruct (run_loop_ready (take k fs) _ (initial_loop_ready t0 t1))
    as (a & Ea & Ha & Hc). simpl in Hc.
  destruct (loop_ready_step f a Ha) as (b & Eb & _ & _ & Hre & Hyes & Hno & Hd).
  exists a, b. split; [exact Ea|]. split; [exact Eb|]. split.
  { rewrite (take_S_r fs k f Hk), run_loop_app, Ea. simpl. now rewrite Eb. }
  split; [reflexivity|]. split; [exact Hc|]. rewrite <- Hc. auto.
Qed.

Lemma lines_throttle_witness :
  recomputed_at run_with_gap 3 = true.
Proof.
  destruct (lines_throttle 0 0 run_with_gap 3 (frame_face 66) eq_refl)
    as (a & b & Ea & _ & Eb & _ & _ & Hre & _).
  unfold recomputed_at. rewrite Ea, Eb, Hre. reflexivity.
Defined.

(** C6, as stated, fails: in a run whose second invocation has no face the
    lines are rebuilt on invocations 0 and 3, which are not a multiple of
    [N = 2] invocations apart. *)
Lemma lines_throttle_counterexample :
  recomputed_at run_with_gap 0 = true
  /\ recomputed_at run_with_gap 3 = true
  /\ ~ spec_every_Nth_invocation run_with_gap.
Proof.
  assert (H0 : recomputed_at run_with_gap 0 = true) by (vm_compute; reflexivity).
  assert (H3 : recomputed_at run_with_gap 3 = true) by (vm_compute; reflexivity).
  split; [exact H0|]. split; [exact H3|].
  intros H. specialize (H 0%nat 3%nat). simpl in H.
  assert (E : (3 mod LINES_UPDATE_EVERY_N_FRAMES = 0)%nat) by (apply H; auto; lia).
  discriminate E.
Qed.

(** ** FPS accounting *)

(** C9, as amended. When an invocation finds more than 500ms elapsed
    since the last report ([lastFpsUpdate]), it reports
    [round(frames * 1000 / elapsed)], where [frames] counts the invocations
    since the last report, this one included, and [elapsed] is the time
    since [lastTime], and it resets the frame counter and both time stamps
    (which are equal from then on); when at most 500ms have elapsed it
    reports nothing and only counts the frame. *)
Theorem fps_accounting (f : Frame) (st : LoopState) :
  loop_ready st ->
  lastTime st <= lastFpsUpdate st ->
  exists st',
    loop f st = Some st'
    /\ lastTime st' <= lastFpsUpdate st'
    /\ (500 < now f - lastFpsUpdate st ->
        fps_reports (effects st')
        = fps_reports (effects st)
          ++ [Math_round (inject_Z (Z.of_nat (S (frames st))) * 1000
                          / (now f - lastTime st))]
        /\ 0 < now f - lastTime st
        /\ frames st' = 0%nat
        /\ lastTime st' = now f /\ lastFpsUpdate st' = now f)
    /\ (now f - lastFpsUpdate st <= 500 ->
        fps_reports (effects st') = fps_reports (effects st)
        /\ frames st' = S (frames st)
        /\ lastTime st' = lastTime st
        /\ lastFpsUpdate st' = lastFpsUpdate st).
Proof.
  intros Hst Hle.
  destruct (loop_spec f st Hst) as (st' & t & c & El & _ & _ & _ & Ef & Er & _).
  exists st'. split; [exact El|].
  unfold fps_tracking in Ef, Er.
  destruct (Qgtb (now f - lastFpsUpdate st) 500) eqn:E; simpl in Ef, Er;
    injection Ef as -> -> ->.
  - apply Qgtb_gt in E. split; [apply Qle_refl|]. split.
    + intros _. split; [exact Er|]. split; [|auto].
      apply Qlt_le_trans with (now f - lastFpsUpdate st).
      * apply Qlt_trans with 500; [reflexivity|exact E].
      * apply Qplus_le_r, Qopp_le_compat, Hle.
    + intros H. exfalso. apply (Qlt_irrefl 500).
      eapply Qlt_le_trans; eassumption.
  - apply Qgtb_le in E. split; [exact Hle|]. split.
    + intros H. exfalso. apply (Qlt_irrefl 500).
      eapply Qlt_le_trans; eassumption.
    + intros _. rewrite app_nil_r in Er. auto.
Qed.

Lemma fps_accounting_witness :
  exists st',
    loop (frame_empty 501) (initial_loop_state 0 0) = Some st'
    /\ fps_reports (effects st') = [2%Z]
    /\ frames st' = 0%nat.
Proof.
  destruct (fps_accounting (frame_empty 501) (initial_loop_state 0 0))
    as (st' & El & _ & Hrep & _).
  - apply initial_loop_ready.
  - apply Qle_refl.
  - exists st'. split; [exact El|].
    destruct Hrep as (Hr & _ & Hf & _); [reflexivity|].
    split; [exact Hr|exact Hf].
Defined.

(** C9, as stated, fails: an invocation that comes exactly 500ms after the
    last report reports nothing and resets nothing. *)
Lemma fps_accounting_counterexample :
  exists st1 st2,
    loop (frame_empty 501) (initial_loop_state 0 0) = Some st1
    /\ fps_reports (effects st1) = [2%Z]
    /\ loop (frame_empty 1001) st1 = Some st2
    /\ now (frame_empty 1001) - lastFpsUpdate st1 == 500
    /\ spec_fps_report_due (now (frame_empty 1001)) st1 = true
    /\ fps_reports (effects st2) = fps_reports (effects st1)
    /\ frames st2 = 1%nat
    /\ lastFpsUpdate st2 = lastFpsUpdate st1.
Proof.
  eexists _, _. split; [vm_compute; reflexivity|].
  repeat split.
Qed.

(** ** Gaze listener *)

Lemma run_gaze_snoc (samples : list GazeSample) (s : GazeSample) (st : GazeState) :
  run_gaze (samples ++ [s]) st = gazeListener false s (run_gaze samples st).
Proof. unfold run_gaze. now rewrite foldl_app. Qed.

Lemma last_on_screen_time_snoc (t0 : Q) (samples : list GazeSample) (s : GazeSample) :
  last_on_screen_time t0 (samples ++ [s])
  = if on_screen s then clock_inside s else last_on_screen_time t0 samples.
Proof. unfold last_on_screen_time. now rewrite foldl_app. Qed.

(** One call: the timer moves only for an on-screen sample, and the flag
    is recomputed from the timer. *)
Lemma gazeListener_step (s : GazeSample) (st : GazeState) :
  lastOnScreenAt (gazeListener false s st)
  = (if on_screen s then clock_inside s else lastOnScreenAt st)
  /\ offScreen (gazeListener false s st)
     = Qgtb (clock_now s - lastOnScreenAt (gazeListener false s st)) OFFSCREEN_DELAY_MS.
Proof.
  unfold gazeListener, on_screen.
  destruct (valid s) as [[x y]|]; simpl; split; reflexivity.
Qed.

(** The timer is the time of the last on-screen sample. *)
Lemma run_gaze_lastOnScreenAt (samples : list GazeSample) (st : GazeState) :
  lastOnScreenAt (run_gaze samples st)
  = last_on_screen_time (lastOnScreenAt st) samples.
Proof.
  induction samples as [|s samples IH] using rev_ind; [reflexivity|].
  rewrite run_gaze_snoc, last_on_screen_time_snoc.
  destruct (gazeListener_step s (run_gaze samples st)) as (-> & _).
  now rewrite IH.
Qed.

(** C2. After each sample of a stream, [offScreen] holds exactly when the
    time since the last on-screen sample (valid, inside the viewport
    widened by 40px) exceeds 250ms; an invalid sample leaves
    [lastOnScreenAt] as it was; and an outside sample followed by an inside
    one, arriving within the delay of the last on-screen time, leave
    [offScreen] false after each of them (the two clock readings of the
    inside call being no further apart than the delay).  Before the first
    on-screen sample the timer's initial value stands for its time. *)
Theorem gaze_offScreen_debounced
    (st : GazeState) (samples : list GazeSample) (s s_inv s_out s_in : GazeSample) :
  valid s_inv = None ->
  valid s_out <> None -> on_screen s_out = false -> on_screen s_in = true ->
  clock_now s_out - lastOnScreenAt st <= OFFSCREEN_DELAY_MS ->
  clock_now s_in - clock_inside s_in <= OFFSCREEN_DELAY_MS ->
  (offScreen (run_gaze (samples ++ [s]) st) = true
   <-> OFFSCREEN_DELAY_MS
       < clock_now s - last_on_screen_time (lastOnScreenAt st) (samples ++ [s]))
  /\ OFFSCREEN_DELAY_MS == 250 /\ margin == 40
  /\ lastOnScreenAt (gazeListener false s_inv st) = lastOnScreenAt st
  /\ offScreen (gazeListener false s_out st) = false
  /\ offScreen (gazeListener false s_in (gazeListener false s_out st)) = false.
Proof.
  intros Hinv Hval Hout Hin Hwin Hcall.
  split; [|split; [reflexivity|split; [reflexivity|split; [|split]]]].
  - rewrite <- run_gaze_lastOnScreenAt.
    rewrite run_gaze_snoc at 1.
    destruct (gazeListener_step s (run_gaze samples st)) as (_ & ->).
    rewrite <- run_gaze_snoc. apply Qgtb_gt.
  - destruct (gazeListener_step s_inv st) as (-> & _).
    unfold on_screen. now rewrite Hinv.
  - destruct (gazeListener_step s_out st) as (E & ->). rewrite E, Hout.
    now apply Qgtb_le.
  - destruct (gazeListener_step s_in (gazeListener false s_out st)) as (E & ->).
    rewrite E, Hin. now apply Qgtb_le.
Qed.

(** Scenario C of the specification: inside at 0ms, outside at 100ms and
    200ms keep [offScreen] false; a further outside sample at 251ms makes it
    true. *)
Lemma gaze_offScreen_debounced_witness :
  offScreen (gazeListener false (sample_at 5000 200)
               {| lastOnScreenAt := 0; offScreen := false; gazeXY := None |}) = false
  /\ (offScreen
        (run_gaze ([sample_at 640 0; sample_at 5000 100; sample_at 5000 200]
                   ++ [sample_at 5000 251])
           {| lastOnScreenAt := 0; offScreen := false; gazeXY := None |}) = true
      <-> OFFSCREEN_DELAY_MS < 251 - 0).
Proof.
  pose proof (gaze_offScreen_debounced
    {| lastOnScreenAt := 0; offScreen := false; gazeXY := None |}
    [sample_at 640 0; sample_at 5000 100; sample_at 5000 200]
    (sample_at 5000 251)
    {| data := None; innerWidth := 1280; doc_clientWidth := 1280;
       innerHeight := 720; doc_clientHeight := 720;
       clock_inside := 50; clock_now := 50 |}
    (sample_at 5000 200) (sample_at 640 220)) as H.
  destruct H as (H1 & _ & _ & _ & H2 & _);
    [reflexivity | discriminate | reflexivity | reflexivity
    | vm_compute; discriminate | vm_compute; discriminate | ].
  split; [exact H2 | exact H1].
Defined.

(** C7, as amended. An invalid sample leaves [lastOnScreenAt] as it was,
    clears the last known gaze position, and recomputes [offScreen] from
    the unchanged timer and the current time. *)
Theorem gazeListener_invalid (st : GazeState) (s : GazeSample) :
  valid s = None ->
  gazeListener false s st
  = {| lastOnScreenAt := lastOnScreenAt st;
       offScreen := Qgtb (clock_now s - lastOnScreenAt st) OFFSCREEN_DELAY_MS;
       gazeXY := None |}.
Proof. intros H. unfold gazeListener. now rewrite H. Qed.

Lemma gazeListener_invalid_witness :
  gazeListener false invalid_sample_300 gaze_state0
  = {| lastOnScreenAt := 0; offScreen := true; gazeXY := None |}.
Proof. exact (gazeListener_invalid gaze_state0 invalid_sample_300 eq_refl). Defined.

(** C7, as stated, fails: an invalid sample arriving 300ms after the last
    on-screen gaze turns [offScreen] from false to true, so the state is
    not left as it was apart from the cleared position. *)
Lemma gazeListener_invalid_counterexample :
  valid invalid_sample_300 = None
  /\ offScreen gaze_state0 = false
  /\ offScreen (gazeListener false invalid_sample_300 gaze_state0) = true
  /\ gazeListener false invalid_sample_300 gaze_state0
     <> spec_invalid_sample gaze_state0.
Proof. repeat split. discriminate. Qed.

(** ** Calibration *)

Lemma all_done_Forall (counts : list nat) :
  all_done counts = true <-> Forall (fun c => (CALIBRATION_PER_POINT <= c)%nat) counts.
Proof.
  unfold all_done. rewrite forallb_forall, Forall_forall.
  split; intros H c Hc.
  - apply Nat.leb_le, H, list_elem_of_In, Hc.
  - apply Nat.leb_le, H, list_elem_of_In, Hc.
Qed.

Lemma onClick_counts (idx : nat) (st : CalibState) :
  calibrationCounts (onClick idx st)
  = <[idx := Nat.min CALIBRATION_PER_POINT
               (default 0%nat (calibrationCounts st !! idx) + 1)]>
      (calibrationCounts st).
Proof. reflexivity. Qed.

Lemma onClick_calibrating (idx : nat) (st : CalibState) :
  calibrating (onClick idx st)
  = if all_done (calibrationCounts (onClick idx st)) then false else calibrating st.
Proof.
  rewrite onClick_counts. unfold onClick.
  now destruct (all_done _).
Qed.

(** A click never takes a point below the quota it had reached. *)
Lemma all_done_onClick (idx : nat) (st : CalibState) :
  all_done (calibrationCounts st) = true ->
  all_done (calibrationCounts (onClick idx st)) = true.
Proof.
  rewrite onClick_counts, !all_done_Forall. intros H.
  destruct (calibrationCounts st !! idx) as [c|] eqn:E.
  - apply Forall_insert; [exact H|].
    pose proof (Forall_lookup_1 _ _ _ _ H E) as Hc. cbv beta in Hc.
    change (default 0%nat (Some c)) with c.
    unfold CALIBRATION_PER_POINT in *. lia.
  - rewrite list_insert_ge; [exact H|]. now apply lookup_ge_None.
Qed.

Lemma run_clicks_snoc (clicks : list nat) (idx : nat) (st : CalibState) :
  run_clicks (clicks ++ [idx]) st = onClick idx (run_clicks clicks st).
Proof. unfold run_clicks. now rewrite foldl_app. Qed.

(** What holds throughout a calibration session: nine counts, none above
    the quota, and the overlay is up exactly while some point is short of
    its quota. *)
Lemma calibration_invariant (st0 : CalibState) (clicks : list nat) :
  let st := run_clicks clicks (startCalibration st0) in
  length (calibrationCounts st) = 9%nat
  /\ Forall (fun c => (c <= CALIBRATION_PER_POINT)%nat) (calibrationCounts st)
  /\ calibrating st = negb (all_done (calibrationCounts st)).
Proof.
  induction clicks as [|idx clicks IH] using rev_ind.
  - simpl. repeat split. unfold CALIBRATION_PER_POINT.
    repeat constructor.
  - simpl in *. rewrite run_clicks_snoc.
    set (st := run_clicks clicks (startCalibration st0)) in *.
    destruct IH as (Hlen & Hle & Hcal).
    split; [|split].
    + now rewrite onClick_counts, length_insert.
    + rewrite onClick_counts.
      destruct (calibrationCounts st !! idx) as [c|] eqn:E.
      * apply Forall_insert; [exact Hle|]. apply Nat.le_min_l.
      * rewrite list_insert_ge; [exact Hle|]. now apply lookup_ge_None.
    + rewrite onClick_calibrating.
      destruct (all_done (calibrationCounts (onClick idx st))) eqn:E; [reflexivity|].
      rewrite Hcal.
      destruct (all_done (calibrationCounts st)) eqn:E'; [|reflexivity].
      apply (all_done_onClick idx) in E'. congruence.
Qed.

(** C8. [startCalibration] sets the nine counts to zero and clears the
    predictor's data; in the session that follows, a click on point [idx]
    raises its count by one up to the quota of 5 and leaves a count already
    at the quota as it is; and the overlay is up exactly while some count is
    below the quota, so the click that completes the last point ends the
    calibration by itself. *)
Theorem calibration_session (st0 : CalibState) (clicks : list nat) (idx : nat) :
  Forall (fun i => (i < 9)%nat) clicks -> (idx < 9)%nat ->
  let st := run_clicks clicks (startCalibration st0) in
  calibrationCounts (startCalibration st0) = replicate 9 0%nat
  /\ calibrating (startCalibration st0) = true
  /\ trainedData <$> webgazer (startCalibration st0) = (fun _ => []) <$> webgazer st0
  /\ (exists c,
        calibrationCounts st !! idx = Some c
        /\ (c <= CALIBRATION_PER_POINT)%nat
        /\ calibrationCounts (onClick idx st)
           = <[idx := Nat.min CALIBRATION_PER_POINT (c + 1)]> (calibrationCounts st)
        /\ ((c < CALIBRATION_PER_POINT)%nat ->
            calibrationCounts (onClick idx st) !! idx = Some (S c))
        /\ (c = CALIBRATION_PER_POINT ->
            calibrationCounts (onClick idx st) = calibrationCounts st))
  /\ CALIBRATION_PER_POINT = 5%nat
  /\ calibrating st = negb (all_done (calibrationCounts st))
  /\ calibrating (onClick idx st)
     = negb (all_done (calibrationCounts (onClick idx st))).
Proof.
  intros _ Hidx st.
  destruct (calibration_invariant st0 clicks) as (Hlen & Hle & Hcal).
  destruct (calibration_invariant st0 (clicks ++ [idx])) as (_ & _ & Hcal').
  rewrite run_clicks_snoc in Hcal'. fold st in Hlen, Hle, Hcal, Hcal'.
  split; [reflexivity|]. split; [reflexivity|].
  split; [unfold startCalibration; simpl; now destruct (webgazer st0)|].
  split; [|auto].
  destruct (lookup_lt_is_Some_2 (calibrationCounts st) idx) as [c Hc]; [lia|].
  exists c. rewrite onClick_counts, Hc.
  change (default 0%nat (Some c)) with c.
  pose proof (Forall_lookup_1 _ _ _ _ Hle Hc) as Hc5. cbv beta in Hc5.
  unfold CALIBRATION_PER_POINT in *.
  repeat split; try assumption.
  - intros Hlt. rewrite list_lookup_insert_eq by lia. f_equal. lia.
  - intros ->. apply list_insert_id. rewrite Hc. reflexivity.
Qed.

Lemma calibration_session_witness :
  calibrating
    (run_clicks (concat (replicate 5 (seq 0 9)))
       (startCalibration
          {| calibrating := false; calibrationCounts := [];
             showGazeDot := false;
             webgazer := Some {| trainedData := [(1, 2)];
                                 mouseEventListeners := false;
                                 predictionPoints := false |} |})) = false.
Proof.
  destruct (calibration_session
    {| calibrating := false; calibrationCounts := [];
       showGazeDot := false;
       webgazer := Some {| trainedData := [(1, 2)];
                           mouseEventListeners := false;
                           predictionPoints := false |} |}
    (concat (replicate 5 (seq 0 9))) 0%nat) as (_ & _ & _ & _ & _ & H & _).
  - simpl. repeat (constructor; [lia|]). constructor.
  - lia.
  - rewrite H. reflexivity.
Defined.

(** * Further properties *)

(** ** Coordinate mapper *)

(** X1. The mapper never changes the number of points nor any depth, and
    it hands its input back untouched when the container or the video is
    missing. *)
Theorem toDisplayPoints_shape (c : option Container) (v : option Video)
    (points : list point) :
  length (toDisplayPoints c v points) = length points
  /\ Forall2 (fun p q => pz p == pz q) (toDisplayPoints c v points) points
  /\ (c = None \/ v = None -> toDisplayPoints c v points = points).
Proof.
  assert (Hrefl : Forall2 (fun p q : point => pz p == pz q) points points).
  { induction points; constructor; [reflexivity|assumption]. }
  destruct c as [c|], v as [v|], points as [|p ps]; simpl;
    try (repeat split; solve [reflexivity | exact Hrefl | intros [H|H]; discriminate H | auto]).
  split; [now rewrite length_map|]. split; [|intros [H|H]; discriminate H].
  constructor; [apply js_or_0_r|]. clear Hrefl.
  induction ps as [|q ps IH]; constructor; [apply js_or_0_r|exact IH].
Qed.

(** ** Landmark extraction *)

(** X4. The landmarks in pixels ([keypoints], else [scaledMesh]) are taken
    as they are, whatever the canvas; with only a normalised [mesh], a
    missing renderer or a canvas of size 0 gives what a 640 by 480 canvas
    gives; and whether any point comes out never depends on the canvas. *)
Theorem extract2DPoints_canvas (canvas canvas' : option (Q * Q)) (face : Face) :
  ((exists k ks, keypoints face = Some (k :: ks))
   \/ (exists k ks, scaledMesh face = Some (k :: ks)) ->
   extract2DPoints canvas face = extract2DPoints canvas' face)
  /\ extract2DPoints None face = extract2DPoints (Some (640, 480)) face
  /\ extract2DPoints (Some (0, 0)) face = extract2DPoints (Some (640, 480)) face
  /\ length (extract2DPoints canvas face) = length (extract2DPoints canvas' face).
Proof.
  unfold extract2DPoints.
  destruct (keypoints face) as [[|k ks]|], (scaledMesh face) as [[|m ms]|],
    (mesh face) as [[|n ns]|];
    repeat split; try reflexivity; rewrite ?length_map; try reflexivity;
    intros [(? & ? & [=])|(? & ? & [=])].
Qed.

(** ** Point buffer *)

(** The write loop overwrites the three slots of each of its points and
    nothing else. *)
Lemma write_points_flat (points : list point) (i : nat) (pre mid post : list Q) :
  length pre = (i * 3)%nat -> length mid = (length points * 3)%nat ->
  write_points points i (pre ++ mid ++ post) = pre ++ (points ≫= vertex) ++ post.
Proof.
  revert i pre mid. induction points as [|p ps IH]; intros i pre mid Hpre Hmid.
  - destruct mid; [reflexivity|discriminate].
  - destruct mid as [|a [|b [|c mid]]]; try discriminate.
    cbn [write_points].
    rewrite (insert_app_r_alt pre _ (i * 3)) by lia.
    replace (i * 3 - length pre)%nat with 0%nat by lia. cbn [app].
    rewrite (insert_app_r_alt pre _ (i * 3 + 1)) by lia.
    replace (i * 3 + 1 - length pre)%nat with 1%nat by lia.
    rewrite (insert_app_r_alt pre _ (i * 3 + 2)) by lia.
    replace (i * 3 + 2 - length pre)%nat with 2%nat by lia.
    cbn [insert list_insert].
    change (to_float32 (px p) :: to_float32 (py p) :: to_float32 (depth (pz p))
              :: mid ++ post)
      with (vertex p ++ mid ++ post).
    rewrite app_assoc, (IH (S i) (pre ++ vertex p) mid).
    + rewrite bind_cons, <- !app_assoc. reflexivity.
    + rewrite length_app. simpl. lia.
    + simpl in Hmid. lia.
Qed.

Lemma write_points_all (points : list point) (arr : list Q) :
  length arr = (length points * 3)%nat ->
  write_points points 0 arr = points ≫= vertex.
Proof.
  intros H. pose proof (write_points_flat points 0 [] arr [] eq_refl H) as E.
  now rewrite !app_nil_r in E.
Qed.

(** X5. With the scene set up and every value within the single-precision
    range, the vertex array after an update is the flattened list of this
    frame's vertices, the single-precision values of
    [(x, y, -z * DEPTH_SCALE)], and nothing else: no value of an earlier
    frame survives, whatever the buffer held before. *)
Theorem updateGeometry_content (t : Three) (points : list point) :
  sceneRef t = true -> Forall float32_point points ->
  vertex_array (pointsRef (updateGeometry points t)) = Some (points ≫= vertex).
Proof.
  intros Hs _. destruct (updateGeometry_spec points t Hs) as (id & base & E & L & _).
  unfold vertex_array. rewrite E. simpl. f_equal. now apply write_points_all.
Qed.

Lemma updateGeometry_content_witness :
  vertex_array
    (pointsRef
       (updateGeometry [Point 1 2 3]
          (updateGeometry [Point 7 8 9; Point 4 5 6]
             {| rendererRef := true; sceneRef := true; cameraRef := true;
                pointsRef := None; linesRef := None; allocated := 0 |})))
  = Some ([Point 1 2 3] ≫= vertex).
Proof.
  apply updateGeometry_content; [reflexivity|].
  constructor; [|constructor]. repeat split.
Defined.

Lemma set_pointsRef_same (g : BufferGeometry) (t : Three) :
  pointsRef t = Some g -> set_pointsRef g t = t.
Proof. destruct t. simpl. intros ->. reflexivity. Qed.

(** X6. With the scene set up, updating twice with the same points is the
    same as updating once: the second update allocates nothing and leaves
    every object as it is. *)
Theorem updateGeometry_idempotent (t : Three) (points : list point) :
  sceneRef t = true ->
  updateGeometry points (updateGeometry points t) = updateGeometry points t.
Proof.
  intros Hs.
  destruct (updateGeometry_spec points t Hs) as (id & base & E & L & Hs' & _).
  generalize dependent (updateGeometry points t). intros t1 E Hs'.
  unfold updateGeometry. rewrite Hs', E. simpl.
  rewrite write_points_length, L, Nat.eqb_refl. simpl.
  rewrite (write_points_all points (write_points points 0 base))
    by (now rewrite write_points_length).
  rewrite <- (write_points_all points base L).
  now apply set_pointsRef_same.
Qed.

Lemma updateGeometry_idempotent_witness :
  let t := {| rendererRef := true; sceneRef := true; cameraRef := true;
              pointsRef := None; linesRef := None; allocated := 0 |} in
  updateGeometry [Point 1 2 3] (updateGeometry [Point 1 2 3] t)
  = updateGeometry [Point 1 2 3] t.
Proof. intros t. apply updateGeometry_idempotent. reflexivity. Defined.

(** X7. An update never touches the line geometry, the renderer or the
    camera, and never frees an array; it allocates one array at most,
    exactly one when the point cloud does not exist yet, and without a
    scene an update does nothing at all. *)
Theorem updateGeometry_frame (t : Three) (points : list point) :
  linesRef (updateGeometry points t) = linesRef t
  /\ rendererRef (updateGeometry points t) = rendererRef t
  /\ cameraRef (updateGeometry points t) = cameraRef t
  /\ (allocated t <= allocated (updateGeometry points t) <= S (allocated t))%nat
  /\ (sceneRef t = true -> pointsRef t = None ->
      allocated (updateGeometry points t) = S (allocated t))
  /\ (sceneRef t = false -> updateGeometry points t = t).
Proof.
  destruct (updateGeometry_lines points t) as (Hl & Hs & Hr & Hc & Ha).
  repeat split; try assumption.
  - destruct (sceneRef t) eqn:E.
    + destruct (updateGeometry_spec points t E) as (id & base & _ & _ & _ & _ & _ & _ & A).
      destruct (points_buffer t) as [a|]; [destruct (_ =? _)%nat|]; lia.
    + rewrite updateGeometry_no_scene by exact E. lia.
  - intros E Hp.
    destruct (updateGeometry_spec points t E) as (id & base & _ & _ & _ & _ & _ & _ & A).
    unfold points_buffer in A. rewrite Hp in A. simpl in A. tauto.
  - apply updateGeometry_no_scene.
Qed.

(** ** Edge keys and line buffer *)

Lemma line_vertices_decode (pts : list point) (e : string) :
  line_vertices pts e
  = decode_edge e ≫= fun ab =>
      pa ← pts !! ab.1; pb ← pts !! ab.2; Some (vertex pa ++ vertex pb).
Proof.
  unfold line_vertices, decode_edge. cbv zeta.
  destruct (parseInt (split_comma e !! 0%nat)) as [a|]; [|reflexivity].
  destruct (parseInt (split_comma e !! 1%nat)) as [b|]; reflexivity.
Qed.

(** X8. An edge key is read back as the pair of indices it was built
    from, so two different edges never share a key. *)
Theorem edge_key_roundtrip (a b a' b' : nat) :
  decode_edge (edge_key a b) = Some (a, b)
  /\ (edge_key a b = edge_key a' b' <-> a = a' /\ b = b').
Proof.
  split.
  - unfold decode_edge. rewrite split_comma_edge_key.
    cbn -[parseInt Number_toString]. rewrite !parseInt_Number_toString. reflexivity.
  - split; [apply edge_key_inj|]. now intros [-> ->].
Qed.

Lemma concat_uniform_lookup {A} (n k : nat) (vss : list (list A)) (v : list A) :
  Forall (fun v => length v = n) vss -> vss !! k = Some v ->
  length (concat vss) = (n * length vss)%nat
  /\ take n (drop (n * k) (concat vss)) = v.
Proof.
  revert k. induction vss as [|w vss IH]; intros k Hn Hk; [discriminate|].
  apply Forall_cons_1 in Hn as [Hw Hn]. simpl. rewrite length_app.
  assert (Hlen : length (concat vss) = (n * length vss)%nat).
  { clear -Hn. induction Hn as [|x l Hx _ IHl]; simpl; [lia|].
    rewrite length_app, IHl, Hx. lia. }
  split; [lia|].
  destruct k as [|k]; simpl in Hk.
  - injection Hk as ->. rewrite Nat.mul_0_r, drop_0.
    now apply take_app_length'.
  - replace (n * S k)%nat with (length w + n * k)%nat by lia.
    rewrite drop_app_add'; [|reflexivity]. now apply IH.
Qed.

(** X9. The line buffer of a frame exists, has six values per edge, and
    holds for the [k]th edge [a,b] of the set the vertices of point [a]
    and of point [b] (their values in single precision, when these are
    within its range), in this order, at slots [6k .. 6k+5]. *)
Theorem line_positions_layout (pts : list point) :
  exists vs,
    line_positions pts (knn_edges pts) = Some vs
    /\ length vs = (6 * length (knn_edges pts))%nat
    /\ forall k e, knn_edges pts !! k = Some e ->
         exists a b pa pb,
           e = edge_key a b /\ (a < b)%nat
           /\ pts !! a = Some pa /\ pts !! b = Some pb
           /\ (float32_point pa -> float32_point pb ->
               take 6 (drop (6 * k) vs) = vertex pa ++ vertex pb).
Proof.
  destruct (line_positions_knn pts) as [vs Hvs]. exists vs.
  split; [exact Hvs|].
  unfold line_positions in Hvs.
  destruct (mapM (line_vertices pts) (knn_edges pts)) as [vss|] eqn:Em; [|discriminate].
  simpl in Hvs. injection Hvs as <-.
  apply mapM_Some_1 in Em.
  assert (Hex : forall k e, knn_edges pts !! k = Some e ->
            exists a b pa pb, e = edge_key a b /\ (a < b)%nat
              /\ pts !! a = Some pa /\ pts !! b = Some pb
              /\ vss !! k = Some (vertex pa ++ vertex pb)).
  { intros k e Hk.
    destruct (knn_edges_ordered pts e) as (a & b & Hab & -> & _).
    { apply list_elem_of_lookup. eauto. }
    destruct (lookup_lt_is_Some_2 pts a) as [pa Ha]; [lia|].
    destruct (lookup_lt_is_Some_2 pts b) as [pb Hb]; [lia|].
    exists a, b, pa, pb. repeat split; try assumption; try lia.
    destruct (Forall2_lookup_l _ _ _ _ _ Em Hk) as (v & Hv & E).
    rewrite (line_vertices_edge_key pts a b pa pb Ha Hb) in E.
    injection E as <-. exact Hv. }
  assert (H6 : Forall (fun v => length v = 6%nat) vss).
  { apply Forall_forall. intros v Hv. apply list_elem_of_lookup in Hv as [k Hk].
    destruct (Forall2_lookup_r _ _ _ _ _ Em Hk) as (e & He & _).
    destruct (Hex k e He) as (a & b & pa & pb & _ & _ & _ & _ & E).
    rewrite Hk in E. injection E as ->. reflexivity. }
  split.
  - destruct vss as [|v vss'] eqn:Ev.
    + apply Forall2_length in Em. simpl in *. lia.
    + rewrite <- Ev in *.
      destruct (concat_uniform_lookup 6 0 vss v H6) as (-> & _).
      { now rewrite Ev. }
      apply Forall2_length in Em. lia.
  - intros k e Hk. destruct (Hex k e Hk) as (a & b & pa & pb & ? & ? & ? & ? & E).
    exists a, b, pa, pb. repeat split; try assumption.
    intros _ _. now destruct (concat_uniform_lookup 6 k vss _ H6 E).
Qed.

(** ** Shape of the wireframe *)

(** X10. The edge set holds the key [a,b], [a < b], exactly when one of
    the two points keeps the other among its nearest neighbours; it holds
    nothing else. *)
Theorem knn_edges_characterised (pts : list point) (e : string) :
  e ∈ knn_edges pts
  <-> exists a b, (a < b)%nat /\ e = edge_key a b
                  /\ (keeps pts a b \/ keeps pts b a).
Proof.
  split.
  - intros H. destruct (knn_edges_ordered pts e H) as (a & b & Hab & -> & Hd).
    exists a, b. split; [lia|]. split; [reflexivity|].
    destruct Hd as [Hd|Hd]; apply directed_elem in Hd; [left|right]; exact Hd.
  - intros (a & b & Hab & -> & [Hk|Hk]); apply knn_edges_elem.
    + exists (a, b). split; [now apply directed_elem|].
      unfold canon_key. simpl. apply Nat.ltb_lt in Hab. now rewrite Hab.
    + exists (b, a). split; [now apply directed_elem|].
      unfold canon_key. simpl.
      destruct (Nat.ltb_spec b a); [lia|reflexivity].
Qed.

(** X11. With at least [CONNECT_K + 1] points no point is left alone:
    every point is an end of at least two different edges of the set. *)
Theorem knn_edges_degree (pts : list point) (i : nat) :
  (CONNECT_K + 1 <= length pts)%nat -> (i < length pts)%nat ->
  exists j1 j2,
    j1 <> j2 /\ j1 <> i /\ j2 <> i
    /\ canon_key (i, j1) ∈ knn_edges pts
    /\ canon_key (i, j2) ∈ knn_edges pts
    /\ canon_key (i, j1) <> canon_key (i, j2).
Proof.
  intros Hn Hi. destruct (lookup_lt_is_Some_2 pts i Hi) as [pi Hpi].
  destruct (knn_best_spec pts i pi Hpi) as (Hlen & Hnd & Hel & _).
  replace (Nat.min CONNECT_K (length pts - 1)) with 2%nat in Hlen
    by (unfold CONNECT_K in *; lia).
  destruct (knn_best pts i pi) as [|[d1 j1] [|[d2 j2] [|? ?]]] eqn:Eb; try discriminate.
  assert (H1 : j1 <> i) by (apply (Hel d1 j1), list_elem_of_here).
  assert (H2 : j2 <> i)
    by (apply (Hel d2 j2), list_elem_of_further, list_elem_of_here).
  assert (H12 : j1 <> j2).
  { simpl in Hnd. apply NoDup_cons_1_1 in Hnd. intros ->. apply Hnd, list_elem_of_here. }
  assert (Hin : forall j, j ∈ [j1; j2] -> canon_key (i, j) ∈ knn_edges pts).
  { intros j Hj. apply knn_edges_elem. exists (i, j). split; [|reflexivity].
    apply directed_elem. exists pi. split; [exact Hpi|]. now rewrite Eb. }
  exists j1, j2. repeat split; try assumption.
  - apply Hin, list_elem_of_here.
  - apply Hin, list_elem_of_further, list_elem_of_here.
  - intros E. apply H12.
    assert (bool_decide (i < j1)%nat = bool_decide (i < j2)%nat
            \/ bool_decide (i < j1)%nat <> bool_decide (i < j2)%nat) as [D|D]
      by (destruct (bool_decide (i < j1)%nat), (bool_decide (i < j2)%nat); auto).
    + pose proof (canon_key_direction_inj (i, j1) (i, j2) E D) as Ep.
      now inversion Ep.
    + unfold canon_key in E. simpl in E. apply edge_key_inj in E.
      destruct (Nat.ltb_spec i j1), (Nat.ltb_spec i j2); destruct E; lia.
Qed.

Lemma knn_edges_degree_witness :
  exists j1 j2,
    j1 <> j2
    /\ canon_key (0%nat, j1) ∈ knn_edges square
    /\ canon_key (0%nat, j2) ∈ knn_edges square.
Proof.
  destruct (knn_edges_degree square 0) as (j1 & j2 & H12 & _ & _ & H1 & H2 & _).
  - unfold CONNECT_K, square. simpl. lia.
  - unfold square. simpl. lia.
  - exists j1, j2. auto.
Defined.

(** ** The wireframe follows the face *)

Lemma sort_insert_cand_eq (c c' : cand) (l l' : list cand) :
  cand_eq c c' -> Forall2 cand_eq l l' ->
  Forall2 cand_eq (sort_insert c l) (sort_insert c' l').
Proof.
  intros Hc H. induction H as [|d d' l l' Hd H IH]; simpl.
  - constructor; [exact Hc|constructor].
  - rewrite (Qleb_comp _ _ (proj1 Hc) _ _ (proj1 Hd)).
    destruct (Qle_bool c'.1 d'.1).
    + constructor; [exact Hc|]. constructor; [exact Hd|exact H].
    + constructor; [exact Hd|exact IH].
Qed.

Lemma js_sort_cand_eq (l l' : list cand) :
  Forall2 cand_eq l l' -> Forall2 cand_eq (js_sort l) (js_sort l').
Proof.
  induction 1 as [|c c' l l' Hc H IH]; simpl; [constructor|].
  now apply sort_insert_cand_eq.
Qed.

Lemma scan_step_cand_eq (i j : nat) (pi pi' pj pj' : point) (best best' : list cand) :
  dist2 pi pj == dist2 pi' pj' ->
  Forall2 cand_eq best best' ->
  Forall2 cand_eq (scan_step i pi best (j, pj)) (scan_step i pi' best' (j, pj')).
Proof.
  intros Hd H. unfold scan_step.
  destruct (i =? j)%nat; [exact H|].
  rewrite (Forall2_length _ _ _ H).
  destruct (length best' <? CONNECT_K)%nat.
  - apply js_sort_cand_eq, Forall2_app; [exact H|].
    constructor; [split; [exact Hd|reflexivity]|constructor].
  - destruct (best !! (CONNECT_K - 1)%nat) as [w|] eqn:Ew.
    + destruct (Forall2_lookup_l _ _ _ _ _ H Ew) as (w' & Ew' & [Hw _]).
      change (@lookup nat (Q * nat) (list cand) _ (CONNECT_K - 1)%nat best' = Some w') in Ew'.
      rewrite Ew'. unfold Qltb. rewrite (Qleb_comp _ _ Hw _ _ Hd).
      destruct (negb _); [|exact H].
      apply js_sort_cand_eq, Forall2_insert; [exact H|]. split; [exact Hd|reflexivity].
    + destruct (best' !! (CONNECT_K - 1)%nat) as [w'|] eqn:Ew'; [|exact H].
      destruct (Forall2_lookup_r _ _ _ _ _ H Ew') as (w & E & _).
      change (@lookup nat (Q * nat) (list cand) _ (CONNECT_K - 1)%nat best = Some w) in E.
      congruence.
Qed.

Lemma indexed_fmap {A B} (f : A -> B) (l : list A) :
  indexed (f <$> l) = (fun ix => (ix.1, f ix.2)) <$> indexed l.
Proof.
  unfold indexed. rewrite imap_fmap, fmap_imap. reflexivity.
Qed.

(** Moving every point by a map that keeps all squared distances leaves
    every kept list as it is, up to equal distances. *)
Lemma knn_best_cand_eq (f : point -> point) (pts : list point) (i : nat) (pi : point) :
  (forall p q, dist2 (f p) (f q) == dist2 p q) ->
  Forall2 cand_eq (knn_best (f <$> pts) i (f pi)) (knn_best pts i pi).
Proof.
  intros Hf. unfold knn_best. rewrite indexed_fmap.
  generalize (indexed pts) as L.
  assert (H0 : Forall2 cand_eq [] []) by constructor. revert H0.
  generalize (@nil cand) at 1 3 as best. generalize (@nil cand) as best'.
  intros best' best H L. revert best best' H.
  induction L as [|[j pj] L IH]; intros best best' H; [exact H|].
  rewrite fmap_cons. cbn [foldl]. apply IH. simpl.
  apply scan_step_cand_eq; [apply Hf|exact H].
Qed.

Lemma emit_edges_snd (i : nat) (best best' : list cand) (edges : list string) :
  best.*2 = best'.*2 -> emit_edges i best edges = emit_edges i best' edges.
Proof.
  unfold emit_edges. revert best' edges.
  induction best as [|c best IH]; intros [|c' best'] edges E; try discriminate;
    [reflexivity|].
  rewrite !fmap_cons in E. injection E as E1 E2. simpl. rewrite E1. now apply IH.
Qed.

Lemma knn_edges_isometry (f : point -> point) (pts : list point) :
  (forall p q, dist2 (f p) (f q) == dist2 p q) ->
  knn_edges (f <$> pts) = knn_edges pts.
Proof.
  intros Hf. unfold knn_edges. rewrite indexed_fmap.
  generalize (@nil string) as edges.
  induction (indexed pts) as [|[i pi] L IH]; intros edges; [reflexivity|].
  rewrite fmap_cons. cbn [foldl]. rewrite IH. f_equal. simpl.
  apply emit_edges_snd.
  pose proof (knn_best_cand_eq f pts i pi Hf) as H.
  induction H as [|c c' l l' [_ Hc] _ IHl]; [reflexivity|].
  rewrite !fmap_cons. now rewrite Hc, IHl.
Qed.

Lemma dist2_shift (vx vy vz : Q) (p q : point) :
  dist2 (shift vx vy vz p) (shift vx vy vz q) == dist2 p q.
Proof.
  unfold dist2, shift. simpl.
  rewrite !js_or_0_r. ring.
Qed.

(** X12. Moving the whole face by the same amount in x, y and z leaves the
    wireframe as it is: the same edge keys, in the same order. *)
Theorem knn_edges_shift (vx vy vz : Q) (pts : list point) :
  knn_edges (shift vx vy vz <$> pts) = knn_edges pts.
Proof. apply knn_edges_isometry. intros p q. apply dist2_shift. Qed.

(** ** Render loop: frames without points, errors, late frames *)

Lemma toDisplayPoints_nil (c : option Container) (v : option Video) (pts : list point) :
  toDisplayPoints c v pts = [] <-> pts = [].
Proof.
  destruct c, v, pts; simpl; split; intros H; try reflexivity; try discriminate H.
Qed.

Lemma extract2DPoints_nil (canvas canvas' : option (Q * Q)) (face : Face) :
  extract2DPoints canvas face = [] <-> extract2DPoints canvas' face = [].
Proof.
  unfold extract2DPoints.
  destruct (keypoints face) as [[|? ?]|], (scaledMesh face) as [[|? ?]|],
    (mesh face) as [[|? ?]|]; simpl; split; intros H; try reflexivity; discriminate H.
Qed.

(** What one invocation does to the scene, whether or not the loop is
    set up: nothing for a frame without points; otherwise an update, and
    on every second such frame a rebuild of the lines. *)
Lemma update_scene_cases (f : Frame) (st : LoopState) :
  (has_points f = false /\ update_scene f st = Some (three st, lineFrameCounter st))
  \/ (has_points f = true /\ exists pts,
        pts <> []
        /\ update_scene f st
           = if (lineFrameCounter st mod LINES_UPDATE_EVERY_N_FRAMES =? 0)%nat
             then t' ← recomputeLines pts (updateGeometry pts (three st));
                  Some (t', S (lineFrameCounter st))
             else Some (updateGeometry pts (three st), S (lineFrameCounter st))).
Proof.
  unfold has_points, frame_points, update_scene.
  destruct (faces f) as [|face ?]; [left; auto|]. cbv zeta.
  set (canvas := if rendererRef (three st) then _ else _).
  destruct (toDisplayPoints (container f) (video f) (extract2DPoints canvas face))
    as [|p ps] eqn:E.
  - left. apply toDisplayPoints_nil, (extract2DPoints_nil _ (Some (canvas_width f, canvas_height f))),
      (toDisplayPoints_nil (container f) (video f)) in E.
    rewrite E. auto.
  - right. split.
    + destruct (toDisplayPoints _ _ (extract2DPoints (Some _) face)) eqn:E'; [|reflexivity].
      apply toDisplayPoints_nil, (extract2DPoints_nil _ canvas),
        (toDisplayPoints_nil (container f) (video f)) in E'. congruence.
    + exists (p :: ps). split; [discriminate|reflexivity].
Qed.

Lemma recomputeLines_None (pts : list point) (t : Three) :
  recomputeLines pts t = None <-> sceneRef t = false /\ linesRef t = None.
Proof.
  destruct (line_positions_knn pts) as [vs Hvs].
  unfold recomputeLines. rewrite Hvs.
  destruct (linesRef t), (sceneRef t); simpl; split;
    try (intros H; discriminate H); try (intros [H1 H2]; discriminate); auto.
Qed.

Lemma loop_None (f : Frame) (st : LoopState) :
  loop f st = None <-> update_scene f st = None.
Proof.
  unfold loop. destruct (update_scene f st) as [[t c]|]; simpl; [|tauto].
  destruct (fps_tracking (now f) st) as [[[? ?] ?] ?]. split; discriminate.
Qed.

(** X13. An invocation throws in exactly one situation: the frame comes
    with points, it is a rebuild turn of the line counter, and neither the
    scene nor the line object exists. *)
Theorem loop_throws (f : Frame) (st : LoopState) :
  loop f st = None
  <-> has_points f = true
      /\ (lineFrameCounter st mod LINES_UPDATE_EVERY_N_FRAMES = 0)%nat
      /\ sceneRef (three st) = false /\ linesRef (three st) = None.
Proof.
  rewrite loop_None.
  destruct (update_scene_cases f st) as [[Hp ->]|[Hp (pts & _ & ->)]].
  - rewrite Hp. split; [discriminate|]. intros [H _]. discriminate H.
  - destruct (updateGeometry_lines pts (three st)) as (Hl & Hs & _).
    destruct (Nat.eqb_spec (lineFrameCounter st mod LINES_UPDATE_EVERY_N_FRAMES) 0)
      as [E|E].
    + destruct (recomputeLines pts (updateGeometry pts (three st))) as [t'|] eqn:Er; simpl.
      * split; [discriminate|]. intros (_ & _ & H1 & H2).
        assert (recomputeLines pts (updateGeometry pts (three st)) = None)
          by (apply recomputeLines_None; rewrite Hl, Hs; auto).
        congruence.
      * apply recomputeLines_None in Er. rewrite Hl, Hs in Er. tauto.
    + split; [discriminate|]. tauto.
Qed.

Lemma draws_app (es es' : list effect) : draws (es ++ es') = draws es ++ draws es'.
Proof. apply omap_app. Qed.

Lemma face_counts_app (es es' : list effect) :
  face_counts (es ++ es') = face_counts es ++ face_counts es'.
Proof. apply omap_app. Qed.

(** X14. A frame without points (no face, or a face without landmarks)
    never throws and changes no object: the line counter stays, and the
    draw call, when renderer, scene and camera exist, shows the buffers
    of the earlier frame. *)
Theorem loop_without_points (f : Frame) (st : LoopState) :
  has_points f = false ->
  exists st',
    loop f st = Some st'
    /\ three st' = three st
    /\ lineFrameCounter st' = lineFrameCounter st
    /\ face_counts (effects st') = face_counts (effects st) ++ [length (faces f)]
    /\ draws (effects st')
       = draws (effects st)
         ++ (if rendererRef (three st) && sceneRef (three st) && cameraRef (three st)
             then [(vertex_array (pointsRef (three st)),
                    vertex_array (linesRef (three st)))]
             else []).
Proof.
  intros Hp.
  destruct (update_scene_cases f st) as [[_ E]|[Hp' _]]; [|congruence].
  unfold loop. rewrite E. simpl.
  destruct (fps_tracking (now f) st) as [[[fr lt] lu] rep].
  eexists. split; [reflexivity|]. simpl.
  rewrite !face_counts_app, !draws_app. simpl.
  repeat split.
  - destruct (_ && _); destruct rep; reflexivity.
  - destruct (_ && _); destruct rep; simpl; now rewrite ?app_nil_r.
Qed.

Lemma loop_without_points_witness :
  exists st',
    loop (frame_empty 16) (initial_loop_state 0 0) = Some st'
    /\ three st' = three (initial_loop_state 0 0)
    /\ draws (effects st') = [(None, None)].
Proof.
  destruct (loop_without_points (frame_empty 16) (initial_loop_state 0 0) eq_refl)
    as (st' & E & Ht & _ & _ & Hd).
  exists st'. split; [exact E|]. split; [exact Ht|exact Hd].
Defined.

(** X15. Only the first face of a frame is shown: the other faces change
    nothing but the reported face count. *)
Theorem loop_first_face (f : Frame) (st : LoopState) :
  match loop f st, loop (first_face_only f) st with
  | Some a, Some b =>
      three a = three b /\ lineFrameCounter a = lineFrameCounter b
      /\ (frames a, lastTime a, lastFpsUpdate a) = (frames b, lastTime b, lastFpsUpdate b)
      /\ draws (effects a) = draws (effects b)
      /\ fps_reports (effects a) = fps_reports (effects b)
      /\ face_counts (effects a) = face_counts (effects st) ++ [length (faces f)]
  | None, None => True
  | _, _ => False
  end.
Proof.
  assert (E : update_scene (first_face_only f) st = update_scene f st).
  { unfold update_scene, first_face_only. simpl.
    destruct (faces f) as [|face rest]; reflexivity. }
  unfold loop. rewrite E. change (now (first_face_only f)) with (now f).
  destruct (update_scene f st) as [[t c]|]; simpl; [|exact I].
  destruct (fps_tracking (now f) st) as [[[fr lt] lu] rep]. simpl.
  rewrite !draws_app, !fps_reports_app, !face_counts_app. simpl.
  repeat split.
  destruct (_ && _); destruct rep; reflexivity.
Qed.

(** Once the scene, the camera and both geometries are gone, an
    invocation that returns has changed no object and drawn nothing. *)
Lemma loop_torn_down (f : Frame) (st st' : LoopState) :
  sceneRef (three st) = false -> linesRef (three st) = None ->
  loop f st = Some st' ->
  three st' = three st /\ draws (effects st') = draws (effects st).
Proof.
  intros Hs Hl E.
  assert (Ht : exists c, update_scene f st = Some (three st, c)).
  { destruct (update_scene_cases f st) as [[_ Eu]|[_ (pts & _ & Eu)]]; [eauto|].
    rewrite updateGeometry_no_scene in Eu by exact Hs.
    destruct (_ =? _)%nat; [|eauto].
    assert (recomputeLines pts (three st) = None) as En
      by (apply recomputeLines_None; auto).
    rewrite En in Eu. simpl in Eu.
    apply loop_None in Eu. congruence. }
  destruct Ht as [c Eu]. unfold loop in E. rewrite Eu in E. simpl in E.
  destruct (fps_tracking (now f) st) as [[[fr lt] lu] rep].
  injection E as <-. simpl. split; [reflexivity|].
  rewrite Hs, andb_false_r. simpl.
  rewrite !draws_app. simpl. destruct rep; simpl; now rewrite app_nil_r.
Qed.

(** X16. Frames that arrive after the scene, the camera and the
    geometries are gone (as after an unmount) never bring anything back
    and never draw: a run either leaves every object as it is and issues
    no draw call, or it throws on a frame with points. *)
Theorem run_loop_torn_down (fs : list Frame) (st : LoopState) :
  sceneRef (three st) = false -> linesRef (three st) = None ->
  match run_loop fs st with
  | Some st' => three st' = three st /\ draws (effects st') = draws (effects st)
  | None => exists f, f ∈ fs /\ has_points f = true
  end.
Proof.
  revert st. induction fs as [|f fs IH]; intros st Hs Hl; simpl; [auto|].
  destruct (loop f st) as [st1|] eqn:E; simpl.
  - destruct (loop_torn_down f st st1 Hs Hl E) as (Ht & Hd).
    specialize (IH st1). rewrite Ht in IH. specialize (IH Hs Hl).
    destruct (run_loop fs st1) as [st'|].
    + destruct IH as (-> & ->). auto.
    + destruct IH as (g & Hg & Hp). exists g. split; [now right|exact Hp].
  - apply loop_throws in E as (Hp & _). exists f. split; [left|exact Hp].
Qed.

Lemma run_loop_torn_down_witness :
  let st := {| three := {| rendererRef := true; sceneRef := false; cameraRef := false;
                           pointsRef := None; linesRef := None; allocated := 2 |};
               lastTime := 0; frames := 0; lastFpsUpdate := 0;
               lineFrameCounter := 1; effects := [] |} in
  exists st',
    run_loop [frame_face 16; frame_empty 33] st = Some st'
    /\ three st' = three st /\ draws (effects st') = [].
Proof.
  intros st.
  pose proof (run_loop_torn_down [frame_face 16; frame_empty 33] st eq_refl eq_refl) as H.
  destruct (run_loop [frame_face 16; frame_empty 33] st) as [st'|] eqn:E.
  - exists st'. split; [reflexivity|exact H].
  - vm_compute in E. discriminate E.
Defined.

(** ** Gaze listener: hysteresis and reported position *)

Lemma run_gaze_off_screen (samples : list GazeSample) (st : GazeState) :
  Forall (fun s => on_screen s = false) samples ->
  lastOnScreenAt (run_gaze samples st) = lastOnScreenAt st.
Proof.
  intros H. rewrite run_gaze_lastOnScreenAt. unfold last_on_screen_time.
  induction H as [|s l Hs _ IH]; [reflexivity|].
  simpl. rewrite Hs. exact IH.
Qed.

(** X17. While no on-screen sample arrives the timer stands still, and
    once [offScreen] has turned true it is true again after every later
    sample whose clock is not behind: only an on-screen sample brings the
    gaze back. *)
Theorem gaze_stays_off (st : GazeState) (s1 s2 : GazeSample) (between : list GazeSample) :
  Forall (fun s => on_screen s = false) (s1 :: between ++ [s2]) ->
  clock_now s1 <= clock_now s2 ->
  offScreen (gazeListener false s1 st) = true ->
  lastOnScreenAt (run_gaze (s1 :: between ++ [s2]) st) = lastOnScreenAt st
  /\ offScreen (run_gaze (s1 :: between ++ [s2]) st) = true.
Proof.
  intros Hall Hclock Hoff.
  split; [now apply run_gaze_off_screen|].
  pose proof (run_gaze_off_screen _ st Hall) as Hlast.
  change (s1 :: between ++ [s2]) with ((s1 :: between) ++ [s2]) in *.
  rewrite run_gaze_snoc in *.
  destruct (gazeListener_step s2 (run_gaze (s1 :: between) st)) as (_ & ->).
  rewrite Hlast. apply Qgtb_gt.
  destruct (gazeListener_step s1 st) as (E1 & E2).
  rewrite E2, E1 in Hoff. apply Forall_cons_1 in Hall as [H1 _]. rewrite H1 in Hoff.
  apply Qgtb_gt in Hoff.
  eapply Qlt_le_trans; [exact Hoff|].
  apply Qplus_le_l. exact Hclock.
Qed.

Lemma gaze_stays_off_witness :
  offScreen
    (run_gaze (sample_at 5000 300 :: [sample_at 5000 320] ++ [sample_at (-100) 400])
       gaze_state0) = true.
Proof.
  apply (gaze_stays_off gaze_state0 (sample_at 5000 300) (sample_at (-100) 400)
           [sample_at 5000 320]).
  - repeat constructor.
  - vm_compute. discriminate.
  - reflexivity.
Defined.

Lemma Math_round_near (x : Q) :
  x - (1 # 2) < inject_Z (Math_round x) /\ inject_Z (Math_round x) <= x + (1 # 2).
Proof.
  unfold Math_round. split.
  - pose proof (Qlt_floor (x + (1 # 2))) as H.
    rewrite inject_Z_plus in H. change (inject_Z 1) with 1 in H. lra.
  - apply Qfloor_le.
Qed.

(** X18. Every valid sample, on screen or not, sets the last known gaze
    position to whole pixels within half a pixel of the prediction, halves
    going up. *)
Theorem gazeListener_position (st : GazeState) (s : GazeSample) (x y : Q) :
  valid s = Some (x, y) ->
  exists rx ry,
    gazeXY (gazeListener false s st) = Some (rx, ry)
    /\ x - (1 # 2) < inject_Z rx /\ inject_Z rx <= x + (1 # 2)
    /\ y - (1 # 2) < inject_Z ry /\ inject_Z ry <= y + (1 # 2).
Proof.
  intros H. exists (Math_round x), (Math_round y).
  unfold gazeListener. rewrite H. simpl.
  destruct (Math_round_near x), (Math_round_near y). auto.
Qed.

Lemma gazeListener_position_witness :
  exists rx ry,
    gazeXY (gazeListener false (sample_at (5 # 2) 0) gaze_state0) = Some (rx, ry)
    /\ inject_Z rx <= (5 # 2) + (1 # 2).
Proof.
  destruct (gazeListener_position gaze_state0 (sample_at (5 # 2) 0) (5 # 2) 300 eq_refl)
    as (rx & ry & E & _ & H & _).
  exists rx, ry. auto.
Defined.

(** ** Calibration: counting the clicks *)

Lemma clicks_on_snoc (i idx : nat) (clicks : list nat) :
  clicks_on i (clicks ++ [idx])
  = (clicks_on i clicks + if decide (idx = i) then 1 else 0)%nat.
Proof.
  unfold clicks_on. rewrite filter_app, length_app. f_equal.
  destruct (decide (idx = i)).
  - now rewrite filter_cons_True.
  - now rewrite filter_cons_False.
Qed.

(** The count of every point in a session. *)
Lemma calibration_counts (st0 : CalibState) (clicks : list nat) (i : nat) :
  (i < 9)%nat ->
  calibrationCounts (run_clicks clicks (startCalibration st0)) !! i
  = Some (Nat.min CALIBRATION_PER_POINT (clicks_on i clicks)).
Proof.
  intros Hi. induction clicks as [|idx clicks IH] using rev_ind.
  - simpl. do 9 (destruct i as [|i]; [reflexivity|]). lia.
  - rewrite run_clicks_snoc, onClick_counts, clicks_on_snoc.
    destruct (decide (idx = i)) as [->|Hne].
    + rewrite list_lookup_insert_eq by (apply lookup_lt_is_Some; rewrite IH; eauto).
      rewrite IH. f_equal. change (default 0%nat (Some ?x)) with x. lia.
    + rewrite list_lookup_insert_ne by exact Hne. rewrite IH. f_equal. lia.
Qed.

(** X19. In a calibration session the count shown for a point is the
    number of clicks it received, cut off at the quota of 5, whatever the
    order of the clicks. *)
Theorem calibration_count_clicks (st0 : CalibState) (clicks : list nat) (i : nat) :
  (i < 9)%nat ->
  calibrationCounts (run_clicks clicks (startCalibration st0)) !! i
  = Some (Nat.min 5 (clicks_on i clicks)).
Proof. apply calibration_counts. Qed.

Lemma calibration_count_clicks_witness :
  calibrationCounts
    (run_clicks [3; 3; 0; 3; 3; 3; 3; 3]%nat
       (startCalibration {| calibrating := false; calibrationCounts := [];
                            showGazeDot := false; webgazer := None |})) !! 3%nat
  = Some 5%nat.
Proof.
  exact (calibration_count_clicks
           {| calibrating := false; calibrationCounts := [];
              showGazeDot := false; webgazer := None |}
           [3; 3; 0; 3; 3; 3; 3; 3]%nat 3 ltac:(lia)).
Defined.

Lemma all_done_lookup (counts : list nat) :
  length counts = 9%nat ->
  (all_done counts = true
   <-> forall i, (i < 9)%nat -> exists c, counts !! i = Some c
                                          /\ (CALIBRATION_PER_POINT <= c)%nat).
Proof.
  intros Hlen. rewrite all_done_Forall, Forall_lookup. split.
  - intros H i Hi. destruct (lookup_lt_is_Some_2 counts i) as [c Hc]; [lia|]. eauto.
  - intros H i c Hc. destruct (H i) as (c' & Hc' & Hle).
    + apply lookup_lt_Some in Hc. lia.
    + congruence.
Qed.

Lemma clicks_on_cons (i idx : nat) (clicks : list nat) :
  clicks_on i (idx :: clicks)
  = ((if decide (idx = i) then 1 else 0) + clicks_on i clicks)%nat.
Proof.
  unfold clicks_on. destruct (decide (idx = i)).
  - now rewrite filter_cons_True.
  - now rewrite filter_cons_False.
Qed.

Lemma clicks_on_sum (clicks : list nat) :
  Forall (fun i => (i < 9)%nat) clicks ->
  sum_list ((fun i => clicks_on i clicks) <$> seq 0 9) = length clicks.
Proof.
  induction 1 as [|idx clicks Hidx _ IH]; [reflexivity|].
  cbn [seq fmap list_fmap sum_list_with length] in *. unfold id in *.
  rewrite !clicks_on_cons.
  do 9 (destruct idx as [|idx]; [cbn [decide decide_rel Nat.eq_dec]; simpl; lia|]).
  lia.
Qed.

(** X20. A calibration session ends by itself exactly when every one of
    the nine points has been clicked at least 5 times; so never before the
    45th click. *)
Theorem calibration_finishes (st0 : CalibState) (clicks : list nat) :
  Forall (fun i => (i < 9)%nat) clicks ->
  (calibrating (run_clicks clicks (startCalibration st0)) = false
   <-> forall i, (i < 9)%nat -> (5 <= clicks_on i clicks)%nat)
  /\ (calibrating (run_clicks clicks (startCalibration st0)) = false ->
      (45 <= length clicks)%nat).
Proof.
  intros Hall.
  destruct (calibration_invariant st0 clicks) as (Hlen & _ & Hcal). cbv zeta in *.
  assert (Hiff : calibrating (run_clicks clicks (startCalibration st0)) = false
                 <-> forall i, (i < 9)%nat -> (5 <= clicks_on i clicks)%nat).
  { rewrite Hcal, negb_false_iff, (all_done_lookup _ Hlen). split.
    - intros H i Hi. destruct (H i Hi) as (c & Hc & Hle).
      pose proof (calibration_counts st0 clicks i Hi) as Hc'.
      assert (E : c = Nat.min CALIBRATION_PER_POINT (clicks_on i clicks)) by congruence.
      revert Hle. rewrite E. unfold CALIBRATION_PER_POINT. lia.
    - intros H i Hi. eexists. split; [now apply calibration_counts|].
      specialize (H i Hi). unfold CALIBRATION_PER_POINT. lia. }
  split; [exact Hiff|]. intros Hf. rewrite <- (clicks_on_sum clicks Hall).
  pose proof (proj1 Hiff Hf) as H. simpl.
  pose proof (H 0%nat). pose proof (H 1%nat). pose proof (H 2%nat).
  pose proof (H 3%nat). pose proof (H 4%nat). pose proof (H 5%nat).
  pose proof (H 6%nat). pose proof (H 7%nat). pose proof (H 8%nat). lia.
Qed.

Lemma calibration_finishes_witness :
  (45 <= length (concat (replicate 5 (seq 0 9))))%nat.
Proof.
  apply (calibration_finishes
           {| calibrating := false; calibrationCounts := [];
              showGazeDot := true; webgazer := None |}
           (concat (replicate 5 (seq 0 9)))).
  - simpl. repeat (constructor; [lia|]). constructor.
  - reflexivity.
Defined.

Lemma onClick_webgazer (idx : nat) (st : CalibState) :
  webgazer (onClick idx st)
  = (if all_done (calibrationCounts (onClick idx st))
     then webgazer (stopCalibration st) else webgazer st)
  /\ showGazeDot (onClick idx st) = showGazeDot st.
Proof.
  rewrite onClick_counts. unfold onClick.
  now destruct (all_done _).
Qed.

(** X21. Throughout a calibration session with a predictor loaded, the
    predictor samples the mouse exactly while calibration is running, and
    it shows its prediction points while calibration is running and as the
    gaze-dot switch says once calibration has ended by itself. *)
Theorem calibration_predictor (st0 : CalibState) (wg0 : WebGazer) (clicks : list nat) :
  webgazer st0 = Some wg0 ->
  exists wg,
    webgazer (run_clicks clicks (startCalibration st0)) = Some wg
    /\ showGazeDot (run_clicks clicks (startCalibration st0)) = showGazeDot st0
    /\ mouseEventListeners wg = calibrating (run_clicks clicks (startCalibration st0))
    /\ predictionPoints wg
       = (if calibrating (run_clicks clicks (startCalibration st0))
          then true else showGazeDot st0).
Proof.
  intros Hwg. induction clicks as [|idx clicks IH] using rev_ind.
  - unfold startCalibration. simpl. rewrite Hwg. simpl. eauto.
  - destruct IH as (wg & Ew & Hdot & Hm & Hp).
    destruct (calibration_invariant st0 clicks) as (_ & _ & Hcal).
    destruct (calibration_invariant st0 (clicks ++ [idx])) as (_ & _ & Hcal').
    cbv zeta in *. rewrite run_clicks_snoc in *.
    set (st := run_clicks clicks (startCalibration st0)) in *.
    destruct (onClick_webgazer idx st) as (Eg & Ed). rewrite Eg, Ed, Hcal'.
    destruct (all_done (calibrationCounts (onClick idx st))) eqn:Edone.
    + unfold stopCalibration. cbn [webgazer negb]. rewrite Ew, Hdot.
      eexists. split; [reflexivity|]. auto.
    + exists wg. rewrite Hcal in Hm, Hp.
      assert (all_done (calibrationCounts st) = false) as Ed'.
      { destruct (all_done (calibrationCounts st)) eqn:E'; [|reflexivity].
        apply (all_done_onClick idx) in E'. congruence. }
      rewrite Ed' in Hm, Hp. auto.
Qed.

Lemma calibration_predictor_witness :
  exists wg,
    webgazer
      (run_clicks [0; 1]%nat
         (startCalibration
            {| calibrating := false; calibrationCounts := []; showGazeDot := false;
               webgazer := Some {| trainedData := []; mouseEventListeners := false;
                                   predictionPoints := false |} |})) = Some wg
    /\ mouseEventListeners wg = true.
Proof.
  destruct (calibration_predictor
    {| calibrating := false; calibrationCounts := []; showGazeDot := false;
       webgazer := Some {| trainedData := []; mouseEventListeners := false;
                           predictionPoints := false |} |}
    {| trainedData := []; mouseEventListeners := false; predictionPoints := false |}
    [0; 1]%nat eq_refl) as (wg & E & _ & Hm & _).
  exists wg. split; [exact E|]. rewrite Hm. reflexivity.
Defined.

(** ** Duration field *)

Arguments is_space : simpl never.
Arguments is_digit : simpl never.

Lemma is_digit_not_space (c : ascii) : is_digit c = true -> is_space c = false.
Proof. destruct c as [[] [] [] [] [] [] [] []]; cbv; congruence. Qed.

Lemma is_digit_not_colon (c : ascii) : is_digit c = true -> Ascii.eqb c ":" = false.
Proof. destruct c as [[] [] [] [] [] [] [] []]; cbv; congruence. Qed.

Lemma string_forall_app (P : ascii -> bool) (s1 s2 : string) :
  string_forall P (s1 ++ s2) = string_forall P s1 && string_forall P s2.
Proof.
  induction s1 as [|c s IH]; simpl; [reflexivity|].
  now rewrite IH, andb_assoc.
Qed.

Lemma string_forall_impl (P R : ascii -> bool) (s : string) :
  (forall c, P c = true -> R c = true) ->
  string_forall P s = true -> string_forall R s = true.
Proof.
  intros HPR. induction s as [|c s IH]; simpl; [reflexivity|].
  intros H. apply andb_prop in H as [Hc Hs].
  now rewrite (HPR c Hc), (IH Hs).
Qed.

Lemma string_of_uint_digits (d : Decimal.uint) :
  string_forall is_digit (NilEmpty.string_of_uint d) = true.
Proof. induction d; simpl; [reflexivity|..]; rewrite IHd; reflexivity. Qed.

Lemma Number_toString_digits (n : nat) : all_digits (Number_toString n) = true.
Proof.
  unfold all_digits, Number_toString, NilZero.string_of_uint.
  destruct (Nat.to_uint n) as [|d|d|d|d|d|d|d|d|d|d]; try reflexivity;
    cbn [NilEmpty.string_of_uint String.eqb negb andb string_forall];
    apply andb_true_intro; (split; [reflexivity|apply string_of_uint_digits]).
Qed.

Lemma all_digits_forall (s : string) :
  all_digits s = true -> string_forall is_digit s = true.
Proof. unfold all_digits. intros H. now apply andb_prop in H. Qed.

Lemma all_digits_nonempty (s : string) : all_digits s = true -> s <> ""%string.
Proof. intros H ->. discriminate H. Qed.

(** On a text that matches [\d+], [parseInt] gives a number. *)
Lemma parseInt_digits (s : string) :
  all_digits s = true -> exists n, parseInt (Some s) = Some n.
Proof.
  intros H. pose proof (all_digits_nonempty s H) as Hne.
  apply all_digits_forall in H.
  assert (Hd : exists d, NilEmpty.uint_of_string s = Some d).
  { clear Hne. induction s as [|c s IH]; [now exists Decimal.Nil|].
    simpl in H. apply andb_prop in H as [Hc Hs].
    destruct (IH Hs) as [d Ed]. cbn [NilEmpty.uint_of_string]. rewrite Ed.
    destruct c as [[] [] [] [] [] [] [] []]; try discriminate Hc; simpl; eauto. }
  destruct Hd as [d Ed]. exists (Nat.of_uint d).
  unfold parseInt, NilZero.uint_of_string. simpl.
  destruct s; [congruence|]. now rewrite Ed.
Qed.

Lemma string_app_empty (s : string) : (s ++ "")%string = s.
Proof.
  induction s as [|c s IH]; [reflexivity|].
  change (String c (s +:+ "") = String c s). now rewrite IH.
Qed.

Lemma trim_start_spaces (ws s : string) :
  string_forall is_space ws = true -> trim_start (ws ++ s) = trim_start s.
Proof.
  induction ws as [|c ws IH]; simpl; [reflexivity|].
  intros H. apply andb_prop in H as [Hc Hs]. now rewrite Hc, (IH Hs).
Qed.

Lemma trim_end_all_spaces (ws : string) :
  string_forall is_space ws = true -> trim_end ws = ""%string.
Proof.
  induction ws as [|c ws IH]; simpl; [reflexivity|].
  intros H. apply andb_prop in H as [Hc Hs]. now rewrite (IH Hs), Hc.
Qed.

Lemma trim_end_spaces (s ws : string) :
  string_forall is_space ws = true -> trim_end (s ++ ws) = trim_end s.
Proof.
  intros H. induction s as [|c s IH]; simpl.
  - now apply trim_end_all_spaces.
  - now rewrite IH.
Qed.

Lemma trim_end_no_space (s : string) :
  string_forall (fun c => negb (is_space c)) s = true -> trim_end s = s.
Proof.
  induction s as [|c s IH]; simpl; [reflexivity|].
  intros H. apply andb_prop in H as [Hc Hs]. rewrite (IH Hs).
  apply negb_true_iff in Hc. rewrite Hc. now destruct s.
Qed.

(** Blanks around a text without blanks are trimmed away, and nothing
    else. *)
Lemma trim_blanks (ws1 s ws2 : string) :
  string_forall is_space ws1 = true -> string_forall is_space ws2 = true ->
  string_forall (fun c => negb (is_space c)) s = true ->
  trim (ws1 ++ s ++ ws2) = s.
Proof.
  intros H1 H2 Hs. unfold trim. rewrite trim_start_spaces by exact H1.
  destruct s as [|c s].
  - simpl. clear H1 Hs. induction ws2 as [|c ws IH]; simpl; [reflexivity|].
    simpl in H2. apply andb_prop in H2 as [Hc Hw]. rewrite Hc. now apply IH.
  - simpl in Hs. apply andb_prop in Hs as [Hc Hs].
    simpl. pose proof Hc as Hc'. apply negb_true_iff in Hc'. rewrite Hc'.
    change (String c (s +:+ ws2)) with (String c s +:+ ws2).
    rewrite trim_end_spaces by exact H2. apply trim_end_no_space.
    simpl. now rewrite Hc, Hs.
Qed.

Lemma digits_no_space (s : string) :
  string_forall is_digit s = true ->
  string_forall (fun c => negb (is_space c)) s = true.
Proof.
  apply string_forall_impl. intros c H. now rewrite is_digit_not_space.
Qed.

Lemma split_colon_app (s1 s2 : string) :
  string_forall is_digit s1 = true ->
  split_colon (s1 ++ ":" ++ s2) = Some (s1, s2).
Proof.
  induction s1 as [|c s IH]; simpl; [reflexivity|].
  intros H. apply andb_prop in H as [Hc Hs].
  rewrite (is_digit_not_colon c Hc). simpl in IH. now rewrite (IH Hs).
Qed.

Lemma split_colon_digits (s : string) :
  string_forall is_digit s = true -> split_colon s = None.
Proof.
  induction s as [|c s IH]; simpl; [reflexivity|].
  intros H. apply andb_prop in H as [Hc Hs].
  now rewrite (is_digit_not_colon c Hc), (IH Hs).
Qed.

Lemma split_colon_Some (s a b : string) :
  split_colon s = Some (a, b) -> s = (a ++ ":" ++ b)%string.
Proof.
  revert a b. induction s as [|c s IH]; simpl; intros a b; [discriminate|].
  destruct (Ascii.eqb_spec c ":") as [->|_].
  - now intros [= <- <-].
  - destruct (split_colon s) as [[a' b']|]; [|discriminate].
    intros [= <- <-]. rewrite (IH a' b' eq_refl). reflexivity.
Qed.

(** X22. A whole number of minutes, typed with or without blanks around
    it, is read as that number. *)
Theorem parseDuration_minutes (n : nat) (ws1 ws2 : string) :
  (Z.of_nat n < 2 ^ 53)%Z ->
  string_forall is_space ws1 = true -> string_forall is_space ws2 = true ->
  parseDurationToMinutes (ws1 ++ Number_toString n ++ ws2) = Some n.
Proof.
  intros _ H1 H2. unfold parseDurationToMinutes. cbv zeta.
  pose proof (Number_toString_digits n) as Hd.
  rewrite trim_blanks by (auto using digits_no_space, all_digits_forall).
  rewrite Hd. destruct (String.eqb_spec (Number_toString n) "") as [E|_].
  - now apply all_digits_nonempty in Hd.
  - apply parseInt_Number_toString.
Qed.

Lemma parseDuration_minutes_witness :
  parseDurationToMinutes ("  " ++ Number_toString 90 ++ " ") = Some 90%nat.
Proof.
  apply (parseDuration_minutes 90 "  " " "); [reflexivity|reflexivity|reflexivity].
Defined.

(** X23. Hours and minutes [h:mm], with one or two digits of minutes and
    with or without blanks around, are read as [60 h + m] minutes when
    [m < 60] and as [0] otherwise. *)
Theorem parseDuration_h_mm (H M ws1 ws2 : string) (h m : nat) :
  all_digits H = true -> all_digits M = true -> (String.length M <= 2)%nat ->
  parseInt (Some H) = Some h -> parseInt (Some M) = Some m ->
  (Z.of_nat (h * 60 + m) < 2 ^ 53)%Z ->
  string_forall is_space ws1 = true -> string_forall is_space ws2 = true ->
  parseDurationToMinutes (ws1 ++ (H ++ ":" ++ M) ++ ws2)
  = Some (if (m <? 60)%nat then (h * 60 + m)%nat else 0%nat).
Proof.
  intros HH HM Hlen EH EM _ H1 H2. unfold parseDurationToMinutes. cbv zeta.
  pose proof (all_digits_forall H HH) as HHd.
  pose proof (all_digits_forall M HM) as HMd.
  rewrite trim_blanks; [|exact H1|exact H2|].
  2:{ rewrite string_forall_app, (digits_no_space H HHd).
      change (":" +:+ M) with (String ":" M). cbn [string_forall].
      rewrite (digits_no_space M HMd). reflexivity. }
  destruct (String.eqb_spec (H ++ ":" ++ M) "") as [E|_].
  { destruct H; discriminate E. }
  assert (Hnd : all_digits (H ++ ":" ++ M) = false).
  { unfold all_digits. rewrite string_forall_app. simpl.
    now rewrite andb_false_r, andb_false_r. }
  rewrite Hnd. unfold match_h_mm. rewrite split_colon_app by exact HHd.
  rewrite HH, HM. apply Nat.leb_le in Hlen. rewrite Hlen. cbn [andb]. cbv zeta.
  rewrite EM, EH. now destruct (m <? 60)%nat.
Qed.

Lemma parseDuration_h_mm_witness :
  parseDurationToMinutes (" " ++ ("2" ++ ":" ++ "05") ++ "")
  = Some (if (5 <? 60)%nat then (2 * 60 + 5)%nat else 0%nat).
Proof.
  apply (parseDuration_h_mm "2" "05" " " "" 2 5);
    solve [reflexivity | vm_compute; lia | vm_compute; reflexivity].
Defined.

Lemma trim_start_keeps (P : ascii -> bool) (s : string) :
  string_forall (fun c => P c || is_space c) s = false ->
  string_forall (fun c => P c || is_space c) (trim_start s) = false.
Proof.
  induction s as [|c s IH]; simpl; [auto|].
  destruct (is_space c) eqn:Ec.
  - rewrite orb_true_r. simpl. exact IH.
  - simpl. now rewrite Ec.
Qed.

Lemma trim_end_keeps (P : ascii -> bool) (s : string) :
  string_forall (fun c => P c || is_space c) s = false ->
  string_forall (fun c => P c || is_space c) (trim_end s) = false.
Proof.
  induction s as [|c s IH]; simpl; [auto|].
  destruct (P c || is_space c) eqn:Ec; simpl.
  - intros H. specialize (IH H). destruct (trim_end s) as [|c' t].
    + discriminate IH.
    + cbn [string_forall]. rewrite Ec. exact IH.
  - intros _. apply orb_false_elim in Ec as [EP Es]. rewrite Es.
    destruct (trim_end s); simpl; now rewrite EP, Es.
Qed.

(** A text with a character that is neither a digit nor a colon is read
    as [0]. *)
Lemma parseDuration_rejects (value : string) :
  string_forall (fun c => is_digit c || Ascii.eqb c ":") (trim value) = false ->
  parseDurationToMinutes value = Some 0%nat.
Proof.
  intros Hbad. unfold parseDurationToMinutes. cbv zeta.
  destruct (String.eqb_spec (trim value) "") as [E|_]; [reflexivity|].
  destruct (all_digits (trim value)) eqn:Ed.
  { apply all_digits_forall in Ed.
    rewrite (string_forall_impl is_digit _ _) in Hbad; [discriminate| |exact Ed].
    intros c Hc. now rewrite Hc. }
  unfold match_h_mm. destruct (split_colon (trim value)) as [[a b]|] eqn:Es; [|reflexivity].
  destruct (all_digits a) eqn:Ea; [|reflexivity].
  destruct (all_digits b) eqn:Eb; [|reflexivity].
  exfalso. apply split_colon_Some in Es. rewrite Es in Hbad.
  rewrite !string_forall_app in Hbad. simpl in Hbad.
  apply all_digits_forall in Ea, Eb.
  rewrite (string_forall_impl is_digit _ a) in Hbad; [| |exact Ea].
  2:{ intros c Hc. now rewrite Hc. }
  rewrite (string_forall_impl is_digit _ b) in Hbad; [| |exact Eb].
  2:{ intros c Hc. now rewrite Hc. }
  discriminate Hbad.
Qed.

(** The duration field always gives a number. *)
Lemma parseDuration_total (value : string) :
  is_Some (parseDurationToMinutes value).
Proof.
  unfold parseDurationToMinutes. cbv zeta.
  destruct (String.eqb (trim value) ""); [eauto|].
  destruct (all_digits (trim value)) eqn:Ed.
  { destruct (parseInt_digits _ Ed) as [n ->]. eauto. }
  unfold match_h_mm. destruct (split_colon (trim value)) as [[a b]|]; [|eauto].
  destruct (all_digits a) eqn:Ea; [|cbn [andb]; eauto].
  destruct (all_digits b) eqn:Eb; [|cbn [andb]; eauto].
  destruct (String.length b <=? 2)%nat; [|cbn [andb]; eauto]. cbn [andb].
  destruct (parseInt_digits _ Ea) as [h ->], (parseInt_digits _ Eb) as [m ->].
  destruct (m <? 60)%nat; simpl; eauto.
Qed.

(** X24. The duration field never gives [NaN]; a blank text, a text with a
    character other than digits, colon and blanks, a text with a blank or
    any other foreign character between its ends, and minutes of more than
    two digits are all read as [0]. *)
Theorem parseDuration_invalid (value : string) :
  is_Some (parseDurationToMinutes value)
  /\ (string_forall is_space value = true ->
      parseDurationToMinutes value = Some 0%nat)
  /\ (string_forall (fun c => is_digit c || Ascii.eqb c ":" || is_space c) value = false ->
      parseDurationToMinutes value = Some 0%nat)
  /\ (string_forall (fun c => is_digit c || Ascii.eqb c ":") (trim value) = false ->
      parseDurationToMinutes value = Some 0%nat)
  /\ (forall H M, trim value = (H ++ ":" ++ M)%string -> all_digits H = true ->
      (2 < String.length M)%nat -> parseDurationToMinutes value = Some 0%nat).
Proof.
  split; [|split; [|split; [|split]]].
  - apply parseDuration_total.
  - intros H. unfold parseDurationToMinutes, trim. cbv zeta.
    rewrite <- (string_app_empty value), trim_start_spaces by exact H. reflexivity.
  - intros H. apply parseDuration_rejects. unfold trim.
    pose proof (trim_end_keeps (fun c => is_digit c || Ascii.eqb c ":") _
                  (trim_start_keeps (fun c => is_digit c || Ascii.eqb c ":") _ H)) as Hk.
    destruct (string_forall (fun c => is_digit c || Ascii.eqb c ":")
                (trim_end (trim_start value))) eqn:E; [|reflexivity].
    cbv beta in Hk. rewrite <- Hk. symmetry.
    apply (string_forall_impl (fun c => is_digit c || Ascii.eqb c ":")); [|exact E].
    intros c Hc. now rewrite Hc.
  - apply parseDuration_rejects.
  - intros H M E HH Hlen. unfold parseDurationToMinutes. cbv zeta. rewrite E.
    destruct (String.eqb (H ++ ":" ++ M) ""); [reflexivity|].
    assert (Hnd : all_digits (H ++ ":" ++ M) = false).
    { unfold all_digits. rewrite string_forall_app.
      change (":" +:+ M) with (String ":" M). cbn [string_forall].
      change (is_digit ":") with false. now rewrite andb_false_r, andb_false_r. }
    rewrite Hnd. unfold match_h_mm.
    rewrite split_colon_app by (now apply all_digits_forall).
    apply Nat.leb_gt in Hlen. rewrite Hlen, andb_false_r. reflexivity.
Qed.

(** ** Session timer *)

Lemma parseInt_leading_zero (s : string) (n : nat) :
  parseInt (Some s) = Some n -> parseInt (Some (String "0" s)) = Some n.
Proof.
  unfold parseInt, NilZero.uint_of_string. cbn [mbind option_bind].
  destruct s as [|c s]; [discriminate|].
  cbn [NilEmpty.uint_of_string].
  destruct (uint_of_char c (NilEmpty.uint_of_string s)) as [d|]; [|discriminate].
  simpl. intros [= <-]. reflexivity.
Qed.

Lemma parseInt_pad (n : nat) : parseInt (Some (pad n)) = Some n.
Proof.
  unfold pad. destruct (n <? 10)%nat.
  - apply parseInt_leading_zero, parseInt_Number_toString.
  - apply parseInt_Number_toString.
Qed.

Lemma pad_digits (n : nat) : string_forall is_digit (pad n) = true.
Proof.
  unfold pad. pose proof (all_digits_forall _ (Number_toString_digits n)) as H.
  destruct (n <? 10)%nat; [|exact H].
  change ("0" +:+ Number_toString n) with (String "0" (Number_toString n)).
  cbn [string_forall]. now rewrite H.
Qed.

Lemma pad_inj (n n' : nat) : pad n = pad n' -> n = n'.
Proof.
  intros E. pose proof (parseInt_pad n) as H. rewrite E, parseInt_pad in H.
  congruence.
Qed.

Lemma Number_toString_inj (n n' : nat) :
  Number_toString n = Number_toString n' -> n = n'.
Proof.
  intros E. pose proof (parseInt_Number_toString n) as H.
  rewrite E, parseInt_Number_toString in H. congruence.
Qed.

Lemma to_int32_small (t : Z) : (0 <= t < 2 ^ 31)%Z -> to_int32 t = t.
Proof.
  intros H. unfold to_int32. cbv zeta.
  change (2 ^ 32)%Z with 4294967296%Z. change (2 ^ 31)%Z with 2147483648%Z in *.
  rewrite Z.mod_small by lia.
  destruct (Z.ltb_spec t 2147483648); lia.
Qed.

Lemma to_int32_wrapped (t : Z) :
  (- 2 ^ 31 <= t <= 0 \/ 2 ^ 31 <= t <= 2 ^ 32)%Z -> (to_int32 t <= 0)%Z.
Proof.
  intros H. unfold to_int32. cbv zeta.
  change (2 ^ 32)%Z with 4294967296%Z in *. change (2 ^ 31)%Z with 2147483648%Z in *.
  destruct (Z.ltb_spec (t mod 4294967296) 2147483648) as [Hm|Hm];
    Z.div_mod_to_equations; lia.
Qed.

(** The text of a time is made of its hours, minutes and seconds, and these
    can be read back from it. *)
Lemma clock_inj (h m s h' m' s' : nat) :
  (if (0 <? h)%nat
   then (Number_toString h ++ ":" ++ pad m ++ ":" ++ pad s)%string
   else (Number_toString m ++ ":" ++ pad s)%string)
  = (if (0 <? h')%nat
     then (Number_toString h' ++ ":" ++ pad m' ++ ":" ++ pad s')%string
     else (Number_toString m' ++ ":" ++ pad s')%string) ->
  h = h' /\ m = m' /\ s = s'.
Proof.
  pose proof (fun n => all_digits_forall _ (Number_toString_digits n)) as Hd.
  intros E. apply (f_equal split_colon) in E.
  destruct (Nat.ltb_spec 0 h) as [Hh|Hh], (Nat.ltb_spec 0 h') as [Hh'|Hh'];
    rewrite !split_colon_app in E by apply Hd; injection E as E1 E2;
    pose proof (f_equal split_colon E2) as E3.
  - clear E2. rename E3 into E2. rewrite !split_colon_app in E2 by apply pad_digits. injection E2 as E2 E3.
    apply Number_toString_inj in E1. apply pad_inj in E2, E3. auto.
  - rewrite split_colon_app, split_colon_digits in E3 by apply pad_digits.
    discriminate E3.
  - rewrite split_colon_app, split_colon_digits in E3 by apply pad_digits.
    discriminate E3.
  - apply Number_toString_inj in E1. apply pad_inj in E2. lia.
Qed.

Lemma mod_3600_60 (n : nat) : ((n mod 3600) mod 60 = n mod 60)%nat.
Proof.
  change 3600%nat with (60 * 60)%nat.
  rewrite Nat.Div0.mod_mul_r, (Nat.mul_comm 60), Nat.Div0.mod_add.
  apply Nat.Div0.mod_mod.
Qed.

(** X25. Below [2^31] seconds the timer never shows the same text for two
    different times. *)
Theorem formatTime_injective (t t' : Z) :
  (0 <= t < 2 ^ 31)%Z -> (0 <= t' < 2 ^ 31)%Z ->
  formatTime t = formatTime t' -> t = t'.
Proof.
  intros Ht Ht' E. unfold formatTime in E. cbv zeta in E.
  rewrite !to_int32_small in E by assumption.
  rewrite !Z.max_r in E by lia.
  apply clock_inj in E as (Eh & Em & Es).
  apply Z2Nat.inj; [lia|lia|].
  revert Eh Em Es. generalize (Z.to_nat t) (Z.to_nat t'). intros n n' Eh Em Es.
  rewrite (Nat.div_mod_eq n 3600), (Nat.div_mod_eq n' 3600), Eh. f_equal.
  rewrite (Nat.div_mod_eq (n mod 3600) 60), (Nat.div_mod_eq (n' mod 3600) 60), Em.
  f_equal. now rewrite !mod_3600_60.
Qed.

Lemma formatTime_injective_witness :
  formatTime 3725 = "1:02:05"%string /\ (3725 = 3600 + 2 * 60 + 5)%Z.
Proof.
  split; [reflexivity|].
  apply (formatTime_injective 3725 (3600 + 2 * 60 + 5)); [lia|lia|reflexivity].
Defined.

(** X26. A negative number of seconds is shown as [0:00], and so is every
    number from [2^31] to [2^32]: the 32-bit conversion turns these
    negative before the clamp. *)
Theorem formatTime_clamped (t : Z) :
  (- 2 ^ 31 <= t <= 0 \/ 2 ^ 31 <= t <= 2 ^ 32)%Z ->
  formatTime t = "0:00"%string.
Proof.
  intros H. apply to_int32_wrapped in H. unfold formatTime. cbv zeta.
  rewrite Z.max_l by exact H. reflexivity.
Qed.

Lemma formatTime_clamped_witness :
  formatTime (-5) = "0:00"%string /\ formatTime (2 ^ 31) = "0:00"%string.
Proof.
  split; apply formatTime_clamped; [left|right]; lia.
Defined.

(** ** Page flow of the app *)

Lemma js_or_string_nonempty (a b : string) :
  b <> ""%string -> js_or_string a b <> ""%string.
Proof.
  intros Hb. unfold js_or_string.
  destruct (String.eqb_spec a ""); [exact Hb|assumption].
Qed.

Lemma run_app_snoc (es : list Event) (e : Event) (st : AppState) :
  run_app (es ++ [e]) st = react e (run_app es st).
Proof. unfold run_app. now rewrite foldl_app. Qed.

Lemma app_inv_initial : app_inv initial_app.
Proof.
  unfold app_inv, initial_app, pending. simpl.
  repeat split; try discriminate; try constructor; try (intros H; now destruct H).
Qed.

Lemma app_inv_setView (v : View) (st : AppState) :
  v <> Session -> v <> Login -> v <> Survey ->
  view st <> Session -> view st <> Login -> view st <> Survey ->
  app_inv st -> app_inv (setView v st).
Proof.
  intros Hv1 Hv2 Hv3 Hs1 Hs2 Hs3 (I1 & I2 & I3 & I4 & I5 & I6).
  unfold app_inv, pending in *. simpl.
  split; [|split; [|split; [exact I3|split; [|split; [exact I5|exact I6]]]]].
  - split; [intros E; contradiction|]. intros H. now apply I1 in H.
  - split; [intros E; contradiction|]. intros H. now apply I2 in H.
  - destruct (view st), v; try contradiction; exact I4.
Qed.

Lemma app_inv_login (name : string) (st : AppState) :
  view st = Login -> app_inv st -> app_inv (LoginPage_handleSubmit name st).
Proof.
  intros Ev Hinv. unfold LoginPage_handleSubmit. cbv zeta.
  destruct (String.eqb_spec (trim name) "") as [E|E]; [exact Hinv|].
  destruct Hinv as (I1 & I2 & I3 & I4 & I5 & I6).
  unfold app_inv, pending in *. rewrite Ev in *. simpl.
  split; [|split; [|split; [exact I3|split; [exact I4|split; [exact I5|exact I6]]]]].
  - split; [discriminate|]. intros H. now apply I1 in H.
  - split; [discriminate|]. intros H. contradiction.
Qed.

Lemma app_inv_start (s g d : string) (w : bool) (t : Z) (st : AppState) :
  view st = Pre -> app_inv st -> app_inv (PreSessionForm_handleSubmit s g d w t st).
Proof.
  intros Ev (I1 & I2 & I3 & I4 & I5 & I6).
  unfold app_inv, pending in *. rewrite Ev in *. simpl.
  split; [|split; [|split; [exact I3|split; [exact I4|split; [exact I5|]]]]].
  - split; eauto.
  - split; [discriminate|]. intros H. now apply I2 in H.
  - intros c [= <-]. unfold session_ok. simpl.
    split; [|split]; [now apply js_or_string_nonempty..|apply parseDuration_total].
Qed.

Lemma app_inv_mute (st : AppState) : app_inv st -> app_inv (onToggleMute st).
Proof. intros H. exact H. Qed.

Lemma app_inv_end (t : Z) (st : AppState) :
  view st = Session -> app_inv st -> app_inv (handleEndSession t st).
Proof.
  intros Ev Hinv. unfold handleEndSession.
  destruct (currentConfig st) as [cfg|] eqn:Ec; [|exact Hinv].
  destruct Hinv as (I1 & I2 & I3 & I4 & I5 & I6).
  unfold app_inv, pending in *. rewrite Ev in *. cbv zeta. simpl.
  split; [|split; [|split; [|split; [|split]]]].
  - split; [discriminate|]. intros H. now destruct H.
  - split; [discriminate|]. intros H. now apply I2 in H.
  - now rewrite last_snoc.
  - rewrite app_nil_r in I4. now rewrite fmap_app, I4.
  - apply Forall_app. split; [exact I5|]. constructor; [|constructor].
    split; [now apply I6|reflexivity].
  - discriminate.
Qed.

Lemma app_inv_survey (a : Answers) (st : AppState) :
  view st = Survey -> app_inv st -> app_inv (SurveyPage_handleSubmit a st).
Proof.
  intros Ev (I1 & I2 & I3 & I4 & I5 & I6).
  unfold app_inv, pending in *. rewrite Ev in *. simpl.
  split; [|split; [|split; [exact I3|split; [|split; [exact I5|exact I6]]]]].
  - split; [discriminate|]. intros H. now apply I1 in H.
  - split; [discriminate|]. intros H. now apply I2 in H.
  - rewrite fmap_app, app_nil_r. exact I4.
Qed.

(** Every handler keeps the invariant. *)
Lemma app_inv_react (e : Event) (st : AppState) :
  app_inv st -> app_inv (react e st).
Proof.
  intros Hinv. unfold react.
  destruct (view st) eqn:Ev, e; try exact Hinv;
    try (apply app_inv_setView; [discriminate..|congruence|congruence|congruence|exact Hinv]).
  - now apply app_inv_login.
  - now apply app_inv_start.
  - now apply app_inv_end.
  - now apply app_inv_survey.
Qed.

Lemma app_inv_run (es : list Event) (st : AppState) :
  app_inv st -> app_inv (run_app es st).
Proof.
  revert st. induction es as [|e es IH]; intros st H; [exact H|].
  apply IH, app_inv_react, H.
Qed.

(** X27. Whatever the user does from the first page on: the session page
    is shown exactly while a session is running, the login page exactly
    while no name is set, and the survey page only for the session that
    was recorded last. *)
Theorem app_flow (es : list Event) :
  let st := run_app es initial_app in
  (view st = Session <-> is_Some (currentConfig st))
  /\ (view st = Login <-> userName st = ""%string)
  /\ (view st = Survey ->
      exists c, lastCompleted st = Some c /\ last (pastSessions st) = Some c).
Proof.
  intros st. destruct (app_inv_run es initial_app app_inv_initial)
    as (I1 & I2 & I3 & I4 & _).
  fold st in I1, I2, I3, I4. split; [exact I1|]. split; [exact I2|].
  intros Ev. unfold pending in I4. rewrite Ev in I4.
  destruct (pastSessions st) as [|c0 past] using rev_ind.
  - destruct (surveyResults st); discriminate I4.
  - exists c0. rewrite I3, last_snoc. auto.
Qed.

(** X28. Whatever the user does from the first page on, every recorded
    session gets its survey in order: the n-th survey response is about
    the n-th recorded session, and the only session that can be without a
    response is the last one, while the survey page is shown. *)
Theorem app_survey_matching (es : list Event) :
  let st := run_app es initial_app in
  session <$> surveyResults st
  = Some <$> take (length (surveyResults st)) (pastSessions st)
  /\ length (pastSessions st)
     = (length (surveyResults st) + match view st with Survey => 1 | _ => 0 end)%nat.
Proof.
  intros st. destruct (app_inv_run es initial_app app_inv_initial)
    as (_ & _ & _ & I4 & _).
  fold st in I4. unfold pending in I4.
  assert (Hlen : length (pastSessions st)
                 = (length (surveyResults st)
                    + match view st with Survey => 1 | _ => 0 end)%nat).
  { apply (f_equal length) in I4. rewrite length_app, !length_fmap in I4.
    rewrite <- I4. destruct (view st); reflexivity. }
  split; [|exact Hlen].
  rewrite fmap_take, <- I4.
  replace (length (surveyResults st)) with (length (session <$> surveyResults st))
    by apply length_fmap.
  now rewrite take_app_length.
Qed.

Lemma Math_round_minutes (d a : Z) :
  a = Math_round (inject_Z d / 60000) ->
  (60000 * a - 30000 <= d < 60000 * a + 30000)%Z.
Proof.
  intros ->. destruct (Math_round_near (inject_Z d / 60000)) as [Hlo Hhi].
  revert Hlo Hhi. generalize (Math_round (inject_Z d / 60000)). intros a.
  unfold Qlt, Qle, Qdiv, Qmult, Qinv, Qplus, Qminus, Qopp, inject_Z. simpl. lia.
Qed.

(** X29. Whatever the user does from the first page on, every recorded
    session has a subject and a goal that are not empty and a planned
    duration that is a number, and its number of minutes is within half a
    minute of the time between its two clock readings. *)
Theorem app_sessions_recorded (es : list Event) :
  Forall (fun c =>
            subject (config c) <> ""%string /\ goal (config c) <> ""%string
            /\ is_Some (durationMinutes (config c))
            /\ (60000 * actualMinutes c - 30000
                <= endedAt c - startedAt (config c)
                < 60000 * actualMinutes c + 30000)%Z)
         (pastSessions (run_app es initial_app)).
Proof.
  destruct (app_inv_run es initial_app app_inv_initial) as (_ & _ & _ & _ & I5 & _).
  eapply Forall_impl; [exact I5|].
  intros c ((Hs & Hg & Hd) & Ha). repeat split; try assumption;
    now apply Math_round_minutes in Ha.
Qed.

Lemma react_history (e : Event) (st : AppState) :
  pastSessions st `prefix_of` pastSessions (react e st)
  /\ surveyResults st `prefix_of` surveyResults (react e st)
  /\ (view st <> Login ->
      view (react e st) <> Login /\ userName (react e st) = userName st).
Proof.
  unfold react, LoginPage_handleSubmit, handleEndSession.
  destruct (view st) eqn:Ev, e; cbv zeta;
    repeat match goal with
           | |- context [String.eqb ?a ?b] => destruct (String.eqb a b)
           | |- context [currentConfig st] => destruct (currentConfig st)
           end; simpl; rewrite ?Ev;
    (split; [try reflexivity; now apply prefix_app_r
            |split; [try reflexivity; now apply prefix_app_r|]]);
    intros H; first [congruence | split; [discriminate|reflexivity]].
Qed.

(** X30. No event ever removes or changes a recorded session or a survey
    response, and once a name is set the login page is never shown again
    and the name never changes. *)
Theorem app_history (es : list Event) (st : AppState) :
  pastSessions st `prefix_of` pastSessions (run_app es st)
  /\ surveyResults st `prefix_of` surveyResults (run_app es st)
  /\ (view st <> Login ->
      view (run_app es st) <> Login /\ userName (run_app es st) = userName st).
Proof.
  induction es as [|e es IH] using rev_ind.
  - repeat split; auto.
  - rewrite run_app_snoc. destruct IH as (P1 & P2 & P3).
    destruct (react_history e (run_app es st)) as (R1 & R2 & R3).
    split; [now transitivity (pastSessions (run_app es st))|].
    split; [now transitivity (surveyResults (run_app es st))|].
    intros Hv. destruct (P3 Hv) as [Hv' Hn]. destruct (R3 Hv') as [Hv'' Hn'].
    split; [exact Hv''|congruence].
Qed.
